(** * Selection-preserving markdown transforms: a shallow embedding

    The development embeds the two editions of the markdown editing engine,
    [src/src/markdown-editor.ts] (module [Old]) and
    [src/lib/src/markdown-editor.ts] (module [Lib]), over a model of the text
    buffer they drive (the "Host buffer" definitions below).

    Conventions of the embedding:
    - a line is a [list ascii]; a document is the list of its lines; the
      column of a position counts characters of the line;
    - a position is a pair of integers, because the engine's arithmetic can
      push a column below zero before the buffer clips it;
    - a range is the pair of its two position objects together with a flag
      telling whether both fields hold the same object: the engine mutates
      position objects through [from()], [to()], [anchor] and [head], and
      assigns one field to the other, so aliasing is observable;
    - the numbers read from and written to list markers are the engine's
      double-precision numbers: natural numbers rounded to 53 significant
      bits when they are read and when they are counted up, and printed by
      their shortest digits;
    - a call that would raise a [TypeError] (reading a property of the
      [undefined] returned by [getLine] outside the document) is [None];
    - the buffer splits inserted text at line feeds only (the texts the
      transforms insert are taken to hold no carriage return; a whole new
      content, which may hold some, is split at them too), clips every
      position it is handed ([clipPos]) and orders the two ends of a
      replacement; [setSelections] clips every position, sorts the ranges
      by their start and merges those that touch or overlap;
    - the regular expressions of the engine are written as recognisers of
      the prefix they match, and a replacement text is taken literally;
    - a [for] loop over the selections is a recursion on the list, or on a
      turn counter where the loop rewrites the selections still to come. *)

From Stdlib Require Import ZArith NArith Lia List Ascii String Bool.
From stdpp Require Import base tactics option list strings.

Open Scope Z_scope.

(** ** Text *)

Abbreviation Line := (list ascii).
Abbreviation Doc := (list (list ascii)).

(** String literals for lines. *)
Definition L (s : string) : Line := list_ascii_of_string s.

Definition LF : ascii := "010"%char.

Definition len (s : Line) : Z := Z.of_nat (length s).

Definition line_eqb (a b : Line) : bool := bool_decide (a = b).

(** [s.slice(0, n)] and [s.slice(n)] for an in-range or clipped column. *)
Definition takeZ (n : Z) (s : Line) : Line := take (Z.to_nat n) s.
Definition dropZ (n : Z) (s : Line) : Line := drop (Z.to_nat n) s.

(** ** Host buffer: positions and ranges *)

Record Pos := mkPos { line : Z; ch : Z }.

Definition pos_eqb (a b : Pos) : bool := (line a =? line b) && (ch a =? ch b).

(** [cmp(a, b) = a.line - b.line || a.ch - b.ch]. *)
Definition cmp (a b : Pos) : Z :=
  if line a - line b =? 0 then ch a - ch b else line a - line b.

(** A range object.  [shared] records that [anchor] and [head] hold one and
    the same position object, as after [r.head = r.anchor]; a mutation
    through either field is then seen through both. *)
Record Range := mkRange { anchor : Pos; head : Pos; shared : bool }.

(** Which of the two position objects a method returns. *)
Inductive End := Anchor | Head.

(** [from()] is [minPos(anchor, head)], [to()] is [maxPos(anchor, head)]:
    on a tie [from()] returns [head] and [to()] returns [anchor]. *)
Definition from_end (r : Range) : End :=
  if cmp (anchor r) (head r) <? 0 then Anchor else Head.
Definition to_end (r : Range) : End :=
  if cmp (anchor r) (head r) <? 0 then Head else Anchor.

Definition get (r : Range) (e : End) : Pos :=
  match e with Anchor => anchor r | Head => head r end.

Definition from (r : Range) : Pos := get r (from_end r).
Definition to (r : Range) : Pos := get r (to_end r).

Definition empty (r : Range) : bool := pos_eqb (anchor r) (head r).

(** In-place update of the position object held by one end. *)
Definition mut (e : End) (f : Pos -> Pos) (r : Range) : Range :=
  if shared r then
    let p := f (get r e) in mkRange p p true
  else
    match e with
    | Anchor => mkRange (f (anchor r)) (head r) false
    | Head => mkRange (anchor r) (f (head r)) false
    end.

Definition add_ch (k : Z) (p : Pos) : Pos := mkPos (line p) (ch p + k).
Definition add_line (k : Z) (p : Pos) : Pos := mkPos (line p + k) (ch p).
Definition set_ch (k : Z) (p : Pos) : Pos := mkPos (line p) k.

(** [r.head = r.anchor] and [r.anchor = r.head]. *)
Definition head_becomes_anchor (r : Range) : Range :=
  mkRange (anchor r) (anchor r) true.
Definition anchor_becomes_head (r : Range) : Range :=
  mkRange (head r) (head r) true.

(** ** Host buffer: the document *)

Definition getLine (d : Doc) (n : Z) : option Line :=
  if n <? 0 then None else d !! Z.to_nat n.

(** The text of a line the buffer is known to hold (empty otherwise). *)
Definition lineAt (d : Doc) (n : Z) : Line := default [] (getLine d n).

Definition lastLine (d : Doc) : Z := Z.of_nat (length d) - 1.

(** The buffer clips every position it is handed. *)
Definition clipPos (d : Doc) (p : Pos) : Pos :=
  if line p <? 0 then mkPos 0 0
  else if line p >? lastLine d then mkPos (lastLine d) (len (lineAt d (lastLine d)))
  else
    let n := len (lineAt d (line p)) in
    if ch p >? n then mkPos (line p) n
    else if ch p <? 0 then mkPos (line p) 0
    else p.

(** Splitting inserted text at line feeds; the result is never empty. *)
Fixpoint splitLines (s : Line) : Doc :=
  match s with
  | [] => [[]]
  | c :: r =>
      if Ascii.eqb c LF then [] :: splitLines r
      else match splitLines r with
           | x :: xs => (c :: x) :: xs
           | [] => [[c]]
           end
  end.

Fixpoint glueEnd (ls : Doc) (post : Line) : Doc :=
  match ls with
  | [] => [post]
  | [x] => [x ++ post]
  | x :: r => x :: glueEnd r post
  end.

Definition glue (pre : Line) (ls : Doc) (post : Line) : Doc :=
  match ls with
  | [] => [pre ++ post]
  | x :: r => glueEnd ((pre ++ x) :: r) post
  end.

(** The change itself, between two clipped and ordered positions. *)
Definition makeChange (d : Doc) (text : Doc) (f t : Pos) : Doc :=
  let pre := takeZ (ch f) (lineAt d (line f)) in
  let post := dropZ (ch t) (lineAt d (line t)) in
  take (Z.to_nat (line f)) d ++ glue pre text post ++ drop (Z.to_nat (line t) + 1) d.

(** [replaceRange(text, from, to?)]: a missing [to] is an insertion. *)
Definition replaceRange (d : Doc) (text : Line) (f : Pos) (t : option Pos) : Doc :=
  let f' := clipPos d f in
  let t' := match t with Some t => clipPos d t | None => f' end in
  if cmp t' f' <? 0 then makeChange d (splitLines text) t' f'
  else makeChange d (splitLines text) f' t'.

Fixpoint joinLines (ls : Doc) : Line :=
  match ls with
  | [] => []
  | [x] => x
  | x :: r => x ++ LF :: joinLines r
  end.

(** [getRange(from, to)]. *)
Definition getRange (d : Doc) (f t : Pos) : Line :=
  let f' := clipPos d f in
  let t' := clipPos d t in
  if line f' =? line t' then dropZ (ch f') (takeZ (ch t') (lineAt d (line f')))
  else if line f' >? line t' then []
  else joinLines
         (dropZ (ch f') (lineAt d (line f'))
            :: take (Z.to_nat (line t' - line f' - 1)) (drop (Z.to_nat (line f') + 1) d)
            ++ [takeZ (ch t') (lineAt d (line t'))]).

(** The editor as the engine sees it: the document and the selection list
    returned by [listSelections()]. *)
Record Editor := mkEditor { doc : Doc; sels : list Range }.

(** Clipping returns the position object it was given when that position
    is inside the document and a fresh one otherwise, so a clipped range
    keeps its shared object only in the first case. *)
Definition clipRange (d : Doc) (r : Range) : Range :=
  mkRange (clipPos d (anchor r)) (clipPos d (head r))
    (shared r && pos_eqb (clipPos d (anchor r)) (anchor r)).

(** [minPos(a, b)] and [maxPos(a, b)]. *)
Definition minPos (a b : Pos) : Pos := if cmp a b <? 0 then a else b.
Definition maxPos (a b : Pos) : Pos := if cmp a b <? 0 then b else a.

(** [ranges.sort((a, b) => cmp(a.from(), b.from()))]: a stable sort, so a
    range goes before the first one that does not start before it. *)
Fixpoint insertRange (r : Range) (sorted : list Range) : list Range :=
  match sorted with
  | s :: rest =>
      if cmp (from s) (from r) <? 0 then s :: insertRange r rest else r :: s :: rest
  | [] => [r]
  end.

Fixpoint sortRanges (rs : list Range) : list Range :=
  match rs with
  | r :: rest => insertRange r (sortRanges rest)
  | [] => []
  end.

(** [r.from() == r.head], a test on the objects: [from()] returns the head
    unless the anchor lies before it. *)
Definition fromIsHead (r : Range) : bool :=
  match from_end r with Head => true | Anchor => shared r end.

(** The range that replaces two ranges that touch or overlap; its two
    positions are taken from different objects. *)
Definition mergedRange (prev cur : Range) : Range :=
  let f := minPos (from prev) (from cur) in
  let t := maxPos (to prev) (to cur) in
  let inv := if empty prev then fromIsHead cur else fromIsHead prev in
  if inv then mkRange t f false else mkRange f t false.

(** The loop of [normalizeSelection] over the sorted ranges, with [prev]
    the range before the current one: a range that starts at or before the
    end of [prev] is merged into it ([selectionsMayTouch] is off). *)
Fixpoint mergeLoop (prev : Range) (ranges : list Range) : list Range :=
  match ranges with
  | cur :: rest =>
      if cmp (to prev) (from cur) >=? 0 then mergeLoop (mergedRange prev cur) rest
      else prev :: mergeLoop cur rest
  | [] => [prev]
  end.

Definition normalizeSelection (ranges : list Range) : list Range :=
  match sortRanges ranges with
  | first :: rest => mergeLoop first rest
  | [] => []
  end.

(** [setSelections(ranges)] clips every position to the document, sorts
    the ranges by their start and merges those that touch or overlap, and
    installs the result.  (Handed no range it leaves the selections as they
    are; the engine hands it as many ranges as it was given.) *)
Definition setSelections (d : Doc) (rs : list Range) : Editor :=
  mkEditor d (normalizeSelection (map (clipRange d) rs)).

(** The substring a range denotes. *)
Definition selected (d : Doc) (r : Range) : Line := getRange d (from r) (to r).

(** ** Host buffer: the whole content

    Reading and replacing the whole content.  A new content is split at
    every line break the buffer knows: carriage return and line feed
    together, and either of them alone. *)

Definition CR : ascii := "013"%char.

(** [lines.join(sep)]. *)
Fixpoint joinWith (sep : Line) (ls : Doc) : Line :=
  match ls with
  | [] => []
  | [x] => x
  | x :: r => x ++ sep ++ joinWith sep r
  end.

(** [getValue(lineSep)]: the lines joined by [lineSep], by a line feed when
    [lineSep] is missing or empty. *)
Definition getValue (lineSep : option Line) (d : Doc) : Line :=
  joinWith (match lineSep with Some (c :: sep) => c :: sep | _ => [LF] end) d.

(** [code.split(/\r\n?|\n/)]. *)
Fixpoint splitLinesAuto (s : Line) : Doc :=
  match s with
  | [] => [[]]
  | c :: r =>
      if Ascii.eqb c CR then
        match r with
        | c2 :: r2 => if Ascii.eqb c2 LF then [] :: splitLinesAuto r2 else [] :: splitLinesAuto r
        | [] => [] :: splitLinesAuto r
        end
      else if Ascii.eqb c LF then [] :: splitLinesAuto r
      else match splitLinesAuto r with
           | x :: xs => (c :: x) :: xs
           | [] => [[c]]
           end
  end.

(** [setValue(code)]: the lines of [code] become the document and the
    caret goes to its start. *)
Definition setValue (code : Line) : Editor :=
  mkEditor (splitLinesAuto code) [mkRange (mkPos 0 0) (mkPos 0 0) true].

(** ** Patterns

    The engine recognises line prefixes with anchored regular expressions.
    Each recogniser returns the length of the match, [None] when
    [search] would return [-1]. *)

Fixpoint spanLen (p : ascii -> bool) (s : Line) : nat :=
  match s with
  | c :: r => if p c then S (spanLen p r) else O
  | [] => O
  end.

Definition isDigit (c : ascii) : bool :=
  let n := nat_of_ascii c in (48 <=? n)%nat && (n <=? 57)%nat.
Definition isBlank (c : ascii) : bool :=
  Ascii.eqb c " "%char || Ascii.eqb c "009"%char.
Definition isHash (c : ascii) : bool := Ascii.eqb c "#"%char.
Definition isBullet (c : ascii) : bool :=
  Ascii.eqb c "*"%char || Ascii.eqb c "-"%char.
Definition isDot (c : ascii) : bool := Ascii.eqb c "."%char.

(** [ORDERED_LIST_PATTERN = /^(\d)+\.(\t| )+/]. *)
Definition orderedMatch (s : Line) : option nat :=
  let nd := spanLen isDigit s in
  match drop nd s with
  | c :: r =>
      let nb := spanLen isBlank r in
      if isDot c && negb (nd =? 0)%nat && negb (nb =? 0)%nat
      then Some (nd + 1 + nb)%nat else None
  | [] => None
  end.

(** [UNORDERED_LIST_PATTERN = /^(\*|-)(\t| )+/]. *)
Definition unorderedMatch (s : Line) : option nat :=
  match s with
  | c :: r =>
      let nb := spanLen isBlank r in
      if isBullet c && negb (nb =? 0)%nat then Some (1 + nb)%nat else None
  | [] => None
  end.

(** [/^>(\t| )*/]. *)
Definition quoteMatch (s : Line) : option nat :=
  match s with
  | c :: r => if Ascii.eqb c ">"%char then Some (1 + spanLen isBlank r)%nat else None
  | [] => None
  end.

(** [/^((#)*( )?)/] matches every line, possibly with the empty match. *)
Definition headingMatch (s : Line) : nat :=
  let nh := spanLen isHash s in
  match drop nh s with
  | c :: _ => if Ascii.eqb c " "%char then S nh else nh
  | [] => nh
  end.

(** [s.search(/\./)] on a line that holds a dot; the length of the line when
    it holds none (the engine only asks on lines that matched
    [ORDERED_LIST_PATTERN]). *)
Definition dotPos (s : Line) : nat := spanLen (fun c => negb (isDot c)) s.

(** [s.replace(pattern, token)] for an anchored pattern. *)
Definition replaceMatch (m : option nat) (token s : Line) : Line :=
  match m with
  | Some k => token ++ drop k s
  | None => s
  end.

(** ** Numbers in list markers *)

Definition digitChar (n : N) : ascii := ascii_of_N (48 + n).

Fixpoint showDigits (fuel : nat) (n : N) (acc : Line) : Line :=
  match fuel with
  | O => acc
  | S fuel' =>
      let acc' := digitChar (n mod 10) :: acc in
      if (n / 10 =? 0)%N then acc' else showDigits fuel' (n / 10)%N acc'
  end.

(** The decimal numeral of a natural number. *)
Definition showN (n : N) : Line := showDigits (S (N.size_nat n)) n [].

(** The natural number a run of decimal digits denotes. *)
Definition parseN (s : Line) : N :=
  fold_left (fun acc c => (10 * acc + (N_of_ascii c - 48))%N) s 0%N.

(** The engine's numbers are double-precision floating point numbers.
    Those that occur in list markers are the natural numbers that are
    doubles and positive infinity: a natural number stands for itself, and
    [infinity], the first power of two beyond the doubles, for positive
    infinity. *)
Definition infinity : N := (2 ^ 1024)%N.

(** The double nearest to a natural number: 53 significant bits, a tie
    going to the even significand, infinity from the upper end of the range
    on. *)
Definition toNumber (n : N) : N :=
  let size := N.size n in
  if (size <=? 53)%N then n
  else
    let shift := (size - 53)%N in
    let q := N.shiftr n shift in
    let r := N.land n (N.ones shift) in
    let half := N.shiftl 1 (shift - 1) in
    let q' := if (half <? r)%N || ((r =? half)%N && N.odd q) then (q + 1)%N else q in
    let v := N.shiftl q' shift in
    if (infinity <=? v)%N then infinity else v.

(** Unary plus on a run of decimal digits: the double nearest to the number
    the digits denote. *)
Definition parseNumber (s : Line) : N := toNumber (parseN s).

(** [n + 1] and [++n]. *)
Definition increment (x : N) : N := toNumber (x + 1).

(** The search of [Number::toString] for the shortest digits: the least
    number [k] of digits such that some [s] of [k] digits, followed by
    [len - k] zeros, is a number whose double is [x]; of two such [s] the
    one nearer to [x], and the even one when both are as near.  [x] has
    [len] digits, and the search starts at [k]. *)
Fixpoint shortestFrom (fuel : nat) (k : N) (x len : N) : N :=
  match fuel with
  | O => x
  | S fuel' =>
      let p := (10 ^ (len - k))%N in
      let lo := (x / p)%N in
      let hi := (lo + 1)%N in
      let okLo := (toNumber (lo * p) =? x)%N in
      let okHi := (hi <? 10 ^ k)%N && (toNumber (hi * p) =? x)%N in
      let dLo := (x - lo * p)%N in
      let dHi := (hi * p - x)%N in
      if okLo && okHi then
        if (dLo <? dHi)%N then lo
        else if (dHi <? dLo)%N then hi
        else if N.even lo then lo else hi
      else if okLo then lo
      else if okHi then hi
      else shortestFrom fuel' (k + 1)%N x len
  end.

(** The digits [s] with the decimal point after [n] digits: written out
    with zeros up to 21 digits, in exponent form beyond. *)
Definition showScaled (s : N) (n : nat) : Line :=
  let digits := showN s in
  if (n <=? 21)%nat then digits ++ replicate (n - length digits) "0"%char
  else
    take 1 digits
    ++ (if (1 <? length digits)%nat then "."%char :: drop 1 digits else [])
    ++ L "e+" ++ showN (N.of_nat (n - 1)).

(** A number as a template literal and string concatenation print it
    ([Number::toString]): a natural number below 2^53 in full, a greater one
    by its shortest digits. *)
Definition showNumber (x : N) : Line :=
  if (x <? 2 ^ 53)%N then showN x
  else if (infinity <=? x)%N then L "Infinity"
  else
    let len := length (showN x) in
    if (toNumber (10 ^ N.of_nat len) =? x)%N then showScaled 1 (S len)
    else showScaled (shortestFrom len 1 x (N.of_nat len)) len.

(** [c.repeat(n)]. *)
Definition repeatChar (c : ascii) (n : nat) : Line := replicate n c.

Definition startsWith (s t : Line) : bool := line_eqb (take (length t) s) t.
Definition endsWith (s t : Line) : bool := line_eqb (drop (length s - length t) s) t.

(** ** Requests made of the buffer

    The inline toggles record every [replaceRange] call they make: which
    side of the selection it serves, the arguments of the call and the
    document the call was made on. *)

Inductive Side := Prefix | Suffix.

Record Request := mkRequest {
  side : Side;
  text : Line;
  rfrom : Pos;
  rto : option Pos;
  before : Doc
}.

Definition request (q : Request) : Doc :=
  replaceRange (before q) (text q) (rfrom q) (rto q).

(** A replacement by the empty text over an explicit range is a removal. *)
Definition isRemoval (q : Request) : bool :=
  match text q, rto q with
  | [], Some _ => true
  | _, _ => false
  end.

(** A per-line rewrite: it receives the document, the text of the line and
    its number, may change the document, and returns the new text. *)
Definition ReplaceFn := Doc -> Line -> Z -> option (Doc * Line).

(** * The first edition: [src/src/markdown-editor.ts] *)

Module Old.

Definition prefixStart (op : Line) (from : Pos) : Pos :=
  mkPos (line from) (if ch from >=? len op then ch from - len op else 0).

Definition suffixEnd (op : Line) (to : Pos) (endLineLength : Z) : Pos :=
  mkPos (line to)
    (if ch to <=? endLineLength - len op then ch to + len op else endLineLength).

(** The selection shifted back [in respect to previously inserted/deleted
    operators]. *)
Definition shiftBack (op : Line) (currentShift : Z) (sel : Range) : Range :=
  mut Head (add_ch (currentShift * len op))
    (mut Anchor (add_ch (currentShift * len op)) sel).

Definition hasPrefixToken (op : Line) (d : Doc) (selection : Range) : bool :=
  line_eqb (getRange d (prefixStart op (from selection)) (from selection)) op.

Definition hasSuffixToken (op : Line) (d : Doc) (selection : Range) (endLineLength : Z)
  : bool :=
  line_eqb (getRange d (to selection) (suffixEnd op (to selection) endLineLength)) op.

Definition suffixRequest (op : Line) (hasSuffixToken : bool) (d : Doc) (selection : Range)
    (endLineLength : Z) : Request :=
  if hasSuffixToken
  then mkRequest Suffix [] (to selection) (Some (suffixEnd op (to selection) endLineLength)) d
  else mkRequest Suffix op (to selection) None d.

Definition prefixRequest (op : Line) (hasPrefixToken : bool) (d1 : Doc) (selection : Range)
  : Request :=
  if hasPrefixToken
  then mkRequest Prefix [] (prefixStart op (from selection)) (Some (from selection)) d1
  else mkRequest Prefix op (from selection) None d1.

(** [Adjust selections to originally selected characters]. *)
Definition adjustSelection (op : Line) (hasPrefixToken : bool) (selection : Range) : Range :=
  let k := if hasPrefixToken then - len op else len op in
  let selection1 := mut Anchor (add_ch k) selection in
  if negb (empty selection1) then mut Head (add_ch k) selection1 else selection1.

Definition nextShift (currentShift : Z) (hasSuffixToken hasPrefixToken : bool) : Z :=
  let shift1 := if hasSuffixToken then currentShift - 1 else currentShift + 1 in
  if hasPrefixToken then shift1 - 1 else shift1 + 1.

(** One turn of the loop of [toggleInlineFormatting]: the document, the
    running [currentShift], the selection pushed on [newSelections] and the
    requests of the turn.  Both tokens are looked for before the first
    request is made; the request after [to()] comes first. *)
Definition toggleStep (op : Line) (d : Doc) (currentShift : Z) (sel : Range)
  : option (Doc * Z * Range * list Request) :=
  let selection := shiftBack op currentShift sel in
  endLine ← getLine d (line (to selection));
  let endLineLength := len endLine in
  let hasPrefix := hasPrefixToken op d selection in
  let hasSuffix := hasSuffixToken op d selection endLineLength in
  let q1 := suffixRequest op hasSuffix d selection endLineLength in
  let q2 := prefixRequest op hasPrefix (request q1) selection in
  Some (request q2, nextShift currentShift hasSuffix hasPrefix,
        adjustSelection op hasPrefix selection, [q1; q2]).

Fixpoint toggleLoop (op : Line) (d : Doc) (currentShift : Z) (ss : list Range)
  : option (Doc * list Range * list Request) :=
  match ss with
  | [] => Some (d, [], [])
  | sel :: rest =>
      '(d', shift', selection, qs) ← toggleStep op d currentShift sel;
      '(d'', newSelections, qs') ← toggleLoop op d' shift' rest;
      Some (d'', selection :: newSelections, qs ++ qs')
  end.

Definition toggleInlineFormattingRun (op : Line) (ed : Editor)
  : option (Doc * list Range * list Request) :=
  toggleLoop op (doc ed) 0 (sels ed).

Definition toggleInlineFormatting (op : Line) (ed : Editor) : option Editor :=
  '(d, newSelections, _) ← toggleInlineFormattingRun op ed;
  Some (setSelections d newSelections).

Definition toggleBold := toggleInlineFormatting (L "**").
Definition toggleItalic := toggleInlineFormatting (L "*").
Definition toggleStrikethrough := toggleInlineFormatting (L "~~").
Definition toggleInlineCode := toggleInlineFormatting (L "`").

(** The loop over the lines of one selection in [replaceTokenAtLineStart]:
    [n] turns are left, the next one on line [lineNumber]. *)
Fixpoint rewriteLines (replaceFn : ReplaceFn) (n : nat) (lineNumber fromLine toLine : Z)
    (d : Doc) (shiftFrom shiftTo : Z) : option (Doc * Z * Z) :=
  match n with
  | O => Some (d, shiftFrom, shiftTo)
  | S n' =>
      oldLineContent ← getLine d lineNumber;
      '(d1, newLineContent) ← replaceFn d oldLineContent lineNumber;
      let d2 :=
        replaceRange d1 newLineContent (mkPos lineNumber 0)
          (Some (mkPos lineNumber (len oldLineContent))) in
      let delta := len newLineContent - len oldLineContent in
      let shiftFrom' := if lineNumber =? fromLine then delta else shiftFrom in
      let shiftTo' := if lineNumber =? toLine then delta else shiftTo in
      rewriteLines replaceFn n' (lineNumber + 1) fromLine toLine d2 shiftFrom' shiftTo'
  end.

Definition adjustBoundaries (selection : Range) (shiftFrom shiftTo : Z) : Range :=
  if pos_eqb (anchor selection) (from selection) then
    let s1 := mut Anchor (add_ch shiftFrom) selection in
    if negb (empty s1) then mut Head (add_ch shiftTo) s1 else s1
  else
    let s1 := mut Anchor (add_ch shiftTo) selection in
    if negb (empty s1) then mut Head (add_ch shiftFrom) s1 else s1.

Definition replaceStep (replaceFn : ReplaceFn) (d : Doc) (selection : Range)
  : option (Doc * Range) :=
  let fromLine := line (from selection) in
  let toLine := line (to selection) in
  '(d', shiftFrom, shiftTo) ←
    rewriteLines replaceFn (Z.to_nat (toLine - fromLine + 1)) fromLine fromLine toLine d 0 0;
  Some (d', adjustBoundaries selection shiftFrom shiftTo).

Fixpoint replaceLoop (replaceFn : ReplaceFn) (d : Doc) (ss : list Range)
  : option (Doc * list Range) :=
  match ss with
  | [] => Some (d, [])
  | sel :: rest =>
      '(d', selection) ← replaceStep replaceFn d sel;
      '(d'', newSelections) ← replaceLoop replaceFn d' rest;
      Some (d'', selection :: newSelections)
  end.

Definition replaceTokenAtLineStart (replaceFn : ReplaceFn) (ed : Editor) : option Editor :=
  '(d, newSelections) ← replaceLoop replaceFn (doc ed) (sels ed);
  Some (setSelections d newSelections).

Definition headingToken (level : nat) : Line :=
  repeatChar "#"%char level ++ (if (level =? 0)%nat then [] else L " ").

Definition headingFn (level : nat) : ReplaceFn :=
  fun d oldLineContent _ =>
    Some (d, replaceMatch (Some (headingMatch oldLineContent)) (headingToken level) oldLineContent).

Definition setHeadingLevel (level : nat) : Editor -> option Editor :=
  replaceTokenAtLineStart (headingFn level).

Definition quoteFn : ReplaceFn :=
  fun d oldLineContent _ =>
    Some (d, match quoteMatch oldLineContent with
             | None => L "> " ++ oldLineContent
             | Some k => replaceMatch (Some k) [] oldLineContent
             end).

Definition toggleQuote : Editor -> option Editor := replaceTokenAtLineStart quoteFn.

Definition unorderedFn : ReplaceFn :=
  fun d oldLineContent _ =>
    Some (d, match unorderedMatch oldLineContent with
             | None =>
                 let token := L "- " in
                 match orderedMatch oldLineContent with
                 | None => token ++ oldLineContent
                 | Some k => replaceMatch (Some k) token oldLineContent
                 end
             | Some k => replaceMatch (Some k) [] oldLineContent
             end).

Definition toggleUnorderedList : Editor -> option Editor :=
  replaceTokenAtLineStart unorderedFn.

(** The [while] loop of [processNextLinesOfOrderedList]; it runs out of
    [fuel] with [None]. *)
Fixpoint processNextLoop (fuel : nat) (d : Doc) (listNumber : N) (nextLineNumber : Z)
  : option Doc :=
  match getLine d nextLineNumber with
  | Some nextLine =>
      if negb (bool_decide (nextLine = [])) && bool_decide (is_Some (orderedMatch nextLine))
      then
        match fuel with
        | O => None
        | S fuel' =>
            let listNumber' := increment listNumber in
            let d' :=
              replaceRange d (showNumber listNumber') (mkPos nextLineNumber 0)
                (Some (mkPos nextLineNumber (Z.of_nat (dotPos nextLine)))) in
            processNextLoop fuel' d' listNumber' (nextLineNumber + 1)
        end
      else Some d
  | None => Some d
  end.

Definition processNextLinesOfOrderedList (d : Doc) (baseLineNumber : Z) (baseListNumber : N)
  : option Doc :=
  processNextLoop (length d) d baseListNumber (baseLineNumber + 1).

Definition orderedFn : ReplaceFn :=
  fun d oldLineContent lineNumber =>
    match orderedMatch oldLineContent with
    | None =>
        let listNumber :=
          match getLine d (lineNumber - 1) with
          | Some prevLine =>
              if bool_decide (prevLine = []) || negb (bool_decide (is_Some (orderedMatch prevLine)))
              then 1%N
              else increment (parseNumber (take (dotPos prevLine) prevLine))
          | None => 1%N
          end in
        d' ← processNextLinesOfOrderedList d lineNumber listNumber;
        let numberToken := showNumber listNumber ++ L ". " in
        Some (d', match unorderedMatch oldLineContent with
                  | None => numberToken ++ oldLineContent
                  | Some k => replaceMatch (Some k) numberToken oldLineContent
                  end)
    | Some k =>
        d' ← processNextLinesOfOrderedList d lineNumber 0;
        Some (d', replaceMatch (Some k) [] oldLineContent)
    end.

Definition toggleOrderedList : Editor -> option Editor :=
  replaceTokenAtLineStart orderedFn.

(** The adjustment [insertCodeBlock] makes to one following selection. *)
Definition rebase (oldSelection : Range) (currentShift : Z) (s : Range) : Range :=
  let remainderIndex := ch (to oldSelection) in
  let s1 :=
    if line (from s) =? line (to oldSelection)
    then mut (from_end s) (add_ch (- remainderIndex)) s else s in
  let s2 :=
    if line (to s1) =? line (to oldSelection)
    then mut (to_end s1) (add_ch (- remainderIndex)) s1 else s1 in
  let s3 := if negb (empty s2) then mut (to_end s2) (add_line currentShift) s2 else s2 in
  mut (from_end s3) (add_line currentShift) s3.

(** The adjustment of the processed selection itself. *)
Definition fenceSelection (currentShift : Z) (newSelection : Range) : Range :=
  let offset :=
    if line (from newSelection) =? line (to newSelection)
    then ch (from newSelection) else 0 in
  let n1 :=
    if negb (empty newSelection) then
      let n0 := mut (to_end newSelection) (add_line (currentShift - 2)) newSelection in
      mut (to_end n0) (add_ch (- offset)) n0
    else anchor_becomes_head newSelection in
  let n2 := mut (from_end n1) (add_line (currentShift - 2)) n1 in
  mut (from_end n2) (set_ch 0) n2.

(** The loop of [insertCodeBlock] with [n] turns left; [selections] holds
    the selections not yet processed, already rebased by the earlier turns. *)
Fixpoint codeBlockLoop (n : nat) (d : Doc) (selections : list Range) : Doc * list Range :=
  match n, selections with
  | S n', oldSelection :: rest =>
      let newSelection := oldSelection in
      let atLineStart := negb (ch (from newSelection) >? 0) in
      let currentShift := if atLineStart then 3 else 4 in
      let startToken := if atLineStart then L "```" ++ [LF] else LF :: L "```" ++ [LF] in
      let d1 := replaceRange d (LF :: L "```" ++ [LF]) (to newSelection) None in
      let d2 := replaceRange d1 startToken (from newSelection) None in
      let '(d', newSelections) :=
        codeBlockLoop n' d2 (map (rebase oldSelection currentShift) rest) in
      (d', fenceSelection currentShift newSelection :: newSelections)
  | _, _ => (d, [])
  end.

Definition insertCodeBlock (ed : Editor) : option Editor :=
  let '(d, newSelections) := codeBlockLoop (length (sels ed)) (doc ed) (sels ed) in
  Some (setSelections d newSelections).

End Old.

(** * The library edition: [src/lib/src/markdown-editor.ts] *)

(** [preferredTemplates.table]: a literal template or a default size. *)
Inductive TableOption :=
| TableTemplate (template : Line)
| TableSize (rows columns : nat).

(** The part of [MarkdownEditorOptions] the transforms read.  The options
    module itself is outside the reviewed sources, so its values are
    parameters of the embedding. *)
Record Options := mkOptions {
  bold : Line;
  italic : Line;
  unorderedList : Line;
  codeBlock : Line;
  horizontalLine : Line;
  link : Line * Line;
  imageLink : Line * Line;
  table : TableOption
}.

Module Lib.

Definition BOLD_TOKENS : list Line := [L "**"; L "__"].
Definition ITALIC_TOKENS : list Line := [L "*"; L "_"].

(** [escapeRegexChars(t)] followed by [$], resp. preceded by [^], matches
    the literal token at the end, resp. at the start, of the text (for a
    token without the characters the escaping leaves alone: parentheses,
    bar, caret and dollar).  [find] returns the first token of the list that
    matches, and the engine then tests the result for truthiness. *)
Definition findToken (matches : Line -> bool) (tokens : list Line) : option Line :=
  match List.find matches tokens with
  | Some [] => None
  | found => found
  end.

Definition found (t : option Line) : bool :=
  match t with Some _ => true | None => false end.

Definition prefixStart (prefixToken : Line) (from : Pos) : Pos :=
  mkPos (line from) (if ch from >=? len prefixToken then ch from - len prefixToken else 0).

Definition suffixEnd (suffixToken : Line) (to : Pos) (endLineLength : Z) : Pos :=
  mkPos (line to)
    (if ch to <=? endLineLength - len suffixToken then ch to + len suffixToken
     else endLineLength).

(** The adjustment of one following selection; the boolean tells whether
    the inner loop goes on to the next selection or breaks. *)
Definition adjustFollowing (from to : Pos) (before after : Z) (s : Range) : Range * bool :=
  let s1 :=
    if empty s then head_becomes_anchor s
    else
      let s0 := if line (head s) =? line from then mut Head (add_ch before) s else s in
      if line (head s0) =? line to then mut Head (add_ch after) s0 else s0 in
  let s2 := if line (anchor s1) =? line from then mut Anchor (add_ch before) s1 else s1 in
  if line (anchor s2) =? line to then (mut Anchor (add_ch after) s2, true)
  else (s2, false).

Fixpoint adjustAll (from to : Pos) (before after : Z) (ss : list Range) : list Range :=
  match ss with
  | [] => []
  | s :: rest =>
      let '(s', continue) := adjustFollowing from to before after s in
      if continue then s' :: adjustAll from to before after rest else s' :: rest
  end.

(** The adjustment of the processed selection. *)
Definition adjustProcessed (oldSelection : Range) (k : Z) : Range :=
  let newSelection := oldSelection in
  let n1 :=
    if empty oldSelection then head_becomes_anchor newSelection
    else if line (from oldSelection) =? line (to oldSelection)
         then mut (to_end newSelection) (add_ch k) newSelection
         else newSelection in
  mut (from_end n1) (add_ch k) n1.

Definition prefixToken (token : Line) (altTokens : list Line) (d : Doc) (from : Pos)
  : option Line :=
  let linePartBefore := getRange d (mkPos (line from) 0) from in
  findToken (endsWith linePartBefore) (token :: altTokens).

Definition suffixToken (token : Line) (altTokens : list Line) (d : Doc) (to : Pos)
    (endLineLength : Z) : option Line :=
  let linePartAfter := getRange d to (mkPos (line to) endLineLength) in
  findToken (startsWith linePartAfter) (token :: altTokens).

Definition suffixRequest (token : Line) (suffixToken : option Line) (d : Doc) (to : Pos)
    (endLineLength : Z) : Request :=
  match suffixToken with
  | Some t => mkRequest Suffix [] to (Some (suffixEnd t to endLineLength)) d
  | None => mkRequest Suffix token to None d
  end.

Definition prefixRequest (token : Line) (prefixToken : option Line) (d1 : Doc) (from : Pos)
  : Request :=
  match prefixToken with
  | Some t => mkRequest Prefix [] (prefixStart t from) (Some from) d1
  | None => mkRequest Prefix token from None d1
  end.

(** [beforeShift] and [afterShift]. *)
Definition shiftOf (t : option Line) : Z := if found t then -1 else 1.

(** One turn of the outer loop of [toggleInlineFormatting] on
    [oldSelection = selections[i]]: the document, the new selection, the
    selections after [i] as the inner loop leaves them, and the requests.
    Both tokens are looked for before the first request is made; the
    request after [to()] comes first. *)
Definition toggleStep (token : Line) (altTokens : list Line) (d : Doc)
    (oldSelection : Range) (following : list Range)
  : option (Doc * Range * list Range * list Request) :=
  let from := from oldSelection in
  let to := to oldSelection in
  endLine ← getLine d (line to);
  let endLineLength := len endLine in
  let prefixToken := prefixToken token altTokens d from in
  let suffixToken := suffixToken token altTokens d to endLineLength in
  let q1 := suffixRequest token suffixToken d to endLineLength in
  let q2 := prefixRequest token prefixToken (request q1) from in
  let beforeShift := shiftOf prefixToken in
  let afterShift := shiftOf suffixToken in
  Some (request q2,
        adjustProcessed oldSelection (beforeShift * len token),
        adjustAll from to (beforeShift * len token) (afterShift * len token) following,
        [q1; q2]).

(** The outer loop with [n] turns left. *)
Fixpoint toggleLoop (token : Line) (altTokens : list Line) (n : nat) (d : Doc)
    (selections : list Range) : option (Doc * list Range * list Request) :=
  match n, selections with
  | S n', oldSelection :: rest =>
      '(d', newSelection, rest', qs) ← toggleStep token altTokens d oldSelection rest;
      '(d'', newSelections, qs') ← toggleLoop token altTokens n' d' rest';
      Some (d'', newSelection :: newSelections, qs ++ qs')
  | _, _ => Some (d, [], [])
  end.

Definition toggleInlineFormattingRun (token : Line) (altTokens : list Line) (ed : Editor)
  : option (Doc * list Range * list Request) :=
  toggleLoop token altTokens (length (sels ed)) (doc ed) (sels ed).

Definition toggleInlineFormatting (token : Line) (altTokens : list Line) (ed : Editor)
  : option Editor :=
  '(d, newSelections, _) ← toggleInlineFormattingRun token altTokens ed;
  Some (setSelections d newSelections).

Definition others (preferred : Line) (tokens : list Line) : list Line :=
  List.filter (fun t => negb (line_eqb t preferred)) tokens.

Definition toggleBold (o : Options) : Editor -> option Editor :=
  toggleInlineFormatting (bold o) (others (bold o) BOLD_TOKENS).
Definition toggleItalic (o : Options) : Editor -> option Editor :=
  toggleInlineFormatting (italic o) (others (italic o) ITALIC_TOKENS).
Definition toggleStrikethrough : Editor -> option Editor :=
  toggleInlineFormatting (L "~~") [].
Definition toggleInlineCode : Editor -> option Editor :=
  toggleInlineFormatting (L "`") [].

(** The loop over the lines of one selection in [replaceTokenAtLineStart]:
    [n] turns are left, the next one on line [lineNumber]. *)
Fixpoint rewriteLines (replaceFn : ReplaceFn) (n : nat) (lineNumber fromLine toLine : Z)
    (d : Doc) (shiftFrom shiftTo : Z) : option (Doc * Z * Z) :=
  match n with
  | O => Some (d, shiftFrom, shiftTo)
  | S n' =>
      oldLineContent ← getLine d lineNumber;
      '(d1, newLineContent) ← replaceFn d oldLineContent lineNumber;
      let d2 :=
        replaceRange d1 newLineContent (mkPos lineNumber 0)
          (Some (mkPos lineNumber (len oldLineContent))) in
      let delta := len newLineContent - len oldLineContent in
      let shiftFrom' := if lineNumber =? fromLine then delta else shiftFrom in
      let shiftTo' := if lineNumber =? toLine then delta else shiftTo in
      rewriteLines replaceFn n' (lineNumber + 1) fromLine toLine d2 shiftFrom' shiftTo'
  end.

Definition adjustBoundaries (selection : Range) (shiftFrom shiftTo : Z) : Range :=
  if pos_eqb (anchor selection) (from selection) then
    let s1 := mut Anchor (add_ch shiftFrom) selection in
    if negb (empty s1) then mut Head (add_ch shiftTo) s1 else s1
  else
    let s1 := mut Anchor (add_ch shiftTo) selection in
    if negb (empty s1) then mut Head (add_ch shiftFrom) s1 else s1.

Definition replaceStep (replaceFn : ReplaceFn) (d : Doc) (selection : Range)
  : option (Doc * Range) :=
  let fromLine := line (from selection) in
  let toLine := line (to selection) in
  '(d', shiftFrom, shiftTo) ←
    rewriteLines replaceFn (Z.to_nat (toLine - fromLine + 1)) fromLine fromLine toLine d 0 0;
  Some (d', adjustBoundaries selection shiftFrom shiftTo).

Fixpoint replaceLoop (replaceFn : ReplaceFn) (d : Doc) (ss : list Range)
  : option (Doc * list Range) :=
  match ss with
  | [] => Some (d, [])
  | sel :: rest =>
      '(d', selection) ← replaceStep replaceFn d sel;
      '(d'', newSelections) ← replaceLoop replaceFn d' rest;
      Some (d'', selection :: newSelections)
  end.

Definition replaceTokenAtLineStart (replaceFn : ReplaceFn) (ed : Editor) : option Editor :=
  '(d, newSelections) ← replaceLoop replaceFn (doc ed) (sels ed);
  Some (setSelections d newSelections).

Definition headingToken (level : nat) : Line :=
  repeatChar "#"%char level ++ (if (level =? 0)%nat then [] else L " ").

Definition headingFn (level : nat) : ReplaceFn :=
  fun d oldLineContent _ =>
    Some (d, replaceMatch (Some (headingMatch oldLineContent)) (headingToken level) oldLineContent).

Definition setHeadingLevel (level : nat) : Editor -> option Editor :=
  replaceTokenAtLineStart (headingFn level).

Definition quoteFn : ReplaceFn :=
  fun d oldLineContent _ =>
    Some (d, match quoteMatch oldLineContent with
             | None => L "> " ++ oldLineContent
             | Some k => replaceMatch (Some k) [] oldLineContent
             end).

Definition toggleQuote : Editor -> option Editor := replaceTokenAtLineStart quoteFn.

Definition unorderedFn (o : Options) : ReplaceFn :=
  let preferred := unorderedList o ++ L " " in
  fun d oldLineContent _ =>
    Some (d, match unorderedMatch oldLineContent with
             | None =>
                 match orderedMatch oldLineContent with
                 | None => preferred ++ oldLineContent
                 | Some k => replaceMatch (Some k) preferred oldLineContent
                 end
             | Some k => replaceMatch (Some k) [] oldLineContent
             end).

Definition toggleUnorderedList (o : Options) : Editor -> option Editor :=
  replaceTokenAtLineStart (unorderedFn o).

(** The [while] loop of [processNextLinesOfOrderedList]; it runs out of
    [fuel] with [None]. *)
Fixpoint processNextLoop (fuel : nat) (d : Doc) (listNumber : N) (nextLineNumber : Z)
  : option Doc :=
  match getLine d nextLineNumber with
  | Some nextLine =>
      if negb (bool_decide (nextLine = [])) && bool_decide (is_Some (orderedMatch nextLine))
      then
        match fuel with
        | O => None
        | S fuel' =>
            let listNumber' := increment listNumber in
            let d' :=
              replaceRange d (showNumber listNumber') (mkPos nextLineNumber 0)
                (Some (mkPos nextLineNumber (Z.of_nat (dotPos nextLine)))) in
            processNextLoop fuel' d' listNumber' (nextLineNumber + 1)
        end
      else Some d
  | None => Some d
  end.

Definition processNextLinesOfOrderedList (d : Doc) (baseLineNumber : Z) (baseListNumber : N)
  : option Doc :=
  processNextLoop (length d) d baseListNumber (baseLineNumber + 1).

Definition orderedFn : ReplaceFn :=
  fun d oldLineContent lineNumber =>
    match orderedMatch oldLineContent with
    | None =>
        let listNumber :=
          match getLine d (lineNumber - 1) with
          | Some prevLine =>
              if bool_decide (prevLine = []) || negb (bool_decide (is_Some (orderedMatch prevLine)))
              then 1%N
              else increment (parseNumber (take (dotPos prevLine) prevLine))
          | None => 1%N
          end in
        d' ← processNextLinesOfOrderedList d lineNumber listNumber;
        let numberToken := showNumber listNumber ++ L ". " in
        Some (d', match unorderedMatch oldLineContent with
                  | None => numberToken ++ oldLineContent
                  | Some k => replaceMatch (Some k) numberToken oldLineContent
                  end)
    | Some k =>
        d' ← processNextLinesOfOrderedList d lineNumber 0;
        Some (d', replaceMatch (Some k) [] oldLineContent)
    end.

Definition toggleOrderedList : Editor -> option Editor :=
  replaceTokenAtLineStart orderedFn.

(** The adjustment [insertCodeBlock] makes to one following selection. *)
Definition rebase (oldSelection : Range) (currentShift : Z) (s : Range) : Range :=
  let remainderIndex := ch (to oldSelection) in
  let s1 :=
    if line (from s) =? line (to oldSelection)
    then mut (from_end s) (add_ch (- remainderIndex)) s else s in
  let s2 :=
    if line (to s1) =? line (to oldSelection)
    then mut (to_end s1) (add_ch (- remainderIndex)) s1 else s1 in
  let s3 := if negb (empty s2) then mut (to_end s2) (add_line currentShift) s2 else s2 in
  mut (from_end s3) (add_line currentShift) s3.

(** The adjustment of the processed selection itself. *)
Definition fenceSelection (currentShift : Z) (newSelection : Range) : Range :=
  let offset :=
    if line (from newSelection) =? line (to newSelection)
    then ch (from newSelection) else 0 in
  let n1 :=
    if negb (empty newSelection) then
      let n0 := mut (to_end newSelection) (add_line (currentShift - 2)) newSelection in
      mut (to_end n0) (add_ch (- offset)) n0
    else anchor_becomes_head newSelection in
  let n2 := mut (from_end n1) (add_line (currentShift - 2)) n1 in
  mut (from_end n2) (set_ch 0) n2.

(** The loop of [insertCodeBlock] with [n] turns left; [selections] holds
    the selections not yet processed, already rebased by the earlier turns. *)
Fixpoint codeBlockLoop (preferredToken : Line) (n : nat) (d : Doc) (selections : list Range)
  : Doc * list Range :=
  match n, selections with
  | S n', oldSelection :: rest =>
      let newSelection := oldSelection in
      let atLineStart := negb (ch (from newSelection) >? 0) in
      let currentShift := if atLineStart then 3 else 4 in
      let startToken :=
        if atLineStart then preferredToken ++ [LF] else LF :: preferredToken ++ [LF] in
      let d1 := replaceRange d (LF :: preferredToken ++ [LF]) (to newSelection) None in
      let d2 := replaceRange d1 startToken (from newSelection) None in
      let '(d', newSelections) :=
        codeBlockLoop preferredToken n' d2 (map (rebase oldSelection currentShift) rest) in
      (d', fenceSelection currentShift newSelection :: newSelections)
  | _, _ => (d, [])
  end.

Definition insertCodeBlock (o : Options) (ed : Editor) : option Editor :=
  let '(d, newSelections) := codeBlockLoop (codeBlock o) (length (sels ed)) (doc ed) (sels ed) in
  Some (setSelections d newSelections).

(** The adjustment of one following selection in [insertInlineTemplate]. *)
Definition templateFollowing (oldSelection : Range) (before after : Line) (s : Range)
  : Range * bool :=
  let s1 :=
    if empty s then head_becomes_anchor s
    else
      let s0 :=
        if line (head s) =? line (from oldSelection) then mut Head (add_ch (len before)) s
        else s in
      if line (head s0) =? line (to oldSelection) then mut Head (add_ch (len after)) s0
      else s0 in
  let s2 :=
    if line (anchor s1) =? line (from oldSelection) then mut Anchor (add_ch (len before)) s1
    else s1 in
  if line (anchor s2) =? line (to oldSelection) then (mut Anchor (add_ch (len after)) s2, true)
  else (s2, false).

Fixpoint templateAll (oldSelection : Range) (before after : Line) (ss : list Range)
  : list Range :=
  match ss with
  | [] => []
  | s :: rest =>
      let '(s', continue) := templateFollowing oldSelection before after s in
      if continue then s' :: templateAll oldSelection before after rest else s' :: rest
  end.

Definition templateProcessed (newSelection : Range) (before : Line) : Range :=
  let n1 :=
    if empty newSelection then head_becomes_anchor newSelection
    else mut (to_end newSelection) (add_ch (len before)) newSelection in
  mut (from_end n1) (add_ch (len before)) n1.

Fixpoint templateLoop (before after : Line) (n : nat) (d : Doc) (selections : list Range)
  : Doc * list Range :=
  match n, selections with
  | S n', oldSelection :: rest =>
      let newSelection := oldSelection in
      let d1 := replaceRange d after (to newSelection) None in
      let d2 := replaceRange d1 before (from newSelection) None in
      let '(d', newSelections) :=
        templateLoop before after n' d2 (templateAll oldSelection before after rest) in
      (d', templateProcessed newSelection before :: newSelections)
  | _, _ => (d, [])
  end.

Definition insertInlineTemplate (before after : Line) (ed : Editor) : option Editor :=
  let '(d, newSelections) := templateLoop before after (length (sels ed)) (doc ed) (sels ed) in
  Some (setSelections d newSelections).

Definition insertLink (o : Options) : Editor -> option Editor :=
  insertInlineTemplate (fst (link o)) (snd (link o)).
Definition insertImageLink (o : Options) : Editor -> option Editor :=
  insertInlineTemplate (fst (imageLink o)) (snd (imageLink o)).

(** [template.match(/\n/g)?.length || 0]. *)
Definition countLF (s : Line) : Z := len (List.filter (fun c => Ascii.eqb c LF) s).

(** One insertion made by [insertBlockTemplateBelow]: the template as it
    was inserted and the position it was inserted at. *)
Record Insertion := mkInsertion { inserted : Line; at_pos : Pos }.

(** The loop of [insertBlockTemplateBelow] (with the default line
    separator).  The variable [template] and the running [currentShift]
    are carried from one turn to the next. *)
Fixpoint blockLoop (template : Line) (currentShift : Z) (d : Doc) (selections : list Range)
  : option (Doc * list Insertion) :=
  match selections with
  | [] => Some (d, [])
  | oldSelection :: rest =>
      let newSelection := oldSelection in
      let n1 :=
        if empty newSelection then head_becomes_anchor newSelection
        else mut (to_end newSelection) (add_line currentShift) newSelection in
      let n2 := mut (from_end n1) (add_line currentShift) n1 in
      let toLineNumber := line (to n2) in
      toLine ← getLine d toLineNumber;
      let toLineLength := len toLine in
      let toLineEnd := mkPos toLineNumber toLineLength in
      let template' := if toLineLength >? 0 then LF :: template else template in
      let currentShift' := currentShift + countLF template' in
      let d' := replaceRange d template' toLineEnd None in
      '(d'', ins) ← blockLoop template' currentShift' d' rest;
      Some (d'', mkInsertion template' toLineEnd :: ins)
  end.

(** The operation leaves the selections to the buffer; the embedding keeps
    the document and the insertions made. *)
Definition insertBlockTemplateBelow (template : Line) (ed : Editor)
  : option (Doc * list Insertion) :=
  blockLoop template 0 (doc ed) (sels ed).

Definition insertHorizontalLine (o : Options) : Editor -> option (Doc * list Insertion) :=
  insertBlockTemplateBelow (LF :: horizontalLine o ++ [LF; LF]).

(** The rows of the table template: [n] cells of the given text. *)
Fixpoint headerCells (n : nat) (c : N) : Line :=
  match n with
  | O => []
  | S n' => L "| Column " ++ showN c ++ L " " ++ headerCells n' (N.succ c)
  end.

Fixpoint cells (cell : Line) (n : nat) : Line :=
  match n with
  | O => []
  | S n' => cell ++ cells cell n'
  end.

Fixpoint contentRows (rows columns : nat) : Line :=
  match rows with
  | O => []
  | S r => cells (L "| Content  ") columns ++ L "|" ++ [LF] ++ contentRows r columns
  end.

Definition tableTemplate (rows columns : nat) : Line :=
  [LF] ++ headerCells columns 1 ++ L "|" ++ [LF]
    ++ cells (L "| -------- ") columns ++ L "|" ++ [LF]
    ++ contentRows rows columns ++ [LF].

(** A missing argument and the number 0 both select the default. *)
Definition orDefault (x : option nat) (dflt : nat) : nat :=
  match x with
  | Some (S n) => S n
  | _ => dflt
  end.

Definition insertTable (o : Options) (rows columns : option nat) (ed : Editor)
  : option (Doc * list Insertion) :=
  match table o with
  | TableTemplate t => insertBlockTemplateBelow t ed
  | TableSize r c =>
      insertBlockTemplateBelow (tableTemplate (orDefault rows r) (orDefault columns c)) ed
  end.

(** The developer interface to the content ([setContent] with the default
    line separator). *)
Definition getContent (lineSeparator : option Line) (ed : Editor) : Line :=
  getValue (Some (default [LF] lineSeparator)) (doc ed).

Definition getContentPerLine (ed : Editor) : Doc := splitLines (getValue None (doc ed)).

Definition setContent (content : Line) : Editor := setValue content.

Definition setContentPerLine (content : Doc) : Editor := setValue (joinWith [LF] content).

(** [getValue().replace(RegExp('\n', 'gi'), '').length]. *)
Definition getCharacterCount (ed : Editor) : Z :=
  len (List.filter (fun c => negb (Ascii.eqb c LF)) (getValue None (doc ed))).

(** [getWordCount].  The class [\s] holds, of the characters of the
    embedding, the tab, the line feed, the vertical tab, the form feed, the
    carriage return, the space and the no-break space. *)
Definition isSpace (c : ascii) : bool :=
  let n := nat_of_ascii c in
  ((9 <=? n)%nat && (n <=? 13)%nat) || (n =? 32)%nat || (n =? 160)%nat.

(** The first replacement of [getWordCount], by a global pattern of two
    alternatives: the run of [\s] at the start of the text and the run of
    [\s] at its end; both runs go. *)
Definition trimStart (s : Line) : Line := drop (spanLen isSpace s) s.

Fixpoint trimEnd (s : Line) : Line :=
  match s with
  | [] => []
  | c :: r =>
      match trimEnd r with
      | [] => if isSpace c then [] else [c]
      | r' => c :: r'
      end
  end.

(** [s.replace(/[ ]{2,}/gi, ' ')]: a space goes when a space follows. *)
Fixpoint squeeze (s : Line) : Line :=
  match s with
  | [] => []
  | c :: r =>
      if Ascii.eqb c " "%char && startsWith r [" "%char] then squeeze r else c :: squeeze r
  end.

(** [s.split(sep)] for a separator of one character. *)
Fixpoint splitOn (sep : ascii) (s : Line) : Doc :=
  match s with
  | [] => [[]]
  | c :: r =>
      if Ascii.eqb c sep then [] :: splitOn sep r
      else match splitOn sep r with
           | x :: xs => (c :: x) :: xs
           | [] => [[c]]
           end
  end.

Definition getWordCount (ed : Editor) : Z :=
  let content := getValue None (doc ed) in
  let s1 := trimEnd (trimStart content) in
  let s2 := map (fun c => if Ascii.eqb c "009"%char then " "%char else c) s1 in
  let s3 := map (fun c => if Ascii.eqb c LF then " "%char else c) s2 in
  let s4 := squeeze s3 in
  Z.of_nat (length (splitOn " "%char s4)).

(** [escapeRegexChars(s)]: every backslash is doubled, then each reserved
    character in turn gets a backslash in front, one pass over the text for
    each. *)
Definition reservedChars : Line := L ".*+?!{}[]".

Definition replaceChar (c : ascii) (new : Line) (s : Line) : Line :=
  flat_map (fun x => if Ascii.eqb x c then new else [x]) s.

Definition escapeRegexChars (s : Line) : Line :=
  fold_left (fun s reservedChar => replaceChar reservedChar ["\"%char; reservedChar] s)
    reservedChars (replaceChar "\"%char ["\"%char; "\"%char] s).

End Lib.

(** * The editor made from a textarea: [MarkdownEditorFromTextarea]

    Of the state of such an editor the embedding keeps the [autoSync]
    option, whether the field [saver] holds a function, and the number of
    handlers the editor has registered for the [changes] event of the
    buffer. *)

Module FromTextarea.

Record State := mkState { autoSync : bool; saver : bool; handlers : nat }.

(** The constructor merges the options it is given into the defaults and
    leaves [saver] undefined. *)
Definition construct (autoSync0 : bool) : State := mkState autoSync0 false 0.

(** [setOptions(options)]: an [autoSync] that [options] does not define
    keeps its value; [saver] is set and registered, or removed and cleared,
    when it disagrees with the option. *)
Definition setOptions (options : option bool) (s : State) : State :=
  let a := default (autoSync s) options in
  if negb (saver s) && a then mkState a true (S (handlers s))
  else if saver s && negb a then mkState a false (pred (handlers s))
  else mkState a (saver s) (handlers s).

(** A sequence of calls of [setOptions], the first call first. *)
Definition calls (cs : list (option bool)) (s : State) : State :=
  fold_left (fun s c => setOptions c s) cs s.

End FromTextarea.

(** The options that give the library edition the tokens the first edition
    has built in. *)
Definition builtinOptions : Options :=
  mkOptions (L "**") (L "*") (L "-") (L "```") (L "---")
    (L "[", L "](https://)") (L "![", L "](https://)") (TableSize 2 2).

Definition caret (l c : Z) : Range := mkRange (mkPos l c) (mkPos l c) true.
Definition span (l1 c1 l2 c2 : Z) : Range := mkRange (mkPos l1 c1) (mkPos l2 c2) false.


(** ** The specification's reading of the ordered-list rules (section 4.2)

    These definitions follow the words of the specification; the theorems
    compare the engine with them. *)

(** The forward scan: every line of the leading run of ordered-list items
    gets the next number in sequence, as the engine counts, in place of its
    numeral, the rest of the line untouched; the scan stops at the first
    other line. *)
Fixpoint renumber (n : N) (ls : Doc) : Doc :=
  match ls with
  | l :: rest =>
      if bool_decide (is_Some (orderedMatch l))
      then (showNumber (increment n) ++ drop (dotPos l) l) :: renumber (increment n) rest
      else ls
  | [] => []
  end.

(** The same scan in natural numbers: the lines of the run are numbered
    [n + 1], [n + 2], ... *)
Fixpoint numberedOn (n : N) (ls : Doc) : Doc :=
  match ls with
  | l :: rest =>
      if bool_decide (is_Some (orderedMatch l))
      then (showN (n + 1) ++ drop (dotPos l) l) :: numberedOn (n + 1) rest
      else ls
  | [] => []
  end.

(** The number the engine gives a new item below the lines [pre]: 1 unless
    the last of them is an ordered-list item, else one more than the number
    it reads from that item. *)
Definition nextNumber (pre : Doc) : N :=
  match last pre with
  | Some prev =>
      match orderedMatch prev with
      | Some _ => increment (parseNumber (take (dotPos prev) prev))
      | None => 1%N
      end
  | None => 1%N
  end.

(** The value of a decimal digit, and the natural number a run of decimal
    digits denotes, by place values. *)
Definition digitValue (c : ascii) : N := (N_of_ascii c - 48)%N.

Fixpoint decimalValue (digits : Line) : N :=
  match digits with
  | [] => 0
  | c :: rest => (digitValue c * 10 ^ N.of_nat (length rest) + decimalValue rest)%N
  end.

(** A line without its bullet marker, when it has one. *)
Definition withoutBullet (l : Line) : Line :=
  match unorderedMatch l with
  | Some k => drop k l
  | None => l
  end.

(** A line read as a run of hashes, at most one space, and a body: either
    the space is there, or the body starts with neither a hash nor a
    space. *)
Definition headingBreak (sp body : Line) : Prop :=
  sp = L " " \/
  (sp = [] /\ match body with
              | c :: _ => c <> "#"%char /\ c <> " "%char
              | [] => True
              end).

(** What the column clamping promises of a request: a prefix removal
    starts at a column that is not negative and a suffix removal ends at a
    column that is not beyond the end of its line, as the line is when the
    request is made; so neither removes more than there is between the line
    start and [from()], respectively between [to()] and the line end. *)
Definition removalClamped (q : Request) : Prop :=
  isRemoval q = true ->
  match side q with
  | Prefix =>
      exists f, rto q = Some f /\ line (rfrom q) = line f
        /\ 0 <= ch (rfrom q)
        /\ ch f - ch (rfrom q) <= Z.max 0 (ch f)
  | Suffix =>
      exists t, rto q = Some t /\ line (rfrom q) = line t
        /\ ch t <= len (lineAt (before q) (line t))
        /\ ch t - ch (rfrom q) <= Z.max 0 (len (lineAt (before q) (line t)) - ch (rfrom q))
  end.

(** A range object is well formed when its two fields, if they hold one
    object, hold one value. *)
Definition wfRange (r : Range) : Prop := shared r = true -> anchor r = head r.

(** [r'] lies on the lines of [r]. *)
Definition sameLines (r r' : Range) : Prop :=
  line (anchor r') = line (anchor r) /\ line (head r') = line (head r).

(** Ranges in increasing order that neither touch nor overlap, as
    [listSelections()] returns them. *)
Fixpoint apart (rs : list Range) : Prop :=
  match rs with
  | r :: (s :: _) as rest => cmp (to r) (from s) < 0 /\ apart rest
  | _ => True
  end.

(** Selections on lines of their own, from top to bottom: each one ends
    above the line on which the next one starts. *)
Fixpoint linesApart (rs : list Range) : Prop :=
  match rs with
  | r :: (s :: _) as rest => line (to r) < line (from s) /\ linesApart rest
  | _ => True
  end.


(** The same operation applied twice in a row. *)
Definition twice (f : Editor -> option Editor) (ed : Editor) : option Editor := f ed ≫= f.

(** A range moved by [k] columns, both ends alike. *)
Definition shiftRange (k : Z) (r : Range) : Range :=
  mkRange (add_ch k (anchor r)) (add_ch k (head r)) (shared r).

(** A range whose two fields hold one object exactly when it is a caret,
    as the library edition leaves the ranges it has adjusted. *)
Definition caretShared (r : Range) : Range := mkRange (anchor r) (head r) (empty r).

(** Both ends of a range lie on lines of the document, as the ends of
    every selection the buffer hands over do. *)
Definition validRange (d : Doc) (r : Range) : Prop :=
  (0 <= line (anchor r) < Z.of_nat (length d))
  /\ (0 <= line (head r) < Z.of_nat (length d)).


(** A position inside a line of the document, and a request whose
    positions are. *)
Definition inLine (d : Doc) (p : Pos) : Prop :=
  exists l, getLine d (line p) = Some l /\ 0 <= ch p <= len l.

Definition requestInRange (q : Request) : Prop :=
  inLine (before q) (rfrom q) /\ forall t, rto q = Some t -> inLine (before q) t.

(** A token the engine's search takes by the letter: it holds none of the
    characters with a meaning in a regular expression that
    [escapeRegexChars] leaves alone, and no line break. *)
Definition unescapedChars : Line := L "^$()|".
Definition plainChar (c : ascii) : bool :=
  negb (existsb (Ascii.eqb c) (unescapedChars ++ [CR; LF])).
Definition plainToken (t : Line) : Prop := forallb plainChar t = true.

(** A text that stands for itself as the replacement in [s.replace] and is
    inserted in one line: it holds no dollar sign and no line break. *)
Definition literalChar (c : ascii) : bool :=
  negb (Ascii.eqb c "$"%char || Ascii.eqb c CR || Ascii.eqb c LF).
Definition literalText (t : Line) : Prop := forallb literalChar t = true.

(** The selections of a list that span line [i]. *)
Definition spans (i : nat) (r : Range) : bool :=
  (line (from r) <=? Z.of_nat i) && (Z.of_nat i <=? line (to r)).

Definition coverage (ss : list Range) (i : nat) : nat := length (List.filter (spans i) ss).

(** ** Shapes of lines

    The text of a line as the line-prefix rules read it. *)

(** The first character of a line, if there is one, satisfies [p]. *)
Definition startsWithChar (p : ascii -> bool) (l : Line) : bool :=
  match l with c :: _ => p c | [] => false end.

(** A run of blanks that the text after it does not continue. *)
Definition blankRun (blanks body : Line) : Prop :=
  forallb isBlank blanks = true /\ startsWithChar isBlank body = false.

(** A line that starts with neither the quote marker nor a blank. *)
Definition unquoted (l : Line) : Prop :=
  startsWithChar (fun c => Ascii.eqb c ">"%char || isBlank c) l = false.

(** The callbacks [toggleQuote] and [toggleUnorderedList] hand to
    [replaceTokenAtLineStart], as functions of the text of the line. *)
Definition quoteLine (l : Line) : Line :=
  match quoteMatch l with
  | None => L "> " ++ l
  | Some k => replaceMatch (Some k) [] l
  end.

Definition unorderedLine (o : Options) (l : Line) : Line :=
  let preferred := unorderedList o ++ L " " in
  match unorderedMatch l with
  | None =>
      match orderedMatch l with
      | None => preferred ++ l
      | Some k => replaceMatch (Some k) preferred l
      end
  | Some k => replaceMatch (Some k) [] l
  end.

(** A line that starts with a bullet marker (a bullet and at least one
    blank), and one that starts with a number marker (digits, a dot and at
    least one blank). *)
Definition bulletItem (l : Line) : Prop :=
  exists b blanks body,
    l = b :: blanks ++ body /\ isBullet b = true /\ blanks <> [] /\ blankRun blanks body.

Definition numberedItem (l : Line) : Prop :=
  exists digits blanks body,
    l = digits ++ "."%char :: blanks ++ body
    /\ digits <> [] /\ forallb isDigit digits = true
    /\ blanks <> [] /\ blankRun blanks body.

(** One toggle of the quote marker on a line: a line that does not start
    with the marker gets the marker and a space in front; a line that starts
    with it loses the marker and the blanks after it. *)
Inductive quoteToggled : Line -> Line -> Prop :=
  | quote_put (l : Line) :
      startsWithChar (fun c => Ascii.eqb c ">"%char) l = false ->
      quoteToggled l (L "> " ++ l)
  | quote_taken (blanks body : Line) :
      blankRun blanks body ->
      quoteToggled (">"%char :: blanks ++ body) body.

(** One toggle of the bullet marker on a line: a bullet item loses its
    marker, a numbered item gets the preferred bullet in place of its number
    marker, any other line gets the preferred bullet and a space in front. *)
Inductive bulletToggled (o : Options) : Line -> Line -> Prop :=
  | bullet_taken (b : ascii) (blanks body : Line) :
      isBullet b = true -> blanks <> [] -> blankRun blanks body ->
      bulletToggled o (b :: blanks ++ body) body
  | number_replaced (digits blanks body : Line) :
      digits <> [] -> forallb isDigit digits = true ->
      blanks <> [] -> blankRun blanks body ->
      bulletToggled o (digits ++ "."%char :: blanks ++ body) (unorderedList o ++ L " " ++ body)
  | bullet_put (l : Line) :
      ~ bulletItem l -> ~ numberedItem l ->
      bulletToggled o l (unorderedList o ++ L " " ++ l).

(** One rewrite of a line by [setHeadingLevel level]: the leading run of
    hashes and the one space after it go, and [level] hashes and one space
    (nothing for level 0) come in their place. *)
Inductive headingSet (level : nat) : Line -> Line -> Prop :=
  | heading_set (hashes : nat) (sp body : Line) :
      headingBreak sp body ->
      headingSet level (repeatChar "#" hashes ++ sp ++ body)
        (repeatChar "#" level ++ (if (level =? 0)%nat then [] else L " ") ++ body).

(** [k] rewrites in a row lead from [l] to [l']. *)
Fixpoint rewrittenTimes (rewritten : Line -> Line -> Prop) (k : nat) (l l' : Line) : Prop :=
  match k with
  | O => l' = l
  | S k' => exists m, rewritten l m /\ rewrittenTimes rewritten k' m l'
  end.

(** The number [n] of a new item below the lines [pre]: 1 when there is no
    line above or the line above is no numbered item, else the number that
    item's digits denote plus 1. *)
Definition numberAfter (pre : Doc) (n : N) : Prop :=
  match last pre with
  | None => n = 1%N
  | Some prev =>
      (~ numberedItem prev /\ n = 1%N)
      \/ (exists digits blanks body,
            prev = digits ++ "."%char :: blanks ++ body
            /\ digits <> [] /\ forallb isDigit digits = true
            /\ blanks <> [] /\ blankRun blanks body
            /\ n = (decimalValue digits + 1)%N)
  end.

(** A line and its text without the bullet marker: a bullet item without
    its bullet and the blanks after it, any other line as it is. *)
Inductive unbulleted : Line -> Line -> Prop :=
  | bullet_dropped (b : ascii) (blanks body : Line) :
      isBullet b = true -> blanks <> [] -> blankRun blanks body ->
      unbulleted (b :: blanks ++ body) body
  | no_bullet (l : Line) : ~ bulletItem l -> unbulleted l l.

(** Lines numbered in sequence from [n], each without the bullet marker
    it may have had. *)
Fixpoint numberLines (n : N) (ls : Doc) : Doc :=
  match ls with
  | [] => []
  | l :: rest => (showN n ++ L ". " ++ withoutBullet l) :: numberLines (N.succ n) rest
  end.

(** ** Block templates, read on the document before the operation *)

(** The end lines of the selections go strictly down the document, from
    line [lo] on. *)
Fixpoint endLinesIncrease (lo : Z) (d0 : Doc) (ss : list Range) : Prop :=
  match ss with
  | [] => True
  | r :: rest =>
      lo <= line (to r) < Z.of_nat (length d0) /\ endLinesIncrease (line (to r) + 1) d0 rest
  end.

(** The insertions of a block template: each at the end of the end line of
    its selection, as that line was before the operation, moved down by the
    line feeds inserted so far; the text inserted is the template with one
    more line feed in front for every end line so far that was not empty. *)
Fixpoint insertionsBelow (template : Line) (shift : Z) (d0 : Doc) (ss : list Range)
  : list Lib.Insertion :=
  match ss with
  | [] => []
  | r :: rest =>
      let l := lineAt d0 (line (to r)) in
      let template' := if len l >? 0 then LF :: template else template in
      Lib.mkInsertion template' (mkPos (line (to r) + shift) (len l))
        :: insertionsBelow template' (shift + Lib.countLF template') d0 rest
  end.

(** A line that holds no line break, and the characters of a document,
    line breaks not counted. *)
Definition unbroken (l : Line) : Prop := (LF ∉ l) /\ (CR ∉ l).

Definition characters (d : Doc) : Z := foldr (fun l n => len l + n) 0 d.

(** A word: at least one character, none of them white space; and a run of
    separators: at least one character, each a space, a tab or a line
    feed. *)
Definition isWord (w : Line) : Prop :=
  w <> [] /\ forallb (fun c => negb (Lib.isSpace c)) w = true.

Definition isSeparator (c : ascii) : bool :=
  Ascii.eqb c " "%char || Ascii.eqb c "009"%char || Ascii.eqb c LF.

Definition isSeparatorRun (s : Line) : Prop :=
  s <> [] /\ forallb isSeparator s = true.

(** Words and the separator runs before them, written one after the
    other. *)
Definition spelled (rest : list (Line * Line)) : Line :=
  concat (map (fun p => fst p ++ snd p) rest).

(** The steps of [getWordCount] after the trimming: tabs and line feeds
    become spaces, and the pieces between the spaces left after squeezing
    are counted. *)
Definition tabToSpace (c : ascii) : ascii := if Ascii.eqb c "009"%char then " "%char else c.
Definition lfToSpace (c : ascii) : ascii := if Ascii.eqb c LF then " "%char else c.
Definition spaces (s : Line) : Line := map lfToSpace (map tabToSpace s).
Definition pieces (s : Line) : nat := length (Lib.splitOn " "%char (Lib.squeeze s)).

(** The text ends with a character that is no white space. *)
Fixpoint endsInWord (s : Line) : bool :=
  match s with
  | [] => false
  | [c] => negb (Lib.isSpace c)
  | _ :: r => endsInWord r
  end.

(** A character as a pattern that matches it: with a backslash in front
    when it is a backslash or a reserved character; and the text a pattern
    of such characters matches, read off by dropping the backslashes that
    escape. *)
Definition escaped (c : ascii) : Line :=
  if Ascii.eqb c "\"%char || existsb (Ascii.eqb c) Lib.reservedChars
  then ["\"%char; c] else [c].

Fixpoint unescape (s : Line) : Line :=
  match s with
  | [] => []
  | c :: r =>
      if Ascii.eqb c "\"%char then
        match r with
        | c2 :: r2 => c2 :: unescape r2
        | [] => []
        end
      else c :: unescape r
  end.

(** Line [i] is none of the two lines of a selection. *)
Definition offLines (i : nat) (r : Range) : Prop :=
  Z.of_nat i <> line (from r) /\ Z.of_nat i <> line (to r).

(** * Facts about the host buffer *)

Arguments clipPos : simpl never.
Arguments replaceRange : simpl never.
Arguments getRange : simpl never.
Arguments len : simpl never.
Arguments toNumber : simpl never.
Arguments increment : simpl never.
Arguments parseNumber : simpl never.
Arguments showNumber : simpl never.
Arguments infinity : simpl never.

(** Case analysis on every integer comparison in the goal. *)
Ltac zcases :=
  repeat match goal with
         | |- context [Z.eqb ?a ?b] => destruct (Z.eqb_spec a b); try lia
         | |- context [Z.ltb ?a ?b] => destruct (Z.ltb_spec a b); try lia
         | |- context [Z.gtb ?a ?b] => destruct (Z.gtb_spec a b); try lia
         | |- context [Z.leb ?a ?b] => destruct (Z.leb_spec a b); try lia
         | |- context [Z.geb ?a ?b] => destruct (Z.geb_spec a b); try lia
         end.


Section Buffer.

Implicit Types (d : Doc) (l : Line) (p : Pos).

Lemma len_nonneg l : 0 <= len l.
Proof. unfold len. lia. Qed.

Lemma len_app l1 l2 : len (l1 ++ l2) = len l1 + len l2.
Proof. unfold len. rewrite length_app. lia. Qed.

Lemma len_pos l : l <> [] -> 0 < len l.
Proof. destruct l; [done|]. unfold len. simpl. lia. Qed.

Lemma getLine_Some d n l :
  getLine d n = Some l <-> 0 <= n /\ d !! Z.to_nat n = Some l.
Proof.
  unfold getLine. destruct (Z.ltb_spec n 0); split.
  - done.
  - intros [? _]. lia.
  - intros H'. split; [lia | done].
  - by intros [_ ?].
Qed.

Lemma getLine_lt d n l : getLine d n = Some l -> 0 <= n < Z.of_nat (length d).
Proof.
  intros [? H]%getLine_Some. apply lookup_lt_Some in H. lia.
Qed.

Lemma getLine_is_Some d n : 0 <= n < Z.of_nat (length d) -> is_Some (getLine d n).
Proof.
  intros H. unfold getLine. destruct (Z.ltb_spec n 0); [lia|].
  apply lookup_lt_is_Some. lia.
Qed.

Lemma getLine_middle d1 l d2 :
  getLine (d1 ++ l :: d2) (Z.of_nat (length d1)) = Some l.
Proof.
  apply getLine_Some. split; [lia|].
  rewrite Nat2Z.id. by apply list_lookup_middle.
Qed.

Lemma lineAt_Some d n l : getLine d n = Some l -> lineAt d n = l.
Proof. unfold lineAt. by intros ->. Qed.

Lemma clipPos_inside d p l :
  getLine d (line p) = Some l -> 0 <= ch p <= len l -> clipPos d p = p.
Proof.
  intros H Hc. pose proof (getLine_lt _ _ _ H) as Hlt.
  unfold clipPos, lastLine. rewrite (lineAt_Some _ _ _ H).
  destruct (Z.ltb_spec (line p) 0); [lia|].
  destruct (Z.gtb_spec (line p) (Z.of_nat (length d) - 1)); [lia|].
  destruct (Z.gtb_spec (ch p) (len l)); [lia|].
  destruct (Z.ltb_spec (ch p) 0); [lia|]. done.
Qed.

(** A column beyond the end of its line is clipped to the end. *)
Lemma clipPos_beyond d n c l :
  getLine d n = Some l -> len l <= c -> clipPos d (mkPos n c) = mkPos n (len l).
Proof.
  intros H Hc. pose proof (getLine_lt _ _ _ H) as Hlt.
  unfold clipPos, lastLine. simpl. rewrite (lineAt_Some _ _ _ H).
  destruct (Z.ltb_spec n 0); [lia|].
  destruct (Z.gtb_spec n (Z.of_nat (length d) - 1)); [lia|].
  destruct (Z.gtb_spec c (len l)); [done|].
  destruct (Z.ltb_spec c 0); [pose proof (len_nonneg l); lia|].
  f_equal. lia.
Qed.

Lemma splitLines_noLF s : LF ∉ s -> splitLines s = [s].
Proof.
  induction s as [|c r IH]; intros H; simpl; [done|].
  destruct (Ascii.eqb_spec c LF) as [->|Hne].
  - exfalso. apply H. by left.
  - rewrite IH; [done|]. intros Hin. apply H. by right.
Qed.

Lemma splitLines_LF s t : LF ∉ s -> splitLines (s ++ LF :: t) = s :: splitLines t.
Proof.
  induction s as [|c r IH]; intros H; simpl.
  - done.
  - destruct (Ascii.eqb_spec c LF) as [->|Hne].
    + exfalso. apply H. by left.
    + rewrite IH; [done|]. intros Hin. apply H. by right.
Qed.

Lemma makeChange_middle d1 l d2 text a b :
  makeChange (d1 ++ l :: d2) text
    (mkPos (Z.of_nat (length d1)) a) (mkPos (Z.of_nat (length d1)) b)
  = d1 ++ glue (takeZ a l) text (dropZ b l) ++ d2.
Proof.
  unfold makeChange. simpl. rewrite (lineAt_Some _ _ _ (getLine_middle d1 l d2)).
  rewrite Nat2Z.id. rewrite take_app_length.
  replace (length d1 + 1)%nat with (length (d1 ++ [l])) by (rewrite length_app; simpl; lia).
  rewrite (cons_middle l d1 d2), (app_assoc d1 [l] d2), drop_app_length. done.
Qed.

(** Replacing a stretch of one line. *)
Lemma replaceRange_within d1 l d2 text a b :
  0 <= a <= b -> b <= len l ->
  replaceRange (d1 ++ l :: d2) text
    (mkPos (Z.of_nat (length d1)) a) (Some (mkPos (Z.of_nat (length d1)) b))
  = d1 ++ glue (takeZ a l) (splitLines text) (dropZ b l) ++ d2.
Proof.
  intros Ha Hb. unfold replaceRange.
  rewrite !(clipPos_inside _ _ l); simpl; try apply getLine_middle; try lia.
  unfold cmp. simpl. rewrite Z.sub_diag. simpl.
  destruct (Z.ltb_spec (b - a) 0); [lia|]. apply makeChange_middle.
Qed.

(** Inserting inside one line. *)
Lemma replaceRange_insert d1 l d2 text a :
  0 <= a <= len l ->
  replaceRange (d1 ++ l :: d2) text (mkPos (Z.of_nat (length d1)) a) None
  = d1 ++ glue (takeZ a l) (splitLines text) (dropZ a l) ++ d2.
Proof.
  intros Ha. unfold replaceRange.
  rewrite !(clipPos_inside _ _ l); simpl; try apply getLine_middle; try lia.
  unfold cmp. simpl. rewrite !Z.sub_diag. simpl. apply makeChange_middle.
Qed.

Lemma getRange_within d1 l d2 a b :
  0 <= a -> a <= len l -> 0 <= b -> b <= len l ->
  getRange (d1 ++ l :: d2) (mkPos (Z.of_nat (length d1)) a) (mkPos (Z.of_nat (length d1)) b)
  = dropZ a (takeZ b l).
Proof.
  intros. unfold getRange.
  rewrite !(clipPos_inside _ _ l); simpl; try apply getLine_middle; try lia.
  rewrite Z.eqb_refl. by rewrite (lineAt_Some _ _ _ (getLine_middle d1 l d2)).
Qed.

Lemma takeZ_app_len l1 l2 : takeZ (len l1) (l1 ++ l2) = l1.
Proof. unfold takeZ, len. rewrite Nat2Z.id. apply take_app_length. Qed.

Lemma dropZ_app_len l1 l2 : dropZ (len l1) (l1 ++ l2) = l2.
Proof. unfold dropZ, len. rewrite Nat2Z.id. apply drop_app_length. Qed.

Lemma takeZ_0 l : takeZ 0 l = [].
Proof. done. Qed.

Lemma dropZ_0 l : dropZ 0 l = l.
Proof. done. Qed.

Lemma takeZ_all l : takeZ (len l) l = l.
Proof. unfold takeZ, len. rewrite Nat2Z.id. apply firstn_all. Qed.

Lemma dropZ_all l : dropZ (len l) l = [].
Proof. unfold dropZ, len. rewrite Nat2Z.id. apply drop_all. Qed.

End Buffer.

(** * The two editions compared *)

Section Editions.

Lemma processNextLoop_same fuel : forall d n k,
  Old.processNextLoop fuel d n k = Lib.processNextLoop fuel d n k.
Proof.
  induction fuel as [|fuel IH]; intros d n k; simpl.
  - done.
  - destruct (getLine d k) as [nextLine|]; [|done].
    destruct (_ && _); [|done]. apply IH.
Qed.

Lemma orderedFn_same d l n : Old.orderedFn d l n = Lib.orderedFn d l n.
Proof.
  unfold Old.orderedFn, Lib.orderedFn,
    Old.processNextLinesOfOrderedList, Lib.processNextLinesOfOrderedList.
  destruct (orderedMatch l); by rewrite processNextLoop_same.
Qed.

Lemma unorderedFn_same o d l n :
  unorderedList o = L "-" -> Old.unorderedFn d l n = Lib.unorderedFn o d l n.
Proof. intros Ho. unfold Old.unorderedFn, Lib.unorderedFn. by rewrite Ho. Qed.

Lemma rewriteLines_same (f g : ReplaceFn) :
  (forall d l n, f d l n = g d l n) ->
  forall n k a b d sf st,
    Old.rewriteLines f n k a b d sf st = Lib.rewriteLines g n k a b d sf st.
Proof.
  intros Hfg. induction n as [|n IH]; intros k a b d sf st; simpl; [done|].
  destruct (getLine d k) as [old|]; simpl; [|done].
  rewrite Hfg. destruct (g d old k) as [[d1 new]|]; simpl; [|done]. apply IH.
Qed.

Lemma replaceLoop_same (f g : ReplaceFn) :
  (forall d l n, f d l n = g d l n) ->
  forall ss d, Old.replaceLoop f d ss = Lib.replaceLoop g d ss.
Proof.
  intros Hfg. induction ss as [|s ss IH]; intros d; simpl; [done|].
  unfold Old.replaceStep, Lib.replaceStep.
  rewrite (rewriteLines_same f g Hfg).
  destruct (Lib.rewriteLines _ _ _ _ _ _ _ _) as [[[d' sf] st]|]; simpl; [|done].
  by rewrite IH.
Qed.

Lemma replaceTokenAtLineStart_same (f g : ReplaceFn) :
  (forall d l n, f d l n = g d l n) ->
  forall ed, Old.replaceTokenAtLineStart f ed = Lib.replaceTokenAtLineStart g ed.
Proof.
  intros Hfg ed. unfold Old.replaceTokenAtLineStart, Lib.replaceTokenAtLineStart.
  by rewrite (replaceLoop_same f g Hfg).
Qed.

Lemma setHeadingLevel_same level ed :
  Old.setHeadingLevel level ed = Lib.setHeadingLevel level ed.
Proof. by apply replaceTokenAtLineStart_same. Qed.

Lemma toggleQuote_same ed : Old.toggleQuote ed = Lib.toggleQuote ed.
Proof. by apply replaceTokenAtLineStart_same. Qed.

Lemma toggleUnorderedList_same o ed :
  unorderedList o = L "-" ->
  Old.toggleUnorderedList ed = Lib.toggleUnorderedList o ed.
Proof. intros Ho. apply replaceTokenAtLineStart_same. intros. by apply unorderedFn_same. Qed.

Lemma toggleOrderedList_same ed : Old.toggleOrderedList ed = Lib.toggleOrderedList ed.
Proof. apply replaceTokenAtLineStart_same, orderedFn_same. Qed.

Lemma codeBlockLoop_same n : forall d ss,
  Old.codeBlockLoop n d ss = Lib.codeBlockLoop (L "```") n d ss.
Proof.
  induction n as [|n IH]; intros d ss; simpl; [done|].
  destruct ss as [|s ss]; [done|]. by rewrite IH.
Qed.

Lemma insertCodeBlock_same o ed :
  codeBlock o = L "```" -> Old.insertCodeBlock ed = Lib.insertCodeBlock o ed.
Proof.
  intros Ho. unfold Old.insertCodeBlock, Lib.insertCodeBlock.
  by rewrite codeBlockLoop_same, Ho.
Qed.

End Editions.

(** * Ordered lists *)

Section OrderedLists.

Lemma digitChar_not_LF m : (m < 10)%N -> digitChar m <> LF.
Proof.
  intros Hm Heq. apply (f_equal N_of_ascii) in Heq. unfold digitChar in Heq.
  rewrite N_ascii_embedding in Heq by lia.
  change (N_of_ascii LF) with 10%N in Heq. lia.
Qed.

Lemma showDigits_noLF fuel : forall n acc, LF ∉ acc -> LF ∉ showDigits fuel n acc.
Proof.
  induction fuel as [|fuel IH]; intros n acc Hacc; simpl; [done|].
  assert (LF ∉ digitChar (n mod 10) :: acc) as Hacc'.
  { intros [Heq|Hin]%elem_of_cons; [|done].
    symmetry in Heq. revert Heq. apply digitChar_not_LF.
    apply N.mod_lt. lia. }
  destruct (n / 10 =? 0)%N; [done|]. by apply IH.
Qed.

Lemma showN_noLF n : LF ∉ showN n.
Proof. apply showDigits_noLF. apply not_elem_of_nil. Qed.

Lemma spanLen_le p s : (spanLen p s <= length s)%nat.
Proof. induction s as [|c r IH]; simpl; [lia|]. destruct (p c); simpl; lia. Qed.

Lemma dotPos_le l : (dotPos l <= length l)%nat.
Proof. apply spanLen_le. Qed.

Lemma glue_one pre x post : glue pre [x] post = [pre ++ x ++ post].
Proof. simpl. by rewrite <- app_assoc. Qed.

Lemma noLF_app (a b : Line) : LF ∉ a -> LF ∉ b -> LF ∉ a ++ b.
Proof. intros Ha Hb [?|?]%elem_of_app; tauto. Qed.

Lemma noLF_drop k (a : Line) : LF ∉ a -> LF ∉ drop k a.
Proof.
  intros Ha Hin. apply Ha. rewrite <- (take_drop k a). apply elem_of_app. by right.
Qed.

Lemma noLF_take k (a : Line) : LF ∉ a -> LF ∉ take k a.
Proof.
  intros Ha Hin. apply Ha. rewrite <- (take_drop k a). apply elem_of_app. by left.
Qed.

Lemma showScaled_noLF (s : N) (n : nat) : LF ∉ showScaled s n.
Proof.
  unfold showScaled. destruct (n <=? 21)%nat.
  - apply noLF_app; [apply showN_noLF|].
    intros [Heq _]%elem_of_replicate. discriminate.
  - apply noLF_app; [apply noLF_take, showN_noLF|]. apply noLF_app.
    + destruct (1 <? length (showN s))%nat; [|apply not_elem_of_nil].
      intros [Heq|Hin]%elem_of_cons; [discriminate|].
      revert Hin. apply noLF_drop, showN_noLF.
    + apply noLF_app; [|apply showN_noLF].
      apply (bool_decide_unpack _). vm_compute. exact I.
Qed.

(** No number is printed with a line feed. *)
Lemma showNumber_noLF (x : N) : LF ∉ showNumber x.
Proof.
  unfold showNumber. destruct (x <? 2 ^ 53)%N; [apply showN_noLF|].
  destruct (infinity <=? x)%N; [apply (bool_decide_unpack _); vm_compute; exact I|].
  cbv zeta. destruct (toNumber _ =? x)%N; apply showScaled_noLF.
Qed.

(** Replacing a whole line by a text without line feed. *)
Lemma replaceRange_line d1 l d2 new :
  LF ∉ new ->
  replaceRange (d1 ++ l :: d2) new
    (mkPos (Z.of_nat (length d1)) 0) (Some (mkPos (Z.of_nat (length d1)) (len l)))
  = d1 ++ new :: d2.
Proof.
  intros Hnew. pose proof (len_nonneg l).
  rewrite replaceRange_within by lia.
  rewrite splitLines_noLF by done. rewrite glue_one.
  rewrite takeZ_0, dropZ_all. simpl. by rewrite app_nil_r.
Qed.

(** The loop of [processNextLinesOfOrderedList] is the forward scan, and
    the lines below the start are fuel enough. *)
Lemma processNextLoop_renumber ls : forall d1 fuel n,
  (length ls <= fuel)%nat ->
  Lib.processNextLoop fuel (d1 ++ ls) n (Z.of_nat (length d1)) = Some (d1 ++ renumber n ls).
Proof.
  induction ls as [|l rest IH]; intros d1 fuel n Hfuel.
  - assert (getLine (d1 ++ []) (Z.of_nat (length d1)) = None) as Hnone.
    { unfold getLine. destruct (Z.ltb_spec (Z.of_nat (length d1)) 0); [done|].
      apply lookup_ge_None. rewrite length_app, Nat2Z.id. simpl. lia. }
    destruct fuel; simpl; by rewrite Hnone.
  - assert (forall fuel', Lib.processNextLoop fuel' (d1 ++ l :: rest) n (Z.of_nat (length d1))
        = if bool_decide (is_Some (orderedMatch l))
          then match fuel' with
               | O => None
               | S f =>
                   Lib.processNextLoop f
                     (replaceRange (d1 ++ l :: rest) (showNumber (increment n))
                        (mkPos (Z.of_nat (length d1)) 0)
                        (Some (mkPos (Z.of_nat (length d1)) (Z.of_nat (dotPos l)))))
                     (increment n) (Z.of_nat (length d1) + 1)
               end
          else Some (d1 ++ l :: rest)) as Hstep.
    { intros fuel'. destruct fuel'; simpl; rewrite getLine_middle;
        destruct l; try done; by destruct (bool_decide _). }
    rewrite Hstep. simpl. destruct (bool_decide (is_Some (orderedMatch l))); [|done].
    destruct fuel as [|fuel]; [simpl in Hfuel; lia|].
    pose proof (dotPos_le l).
    rewrite replaceRange_within by (unfold len; lia).
    rewrite splitLines_noLF by apply showNumber_noLF. rewrite glue_one, takeZ_0. simpl.
    unfold dropZ. rewrite Nat2Z.id.
    specialize (IH (d1 ++ [showNumber (increment n) ++ drop (dotPos l) l]) fuel (increment n)).
    rewrite length_app in IH. simpl in IH.
    replace (Z.of_nat (length d1 + 1)) with (Z.of_nat (length d1) + 1) in IH by lia.
    rewrite <- !app_assoc in IH. simpl in IH. rewrite IH; [done|]. simpl in Hfuel. lia.
Qed.

Lemma processNext_renumber pre l ls n :
  Lib.processNextLinesOfOrderedList (pre ++ l :: ls) (Z.of_nat (length pre)) n
  = Some (pre ++ l :: renumber n ls).
Proof.
  unfold Lib.processNextLinesOfOrderedList.
  replace (Z.of_nat (length pre) + 1) with (Z.of_nat (length (pre ++ [l])))
    by (rewrite length_app; simpl; lia).
  assert (pre ++ l :: ls = (pre ++ [l]) ++ ls) as Hd by (by rewrite <- app_assoc).
  rewrite Hd, processNextLoop_renumber.
  - by rewrite <- app_assoc.
  - rewrite length_app. lia.
Qed.

Lemma getLine_before pre l ls :
  getLine (pre ++ l :: ls) (Z.of_nat (length pre) - 1) = last pre.
Proof.
  destruct pre as [|p pre _] using rev_ind.
  - done.
  - rewrite last_snoc, length_app. simpl.
    replace (Z.of_nat (length pre + 1) - 1) with (Z.of_nat (length pre)) by lia.
    rewrite <- app_assoc. simpl. apply getLine_middle.
Qed.

(** One turn of the line loop on a line the rewrite leaves in place. *)
Lemma rewriteLines_one (f : ReplaceFn) pre l ls ls' new a b sf st :
  f (pre ++ l :: ls) l (Z.of_nat (length pre)) = Some (pre ++ l :: ls', new) ->
  LF ∉ new ->
  exists sf' st',
    Lib.rewriteLines f 1 (Z.of_nat (length pre)) a b (pre ++ l :: ls) sf st
    = Some (pre ++ new :: ls', sf', st').
Proof.
  intros Hf Hnew. simpl. rewrite getLine_middle. simpl. rewrite Hf. simpl.
  rewrite replaceRange_line by done. eauto.
Qed.

(** A single selection inside one line: only the rewrite of that line
    decides the document. *)
Lemma replaceToken_single_line (f : ReplaceFn) pre l ls ls' new r :
  line (from r) = Z.of_nat (length pre) ->
  line (to r) = Z.of_nat (length pre) ->
  f (pre ++ l :: ls) l (Z.of_nat (length pre)) = Some (pre ++ l :: ls', new) ->
  LF ∉ new ->
  doc <$> Lib.replaceTokenAtLineStart f (mkEditor (pre ++ l :: ls) [r])
  = Some (pre ++ new :: ls').
Proof.
  intros Hfrom Hto Hf Hnew.
  unfold Lib.replaceTokenAtLineStart. simpl. unfold Lib.replaceStep.
  rewrite Hfrom, Hto.
  replace (Z.to_nat (Z.of_nat (length pre) - Z.of_nat (length pre) + 1)) with 1%nat by lia.
  destruct (rewriteLines_one f pre l ls ls' new
              (Z.of_nat (length pre)) (Z.of_nat (length pre)) 0 0 Hf Hnew)
    as (sf' & st' & ->).
  done.
Qed.

Lemma orderedFn_off pre l ls k :
  orderedMatch l = Some k ->
  Lib.orderedFn (pre ++ l :: ls) l (Z.of_nat (length pre))
  = Some (pre ++ l :: renumber 0 ls, drop k l).
Proof.
  intros Hk. unfold Lib.orderedFn. rewrite Hk, processNext_renumber. done.
Qed.

Lemma orderedFn_on pre l ls :
  orderedMatch l = None ->
  Lib.orderedFn (pre ++ l :: ls) l (Z.of_nat (length pre))
  = Some (pre ++ l :: renumber (nextNumber pre) ls,
          showNumber (nextNumber pre) ++ L ". " ++ withoutBullet l).
Proof.
  intros Hk. unfold Lib.orderedFn. rewrite Hk, getLine_before.
  assert (match last pre with
          | Some prevLine =>
              if bool_decide (prevLine = []) || negb (bool_decide (is_Some (orderedMatch prevLine)))
              then 1%N
              else increment (parseNumber (take (dotPos prevLine) prevLine))
          | None => 1%N
          end = nextNumber pre) as ->.
  { unfold nextNumber. destruct (last pre) as [prev|]; [|done].
    destruct prev as [|c prev]; [done|].
    destruct (orderedMatch (c :: prev)) as [m|] eqn:E.
    - rewrite (bool_decide_eq_false_2 (c :: prev = [])) by done.
      rewrite (bool_decide_eq_true_2 (is_Some (Some m))) by eauto. done.
    - rewrite (bool_decide_eq_false_2 (is_Some None)) by (by intros [? ?]).
      by rewrite orb_true_r.
  }
  rewrite processNext_renumber. simpl. unfold withoutBullet, replaceMatch.
  destruct (unorderedMatch l); by rewrite <- ?app_assoc.
Qed.

End OrderedLists.

(** Closed side conditions: a concrete line holds no line feed. *)
Ltac noLF := apply (bool_decide_unpack _); vm_compute; exact I.

(** C2, as the specification states it, fails on its own example: toggling
    the first of the lines "3. a", "4. b", "5. c" yields "a", "1. b", "2. c",
    not "a", "3. b", "4. c". *)
Lemma ordered_off_example_refuted :
  doc <$> Lib.toggleOrderedList (mkEditor [L "3. a"; L "4. b"; L "5. c"] [caret 0 0])
    = Some [L "a"; L "1. b"; L "2. c"]
  /\ doc <$> Lib.toggleOrderedList (mkEditor [L "3. a"; L "4. b"; L "5. c"] [caret 0 0])
    <> Some [L "a"; L "3. b"; L "4. c"].
Proof. split; [by vm_compute | vm_compute; discriminate]. Qed.

(** C2 (amended): for a line that starts with an ordered-list marker,
    [toggleOrderedList] with a selection on that line strips the marker
    and renumbers the immediately following contiguous ordered-list lines
    1, 2, 3, ... (the list restarts below the toggled line), all other
    lines unchanged; in both editions. *)
Theorem ordered_off_restarts_numbering (pre : Doc) (l : Line) (ls : Doc) (r : Range) (k : nat) :
  LF ∉ l ->
  orderedMatch l = Some k ->
  line (from r) = Z.of_nat (length pre) ->
  line (to r) = Z.of_nat (length pre) ->
  doc <$> Lib.toggleOrderedList (mkEditor (pre ++ l :: ls) [r])
    = Some (pre ++ drop k l :: renumber 0 ls)
  /\ doc <$> Old.toggleOrderedList (mkEditor (pre ++ l :: ls) [r])
    = Some (pre ++ drop k l :: renumber 0 ls).
Proof.
  intros Hl Hk Hfrom Hto.
  assert (doc <$> Lib.toggleOrderedList (mkEditor (pre ++ l :: ls) [r])
          = Some (pre ++ drop k l :: renumber 0 ls)) as H;
    [|split; [done | by rewrite toggleOrderedList_same]].
  apply replaceToken_single_line; try done.
  - by apply orderedFn_off.
  - by apply noLF_drop.
Qed.

Lemma ordered_off_restarts_numbering_witness :
  doc <$> Lib.toggleOrderedList (mkEditor ([] ++ L "3. a" :: [L "4. b"; L "5. c"; L "x"; L "9. d"]) [caret 0 0])
    = Some ([] ++ drop 3 (L "3. a") :: renumber 0 [L "4. b"; L "5. c"; L "x"; L "9. d"])
  /\ doc <$> Old.toggleOrderedList (mkEditor ([] ++ L "3. a" :: [L "4. b"; L "5. c"; L "x"; L "9. d"]) [caret 0 0])
    = Some ([] ++ drop 3 (L "3. a") :: renumber 0 [L "4. b"; L "5. c"; L "x"; L "9. d"]).
Proof.
  apply (ordered_off_restarts_numbering [] (L "3. a") [L "4. b"; L "5. c"; L "x"; L "9. d"]
           (caret 0 0) 3); [noLF | reflexivity | reflexivity | reflexivity].
Defined.

Example renumber_restart :
  renumber 0 [L "4. b"; L "5. c"; L "x"; L "9. d"] = [L "1. b"; L "2. c"; L "x"; L "9. d"].
Proof. reflexivity. Qed.

(** * Line-prefix rewrites without side effect *)

Lemma validRange_ends (d : Doc) (r : Range) :
  validRange d r ->
  (0 <= line (from r) < Z.of_nat (length d)) /\ (0 <= line (to r) < Z.of_nat (length d)).
Proof.
  intros [Ha Hh]. unfold from, to, from_end, to_end.
  destruct (cmp (anchor r) (head r) <? 0), (cmp (anchor r) (head r) >? 0); done.
Qed.

Lemma lookup_rewritten (g : Line -> Line) (d : Doc) (a n i : nat) :
  (take a d ++ map g (take n (drop a d)) ++ drop (a + n) d) !! i
  = (if bool_decide (a <= i < a + n)%nat then g else id) <$> d !! i.
Proof.
  destruct (decide (i < a)%nat) as [Hlt|Hge].
  - destruct (decide (a <= length d)%nat).
    + rewrite lookup_app_l by (rewrite length_take; lia).
      rewrite lookup_take_lt by done.
      rewrite bool_decide_eq_false_2 by lia. by destruct (d !! i).
    + rewrite take_ge by lia. rewrite drop_ge by lia. simpl.
      rewrite (drop_ge d) by lia. rewrite take_nil. simpl. rewrite !app_nil_r.
      rewrite bool_decide_eq_false_2 by lia. by destruct (d !! i).
  - destruct (decide (length d <= i)%nat) as [Hout|Hin].
    + rewrite (lookup_ge_None_2 d i) by done. simpl.
      apply lookup_ge_None_2.
      rewrite !length_app, length_map, !length_take, !length_drop. lia.
    + rewrite lookup_app_r by (rewrite length_take; lia).
      rewrite length_take. replace (a `min` length d)%nat with a by lia.
      destruct (decide (i < a + n)%nat) as [Hmid|Hpost].
      * rewrite lookup_app_l
          by (rewrite length_map, length_take, length_drop; lia).
        rewrite list_lookup_fmap, lookup_take_lt, lookup_drop by lia.
        replace (a + (i - a))%nat with i by lia.
        rewrite bool_decide_eq_true_2 by lia. done.
      * rewrite lookup_app_r
          by (rewrite length_map, length_take, length_drop; lia).
        rewrite length_map, length_take, length_drop, lookup_drop.
        replace (a + n + (i - a - n `min` (length d - a)))%nat with i by lia.
        rewrite bool_decide_eq_false_2 by lia. by destruct (d !! i).
Qed.

Section PureRewrites.

Variable g : Line -> Line.
Variable f : ReplaceFn.
Hypothesis f_pure : forall d l n, f d l n = Some (d, g l).

Lemma rewriteLines_pure mid : forall d1 d2 a b sf st,
  Forall (fun l => LF ∉ g l) mid ->
  exists sf' st',
    Lib.rewriteLines f (length mid) (Z.of_nat (length d1)) a b (d1 ++ mid ++ d2) sf st
    = Some (d1 ++ map g mid ++ d2, sf', st').
Proof.
  induction mid as [|l mid IH]; intros d1 d2 a b sf st Hg.
  - simpl. eauto.
  - apply Forall_cons in Hg as [Hl Hmid]. simpl.
    rewrite getLine_middle. simpl. rewrite f_pure. simpl.
    rewrite replaceRange_line by done.
    specialize (IH (d1 ++ [g l]) d2 a b
      (if Z.of_nat (length d1) =? a then len (g l) - len l else sf)
      (if Z.of_nat (length d1) =? b then len (g l) - len l else st) Hmid).
    rewrite length_app in IH. simpl in IH.
    replace (Z.of_nat (length d1 + 1)) with (Z.of_nat (length d1) + 1) in IH by lia.
    rewrite <- !app_assoc in IH. simpl in IH. exact IH.
Qed.

Lemma from_line_le_to (r : Range) : line (from r) <= line (to r).
Proof.
  unfold from, to, from_end, to_end, cmp.
  destruct (Z.eqb_spec (line (anchor r) - line (head r)) 0);
    repeat match goal with
           | |- context [?a <? ?b] => destruct (Z.ltb_spec a b)
           | |- context [?a >? ?b] => destruct (Z.gtb_spec a b)
           end; simpl; lia.
Qed.

Hypothesis g_noLF : forall l, LF ∉ l -> LF ∉ g l.

Lemma iter_shift (n : nat) (l : Line) : Nat.iter n g (g l) = g (Nat.iter n g l).
Proof. induction n as [|n IH]; simpl; [done|]. by rewrite IH. Qed.

(** One selection: the document after its turn. *)
Lemma replaceStep_pure (d : Doc) (r : Range) :
  Forall (fun l => LF ∉ l) d ->
  validRange d r ->
  exists d' r',
    Lib.replaceStep f d r = Some (d', r')
    /\ length d' = length d
    /\ Forall (fun l => LF ∉ l) d'
    /\ forall i, d' !! i = (if spans i r then g else id) <$> d !! i.
Proof.
  intros Hd [Hfrom Hto]%validRange_ends. pose proof (from_line_le_to r) as Hle.
  set (a := Z.to_nat (line (from r))).
  set (n := Z.to_nat (line (to r) - line (from r) + 1)).
  assert (d = take a d ++ take n (drop a d) ++ drop (a + n) d) as Hsplit.
  { rewrite <- drop_drop, take_drop, take_drop. done. }
  assert (length (take n (drop a d)) = n) as Hn.
  { rewrite length_take, length_drop. unfold a, n. lia. }
  assert (Z.of_nat (length (take a d)) = line (from r)) as Ha.
  { rewrite length_take. unfold a. lia. }
  destruct (rewriteLines_pure (take n (drop a d)) (take a d) (drop (a + n) d)
              (line (from r)) (line (to r)) 0 0) as (sf' & st' & Hrun).
  { apply Forall_take, Forall_drop. eapply Forall_impl; [exact Hd|]. apply g_noLF. }
  rewrite Hn, Ha, <- Hsplit in Hrun.
  unfold Lib.replaceStep. fold n. rewrite Hrun. cbn [mbind option_bind].
  eexists _, _. split; [done|]. split; [|split].
  - rewrite !length_app, length_map, !length_take, !length_drop. lia.
  - apply Forall_app. split; [by apply Forall_take|].
    apply Forall_app. split; [|by apply Forall_drop].
    apply Forall_fmap. apply Forall_take, Forall_drop.
    eapply Forall_impl; [exact Hd|]. apply g_noLF.
  - intros i. rewrite lookup_rewritten. unfold spans.
    destruct (decide (a <= i < a + n)%nat) as [Hin|Hout].
    + rewrite bool_decide_eq_true_2 by done.
      destruct (Z.leb_spec (line (from r)) (Z.of_nat i)); [|unfold a, n in *; lia].
      destruct (Z.leb_spec (Z.of_nat i) (line (to r))); [done | unfold a, n in *; lia].
    + rewrite bool_decide_eq_false_2 by done.
      destruct (Z.leb_spec (line (from r)) (Z.of_nat i)); [|done].
      destruct (Z.leb_spec (Z.of_nat i) (line (to r))); [unfold a, n in *; lia | done].
Qed.

(** Every selection of the list in turn: a line is rewritten once for
    every selection that spans it. *)
Lemma replaceLoop_pure (ss : list Range) : forall d,
  Forall (fun l => LF ∉ l) d ->
  Forall (validRange d) ss ->
  exists d' rs,
    Lib.replaceLoop f d ss = Some (d', rs)
    /\ length d' = length d
    /\ forall i, d' !! i = Nat.iter (coverage ss i) g <$> d !! i.
Proof.
  induction ss as [|s ss IH]; intros d Hd Hvalid.
  - exists d, []. split; [done|]. split; [done|]. intros i. simpl. by destruct (d !! i).
  - apply Forall_cons in Hvalid as [Hs Hss].
    destruct (replaceStep_pure d s Hd Hs) as (d1 & s1 & Hstep & Hlen1 & Hd1 & Hlook1).
    destruct (IH d1 Hd1) as (d2 & rs2 & Hloop & Hlen2 & Hlook2).
    { eapply Forall_impl; [exact Hss|]. intros r. unfold validRange. by rewrite Hlen1. }
    exists d2, (s1 :: rs2). split; [|split].
    + simpl. rewrite Hstep. cbn [mbind option_bind]. rewrite Hloop. done.
    + lia.
    + intros i. rewrite Hlook2, Hlook1. unfold coverage. cbn [List.filter].
      destruct (d !! i) as [l|]; [|done]. cbn [fmap option_fmap option_map]. f_equal.
      destruct (spans i s); cbn [length]; [|done].
      cbn [Nat.iter]. apply iter_shift.
Qed.

End PureRewrites.

(** * Headings *)

Section Headings.

Lemma spanLen_replicate (p : ascii -> bool) c k rest :
  p c = true -> spanLen p (replicate k c ++ rest) = (k + spanLen p rest)%nat.
Proof. intros Hc. induction k as [|k IH]; simpl; [done|]. by rewrite Hc, IH. Qed.

Lemma headingMatch_decomposed hashes sp body :
  headingBreak sp body ->
  drop (headingMatch (repeatChar "#" hashes ++ sp ++ body)) (repeatChar "#" hashes ++ sp ++ body)
  = body.
Proof.
  intros Hbreak. unfold headingMatch, repeatChar.
  rewrite spanLen_replicate by done.
  assert (spanLen isHash (sp ++ body) = 0%nat) as ->.
  { destruct Hbreak as [->|[-> Hb]]; [done|]. simpl.
    destruct body as [|c body]; [done|]. simpl. destruct Hb as [Hh _].
    unfold isHash. by destruct (Ascii.eqb_spec c "#"). }
  rewrite Nat.add_0_r.
  assert (forall m, drop m (replicate m "#"%char ++ sp ++ body) = sp ++ body) as Hdrop.
  { intros m. rewrite drop_app_length'; [done|]. by rewrite length_replicate. }
  rewrite Hdrop.
  destruct Hbreak as [->|[-> Hb]]; simpl.
  - replace (S hashes) with (hashes + 1)%nat by lia.
    rewrite <- drop_drop, Hdrop. done.
  - destruct body as [|c body]; simpl.
    + rewrite app_nil_r. rewrite drop_ge; [done|]. by rewrite length_replicate.
    + destruct Hb as [_ Hs]. destruct (Ascii.eqb_spec c " "); [done|]. apply Hdrop.
Qed.

(** Every line reads as hashes, an optional space and a body. *)
Lemma heading_decomposition (l : Line) :
  exists hashes sp body, l = repeatChar "#" hashes ++ sp ++ body /\ headingBreak sp body.
Proof.
  induction l as [|c l IH].
  - exists 0%nat, [], []. split; [done|]. by right.
  - destruct (Ascii.eqb_spec c "#") as [->|Hh].
    + destruct IH as (h & sp & body & -> & Hb). by exists (S h), sp, body.
    + destruct (Ascii.eqb_spec c " ") as [->|Hs].
      * exists 0%nat, (L " "), l. split; [done|]. by left.
      * exists 0%nat, [], (c :: l). split; [done|]. by right.
Qed.

Lemma headingToken_noLF level : LF ∉ Lib.headingToken level.
Proof.
  unfold Lib.headingToken, repeatChar. apply noLF_app.
  - intros [H _]%elem_of_replicate. discriminate.
  - destruct (level =? 0)%nat; [apply not_elem_of_nil | noLF].
Qed.

End Headings.

Lemma iter_rewrittenTimes (rewritten : Line -> Line -> Prop) (g : Line -> Line) (k : nat) :
  (forall l, rewritten l (g l)) ->
  forall l, rewrittenTimes rewritten k l (Nat.iter k g l).
Proof.
  intros Hg. induction k as [|k IH]; intros l; [done|].
  exists (g l). split; [apply Hg|].
  change (Nat.iter (S k) g l) with (g (Nat.iter k g l)). rewrite <- iter_shift. apply IH.
Qed.

(** C7, as stated, fails for a line that two selections span: the engine
    rewrites the line once for each selection, so that with level 0 the line
    "# # x" with two carets on it loses both runs of hashes, where the rule
    of the claim leaves "# x". *)
Lemma heading_stripped_twice :
  doc <$> Lib.setHeadingLevel 0 (mkEditor [L "# # x"] [caret 0 0; caret 0 5]) = Some [L "x"]
  /\ doc <$> Lib.setHeadingLevel 0 (mkEditor [L "# # x"] [caret 0 0; caret 0 5])
     <> Some [L "# x"].
Proof. split; [vm_compute; reflexivity | vm_compute; discriminate]. Qed.

(** C7 (amended): [setHeadingLevel level] rewrites a line once for every
    selection that spans it, each time by stripping the leading run of hashes
    and the one space after it and prepending [level] hashes and one space
    (nothing for level 0).  So a line no selection spans stays as it is, and
    a line spanned by one selection, or by several when the level is not 0,
    ends as the rule of the claim says; in both editions. *)
Theorem heading_level_rewrites_lines (level : nat) (d : Doc) (ss : list Range) :
  Forall (fun l => LF ∉ l) d ->
  Forall (validRange d) ss ->
  exists d',
    doc <$> Lib.setHeadingLevel level (mkEditor d ss) = Some d'
    /\ doc <$> Old.setHeadingLevel level (mkEditor d ss) = Some d'
    /\ length d' = length d
    /\ (forall (i : nat) (l : Line),
          d !! i = Some l ->
          exists l', d' !! i = Some l'
                     /\ rewrittenTimes (headingSet level) (coverage ss i) l l')
    /\ forall (i : nat) (hashes : nat) (sp body : Line),
         d !! i = Some (repeatChar "#" hashes ++ sp ++ body) ->
         headingBreak sp body ->
         (coverage ss i = 0%nat -> d' !! i = Some (repeatChar "#" hashes ++ sp ++ body))
         /\ (coverage ss i = 1%nat \/ (0 < coverage ss i)%nat /\ level <> 0%nat ->
             d' !! i
             = Some (repeatChar "#" level ++ (if (level =? 0)%nat then [] else L " ") ++ body)).
Proof.
  intros Hd Hss.
  set (g := fun l : Line => Lib.headingToken level ++ drop (headingMatch l) l).
  destruct (replaceLoop_pure g (Lib.headingFn level) (fun _ _ _ => eq_refl)
              (fun l Hl => noLF_app _ _ (headingToken_noLF level) (noLF_drop _ _ Hl))
              ss d Hd Hss) as (d' & rs & Hloop & Hlen & Hlook).
  assert (doc <$> Lib.setHeadingLevel level (mkEditor d ss) = Some d') as Hlib.
  { unfold Lib.setHeadingLevel, Lib.replaceTokenAtLineStart. simpl. by rewrite Hloop. }
  exists d'. split; [done|]. split; [by rewrite setHeadingLevel_same|]. split; [done|].
  assert (forall hashes sp body, headingBreak sp body ->
            g (repeatChar "#" hashes ++ sp ++ body)
            = repeatChar "#" level ++ (if (level =? 0)%nat then [] else L " ") ++ body) as Hg.
  { intros hashes sp body Hbreak. unfold g. rewrite headingMatch_decomposed by done.
    unfold Lib.headingToken. by rewrite <- app_assoc. }
  split.
  { intros i l Hi. rewrite Hlook, Hi. eexists. split; [done|].
    apply iter_rewrittenTimes. intros l0.
    destruct (heading_decomposition l0) as (hashes & sp & body & -> & Hbreak).
    rewrite Hg by done. by constructor. }
  intros i hashes sp body Hi Hbreak. rewrite Hlook, Hi. simpl.
  specialize (Hg hashes sp body Hbreak).
  split.
  - by intros ->.
  - intros [-> | [Hpos Hlevel]]; [simpl; by rewrite Hg|]. f_equal.
    destruct (coverage ss i) as [|k]; [lia|]. clear Hpos.
    induction k as [|k IH]; [simpl; by rewrite Hg|].
    change (Nat.iter (S (S k)) g ?l) with (g (Nat.iter (S k) g l)). rewrite IH.
    unfold g, Lib.headingToken.
    destruct (Nat.eqb_spec level 0) as [|_]; [done|]. cbv iota.
    rewrite (headingMatch_decomposed level [" "%char] body) by (by left).
    by rewrite <- app_assoc.
Qed.

Lemma heading_level_rewrites_lines_witness :
  exists d',
    doc <$> Lib.setHeadingLevel 3 (mkEditor [L "Title"; L "## Sub"; L "text"]
                                     [span 0 2 1 1; caret 1 4]) = Some d'
    /\ doc <$> Old.setHeadingLevel 3 (mkEditor [L "Title"; L "## Sub"; L "text"]
                                        [span 0 2 1 1; caret 1 4]) = Some d'
    /\ length d' = length [L "Title"; L "## Sub"; L "text"]
    /\ (forall (i : nat) (l : Line),
          [L "Title"; L "## Sub"; L "text"] !! i = Some l ->
          exists l', d' !! i = Some l'
                     /\ rewrittenTimes (headingSet 3)
                          (coverage [span 0 2 1 1; caret 1 4] i) l l')
    /\ forall (i : nat) (hashes : nat) (sp body : Line),
         [L "Title"; L "## Sub"; L "text"] !! i = Some (repeatChar "#" hashes ++ sp ++ body) ->
         headingBreak sp body ->
         (coverage [span 0 2 1 1; caret 1 4] i = 0%nat ->
          d' !! i = Some (repeatChar "#" hashes ++ sp ++ body))
         /\ (coverage [span 0 2 1 1; caret 1 4] i = 1%nat
             \/ (0 < coverage [span 0 2 1 1; caret 1 4] i)%nat /\ 3%nat <> 0%nat ->
             d' !! i = Some (repeatChar "#" 3 ++ (if (3 =? 0)%nat then [] else L " ") ++ body)).
Proof.
  apply (heading_level_rewrites_lines 3 [L "Title"; L "## Sub"; L "text"]
           [span 0 2 1 1; caret 1 4]).
  - repeat constructor; noLF.
  - repeat constructor; vm_compute; congruence.
Defined.

(** A run of more than six hashes is stripped whole as well. *)
Example heading_long_run :
  doc <$> Lib.setHeadingLevel 1 (mkEditor [L "####### x"] [caret 0 0]) = Some [L "# x"].
Proof. reflexivity. Qed.

Example heading_two_to_zero :
  doc <$> Lib.setHeadingLevel 0 (mkEditor [L "## Title"] [caret 0 0]) = Some [L "Title"].
Proof. reflexivity. Qed.

Example heading_zero_to_three :
  doc <$> Lib.setHeadingLevel 3 (mkEditor [L "Title"] [caret 0 0]) = Some [L "### Title"].
Proof. reflexivity. Qed.

(** * Evaluating range arithmetic

    The selection bookkeeping is evaluated from the inside out: a method
    call on an explicit range is decided by a case analysis on the
    comparison it makes, so that terms never grow. *)

Section RangeEvaluation.

Lemma mut_anchor f a h : mut Anchor f (mkRange a h false) = mkRange (f a) h false.
Proof. done. Qed.

Lemma mut_head f a h : mut Head f (mkRange a h false) = mkRange a (f h) false.
Proof. done. Qed.

Lemma mut_shared e f a h :
  mut e f (mkRange a h true) = mkRange (f (get (mkRange a h true) e)) (f (get (mkRange a h true) e)) true.
Proof. done. Qed.

Lemma from_end_cases a h s :
  (cmp a h < 0 /\ from_end (mkRange a h s) = Anchor)
  \/ (0 <= cmp a h /\ from_end (mkRange a h s) = Head).
Proof.
  unfold from_end. cbn [anchor head]. destruct (Z.ltb_spec (cmp a h) 0); [left | right]; done.
Qed.

Lemma to_end_cases a h s :
  (0 <= cmp a h /\ to_end (mkRange a h s) = Anchor)
  \/ (cmp a h < 0 /\ to_end (mkRange a h s) = Head).
Proof.
  unfold to_end. cbn [anchor head].
  destruct (Z.ltb_spec (cmp a h) 0); [right | left]; split; done || lia.
Qed.

Lemma cmp_cases l1 c1 l2 c2 :
  (l1 = l2 /\ cmp (mkPos l1 c1) (mkPos l2 c2) = c1 - c2)
  \/ (l1 <> l2 /\ cmp (mkPos l1 c1) (mkPos l2 c2) = l1 - l2).
Proof.
  unfold cmp. cbn [line ch]. destruct (Z.eqb_spec (l1 - l2) 0); [left | right]; split; done || lia.
Qed.

Lemma empty_cases a h s :
  (a = h /\ empty (mkRange a h s) = true) \/ (a <> h /\ empty (mkRange a h s) = false).
Proof.
  unfold empty, pos_eqb. cbn [anchor head]. destruct a as [l1 c1], h as [l2 c2]. cbn [line ch].
  destruct (Z.eqb_spec l1 l2); destruct (Z.eqb_spec c1 c2); simpl;
    [left | right | right | right]; split; congruence.
Qed.

Lemma ends_cases (r : Range) :
  (anchor r = from r /\ head r = to r) \/ (anchor r = to r /\ head r = from r).
Proof.
  destruct r as [[al ac] [hl hc] sh]. unfold from, to, from_end, to_end, cmp.
  cbn [anchor head line ch].
  destruct (Z.eqb_spec (al - hl) 0);
    destruct (Z.ltb_spec (ac - hc) 0); destruct (Z.gtb_spec (ac - hc) 0);
    destruct (Z.ltb_spec (al - hl) 0); destruct (Z.gtb_spec (al - hl) 0);
    cbn [get anchor head]; try lia; auto.
Qed.

End RangeEvaluation.

Ltac range_simpl :=
  repeat progress
    (unfold add_line, add_ch, set_ch, head_becomes_anchor, anchor_becomes_head;
     cbn [anchor head shared line ch get negb andb orb];
     rewrite ?mut_anchor, ?mut_head, ?mut_shared).

Ltac range_case :=
  match goal with
  | |- context [cmp (mkPos ?l1 ?c1) (mkPos ?l2 ?c2)] =>
      let H := fresh "Hl" in
      destruct (cmp_cases l1 c1 l2 c2) as [[H ->] | [H ->]]; try lia
  | H : context [cmp (mkPos ?l1 ?c1) (mkPos ?l2 ?c2)] |- _ =>
      let H' := fresh "Hl" in
      let E := fresh "E" in
      destruct (cmp_cases l1 c1 l2 c2) as [[H' E] | [H' E]]; rewrite E in H; clear E;
      try lia
  | |- context [from_end (mkRange ?a ?h ?s)] =>
      let H := fresh "Hc" in
      destruct (from_end_cases a h s) as [[H ->] | [H ->]]
  | |- context [to_end (mkRange ?a ?h ?s)] =>
      let H := fresh "Hc" in
      destruct (to_end_cases a h s) as [[H ->] | [H ->]]
  | |- context [empty (mkRange ?a ?h ?s)] =>
      let H := fresh "He" in
      destruct (empty_cases a h s) as [[H ->] | [H ->]];
      try (exfalso; injection H; intros; lia)
  end.

(** Evaluate the range arithmetic of the goal, deciding comparisons by
    linear arithmetic wherever the context settles them. *)
Ltac zcase_hyp :=
  match goal with
  | H : context [Z.eqb ?a ?b] |- _ => revert H; destruct (Z.eqb_spec a b); intros H; try lia
  | H : context [Z.ltb ?a ?b] |- _ => revert H; destruct (Z.ltb_spec a b); intros H; try lia
  | H : context [Z.gtb ?a ?b] |- _ => revert H; destruct (Z.gtb_spec a b); intros H; try lia
  end.

Ltac zcase_goal :=
  match goal with
  | |- context [Z.eqb ?a ?b] => destruct (Z.eqb_spec a b); try lia
  | |- context [Z.ltb ?a ?b] => destruct (Z.ltb_spec a b); try lia
  | |- context [Z.gtb ?a ?b] => destruct (Z.gtb_spec a b); try lia
  | |- context [Z.leb ?a ?b] => destruct (Z.leb_spec a b); try lia
  | |- context [Z.geb ?a ?b] => destruct (Z.geb_spec a b); try lia
  end.

Ltac range_eval :=
  range_simpl; repeat (first [range_case | zcase_hyp | zcase_goal]; range_simpl).

(** * Code blocks *)

Section CodeBlocks.

Lemma splitLines_fence (fence : Line) :
  LF ∉ fence -> splitLines (LF :: fence ++ [LF]) = [[]; fence; []].
Proof.
  intros Hf. change (LF :: fence ++ [LF]) with ([] ++ LF :: fence ++ [LF]).
  rewrite splitLines_LF by apply not_elem_of_nil.
  by rewrite splitLines_LF.
Qed.

Lemma glue_fence (pre fence post : Line) :
  glue pre [[]; fence; []] post = [pre; fence; post].
Proof. simpl. by rewrite app_nil_r. Qed.

(** The two insertions around a selection inside one line. *)
Lemma fence_insertions (fence pre body post : Line) (d1 d2 : Doc) :
  LF ∉ fence ->
  let d := d1 ++ (pre ++ body ++ post) :: d2 in
  let i := Z.of_nat (length d1) in
  replaceRange
    (replaceRange d (LF :: fence ++ [LF]) (mkPos i (len pre + len body)) None)
    (LF :: fence ++ [LF]) (mkPos i (len pre)) None
  = d1 ++ [pre; fence; body; fence; post] ++ d2.
Proof.
  intros Hf d i. unfold d, i.
  pose proof (len_nonneg pre). pose proof (len_nonneg body). pose proof (len_nonneg post).
  rewrite replaceRange_insert by (rewrite !len_app; lia).
  rewrite splitLines_fence, glue_fence by done.
  rewrite <- len_app, (app_assoc pre body post), takeZ_app_len, dropZ_app_len.
  simpl. rewrite replaceRange_insert by (rewrite !len_app; lia).
  rewrite splitLines_fence, glue_fence by done.
  rewrite takeZ_app_len, dropZ_app_len. done.
Qed.

(** A range with two distinct ends on one line is one of two objects. *)
Lemma range_orientation (r : Range) (f t : Pos) :
  from r = f -> to r = t -> line f = line t -> ch f < ch t -> shared r = false ->
  r = mkRange f t false \/ r = mkRange t f false.
Proof.
  destruct r as [a h sh]. unfold from, to, from_end, to_end, cmp. simpl.
  intros Hf Ht Hl Hc ->.
  destruct (Z.eqb_spec (line a - line h) 0);
    destruct (Z.ltb_spec (ch a - ch h) 0); destruct (Z.gtb_spec (ch a - ch h) 0);
    destruct (Z.ltb_spec (line a - line h) 0); destruct (Z.gtb_spec (line a - line h) 0);
    simpl in *; subst; try lia; auto.
Qed.

End CodeBlocks.

Section CodeBlockSelection.

Variables (fence pre body post : Line) (d1 d2 : Doc).
Hypothesis fence_noLF : LF ∉ fence.
Hypothesis pre_nonempty : pre <> [].
Hypothesis body_nonempty : body <> [].

Let i := Z.of_nat (length d1).
Let wrapped := d1 ++ [pre; fence; body; fence; post] ++ d2.

Lemma wrapped_body : getLine wrapped (i + 2) = Some body.
Proof.
  unfold wrapped, i.
  replace (Z.of_nat (length d1) + 2) with (Z.of_nat (length (d1 ++ [pre; fence])))
    by (rewrite length_app; simpl; lia).
  change (d1 ++ [pre; fence; body; fence; post] ++ d2)
    with (d1 ++ [pre; fence] ++ body :: [fence; post] ++ d2).
  rewrite (app_assoc d1). apply getLine_middle.
Qed.

Lemma clip_wrapped_body (c : Z) :
  0 <= c -> clipPos wrapped (mkPos (i + 2) c) = mkPos (i + 2) (Z.min c (len body)).
Proof.
  intros Hc. destruct (Z.le_gt_cases c (len body)).
  - rewrite (clipPos_inside _ _ body); simpl; try apply wrapped_body; try lia.
    f_equal. lia.
  - rewrite (clipPos_beyond _ _ _ body); try apply wrapped_body; try lia.
    f_equal. lia.
Qed.

Lemma fenceSelection_forward (p b : Z) :
  0 < p -> 0 < b ->
  Lib.fenceSelection 4 (mkRange (mkPos i p) (mkPos i (p + b)) false)
  = if p <? b then mkRange (mkPos (i + 2) 0) (mkPos (i + 2) b) false
    else mkRange (mkPos (i + 2) p) (mkPos (i + 2) 0) false.
Proof.
  intros Hp Hb. unfold Lib.fenceSelection, from, to. range_eval.
  all: repeat f_equal; lia.
Qed.

Lemma fenceSelection_backward (p b : Z) :
  0 < p -> 0 < b ->
  Lib.fenceSelection 4 (mkRange (mkPos i (p + b)) (mkPos i p) false)
  = if b <? p then mkRange (mkPos (i + 2) 0) (mkPos (i + 2) p) false
    else mkRange (mkPos (i + 2) b) (mkPos (i + 2) 0) false.
Proof.
  intros Hp Hb. unfold Lib.fenceSelection, from, to. range_eval.
  all: repeat f_equal; lia.
Qed.

Lemma clipRange_wrapped_body (a h : Z) :
  0 <= a -> 0 <= h ->
  from (clipRange wrapped (mkRange (mkPos (i + 2) a) (mkPos (i + 2) h) false))
    = mkPos (i + 2) (Z.min (Z.min a h) (len body))
  /\ to (clipRange wrapped (mkRange (mkPos (i + 2) a) (mkPos (i + 2) h) false))
    = mkPos (i + 2) (Z.min (Z.max a h) (len body)).
Proof.
  intros Ha Hh. unfold clipRange. cbn [anchor head shared].
  rewrite !clip_wrapped_body by done.
  unfold from, to, from_end, to_end, cmp. cbn [anchor head line ch get].
  rewrite Z.sub_diag. cbn [Z.eqb].
  split; zcases; cbn [get anchor head]; f_equal; lia.
Qed.

Lemma codeBlock_single (r : Range) :
  shared r = false ->
  from r = mkPos i (len pre) ->
  to r = mkPos i (len pre + len body) ->
  exists r',
    Lib.codeBlockLoop fence 1 (d1 ++ (pre ++ body ++ post) :: d2) [r] = (wrapped, [r'])
    /\ from (clipRange wrapped r') = mkPos (i + 2) 0
    /\ to (clipRange wrapped r') = mkPos (i + 2) (len body).
Proof.
  intros Hsh Hfrom Hto.
  pose proof (len_pos pre pre_nonempty) as Hp.
  pose proof (len_pos body body_nonempty) as Hb.
  exists (Lib.fenceSelection 4 r). split.
  - cbn [Lib.codeBlockLoop map]. rewrite Hfrom, Hto. cbn [ch].
    destruct (Z.gtb_spec (len pre) 0); [|lia]. cbn [negb].
    unfold i. by rewrite (fence_insertions fence pre body post d1 d2 fence_noLF).
  - destruct (range_orientation r _ _ Hfrom Hto) as [-> | ->];
      [done | cbn [ch]; lia | done | |].
    + rewrite fenceSelection_forward by done. destruct (Z.ltb_spec (len pre) (len body)).
      * destruct (clipRange_wrapped_body 0 (len body)) as [-> ->]; [lia | lia |].
        split; f_equal; lia.
      * destruct (clipRange_wrapped_body (len pre) 0) as [-> ->]; [lia | lia |].
        split; f_equal; lia.
    + rewrite fenceSelection_backward by done. destruct (Z.ltb_spec (len body) (len pre)).
      * destruct (clipRange_wrapped_body 0 (len pre)) as [-> ->]; [lia | lia |].
        split; f_equal; lia.
      * destruct (clipRange_wrapped_body (len body) 0) as [-> ->]; [lia | lia |].
        split; f_equal; lia.
Qed.

End CodeBlockSelection.

Lemma insertCodeBlock_single (o : Options) (pre body post : Line) (d1 d2 : Doc) (r : Range) :
  LF ∉ codeBlock o ->
  pre <> [] -> body <> [] ->
  shared r = false ->
  from r = mkPos (Z.of_nat (length d1)) (len pre) ->
  to r = mkPos (Z.of_nat (length d1)) (len pre + len body) ->
  exists r',
    Lib.insertCodeBlock o (mkEditor (d1 ++ (pre ++ body ++ post) :: d2) [r])
      = Some (mkEditor (d1 ++ [pre; codeBlock o; body; codeBlock o; post] ++ d2) [r'])
    /\ from r' = mkPos (Z.of_nat (length d1) + 2) 0
    /\ to r' = mkPos (Z.of_nat (length d1) + 2) (len body).
Proof.
  intros Hf Hpre Hbody Hsh Hfrom Hto.
  destruct (codeBlock_single (codeBlock o) pre body post d1 d2 Hf Hpre Hbody r Hsh Hfrom Hto)
    as (r' & Hrun & Hf' & Ht').
  exists (clipRange (d1 ++ [pre; codeBlock o; body; codeBlock o; post] ++ d2) r').
  split; [|done].
  unfold Lib.insertCodeBlock. cbn [sels doc length]. by rewrite Hrun.
Qed.

(** C8: on a single-line, non-empty selection that starts after column 0,
    [insertCodeBlock] leaves the text before the selection on its line,
    then an opening fence line, the selected text on a line of its own, a
    closing fence line and the rest of the original line on a new line; the
    installed selection runs from column 0 to the end of the content line.
    In the library edition for every configured fence without line feed,
    in the first edition for its built-in fence. *)
Theorem code_block_wraps_selection
    (o : Options) (pre body post : Line) (d1 d2 : Doc) (r : Range) :
  LF ∉ codeBlock o ->
  pre <> [] -> body <> [] ->
  shared r = false ->
  from r = mkPos (Z.of_nat (length d1)) (len pre) ->
  to r = mkPos (Z.of_nat (length d1)) (len pre + len body) ->
  (exists r',
     Lib.insertCodeBlock o (mkEditor (d1 ++ (pre ++ body ++ post) :: d2) [r])
       = Some (mkEditor (d1 ++ [pre; codeBlock o; body; codeBlock o; post] ++ d2) [r'])
     /\ from r' = mkPos (Z.of_nat (length d1) + 2) 0
     /\ to r' = mkPos (Z.of_nat (length d1) + 2) (len body))
  /\ (exists r',
     Old.insertCodeBlock (mkEditor (d1 ++ (pre ++ body ++ post) :: d2) [r])
       = Some (mkEditor (d1 ++ [pre; L "```"; body; L "```"; post] ++ d2) [r'])
     /\ from r' = mkPos (Z.of_nat (length d1) + 2) 0
     /\ to r' = mkPos (Z.of_nat (length d1) + 2) (len body)).
Proof.
  intros Hf Hpre Hbody Hsh Hfrom Hto. split.
  - by apply insertCodeBlock_single.
  - rewrite (insertCodeBlock_same builtinOptions) by done.
    apply (insertCodeBlock_single builtinOptions); try done. noLF.
Qed.

Lemma code_block_wraps_selection_witness :
  (exists r',
     Lib.insertCodeBlock builtinOptions
       (mkEditor ([L "intro"] ++ (L "hello " ++ L "world" ++ L "!") :: [L "outro"]) [span 1 6 1 11])
       = Some (mkEditor ([L "intro"] ++ [L "hello "; L "```"; L "world"; L "```"; L "!"] ++ [L "outro"]) [r'])
     /\ from r' = mkPos (1 + 2) 0
     /\ to r' = mkPos (1 + 2) (len (L "world")))
  /\ (exists r',
     Old.insertCodeBlock
       (mkEditor ([L "intro"] ++ (L "hello " ++ L "world" ++ L "!") :: [L "outro"]) [span 1 6 1 11])
       = Some (mkEditor ([L "intro"] ++ [L "hello "; L "```"; L "world"; L "```"; L "!"] ++ [L "outro"]) [r'])
     /\ from r' = mkPos (1 + 2) 0
     /\ to r' = mkPos (1 + 2) (len (L "world"))).
Proof.
  apply (code_block_wraps_selection builtinOptions (L "hello ") (L "world") (L "!")
           [L "intro"] [L "outro"] (span 1 6 1 11));
    [noLF | discriminate | discriminate | reflexivity | reflexivity | reflexivity].
Defined.

Example code_block_short_selection :
  Lib.insertCodeBlock builtinOptions (mkEditor [L "hello world!"] [span 0 6 0 11])
  = Some (mkEditor [L "hello "; L "```"; L "world"; L "```"; L "!"]
            [mkRange (mkPos 2 5) (mkPos 2 0) false]).
Proof. reflexivity. Qed.

(** * Column clamping in the inline toggles *)

Section Clamping.

Lemma prefix_removal_clamped (k : Z) (from : Pos) (d : Doc) :
  removalClamped
    (mkRequest Prefix [] (mkPos (line from) (if ch from >=? k then ch from - k else 0))
       (Some from) d).
Proof.
  intros _. cbn [side rto rfrom]. exists from. cbn [line ch].
  split; [done|]. split; [done|]. zcases; lia.
Qed.

Lemma suffix_removal_clamped (k : Z) (to : Pos) (d : Doc) (endLine : Line) :
  getLine d (line to) = Some endLine ->
  removalClamped
    (mkRequest Suffix [] to
       (Some (mkPos (line to) (if ch to <=? len endLine - k then ch to + k else len endLine)))
       d).
Proof.
  intros Hline _. cbn [side rto rfrom before]. eexists. split; [done|]. cbn [line ch].
  rewrite (lineAt_Some _ _ _ Hline). split; [done|]. zcases; lia.
Qed.

Lemma insertion_clamped (sd : Side) (tok : Line) (p : Pos) (d : Doc) :
  removalClamped (mkRequest sd tok p None d).
Proof. unfold removalClamped, isRemoval. cbn [text rto]. by destruct tok. Qed.

Lemma Old_toggleStep_clamped op d shift sel d' shift' sel' qs :
  Old.toggleStep op d shift sel = Some (d', shift', sel', qs) ->
  Forall removalClamped qs.
Proof.
  unfold Old.toggleStep. cbv zeta.
  destruct (getLine d _) as [endLine|] eqn:Hline; [|done]. cbn [mbind option_bind].
  intros [= _ _ _ <-].
  constructor; [|constructor; [|constructor]].
  - unfold Old.suffixRequest. destruct (Old.hasSuffixToken _ _ _ _).
    + by apply suffix_removal_clamped.
    + apply insertion_clamped.
  - unfold Old.prefixRequest. destruct (Old.hasPrefixToken _ _ _).
    + apply prefix_removal_clamped.
    + apply insertion_clamped.
Qed.

Lemma Old_toggleLoop_clamped op ss : forall d shift d' rs qs,
  Old.toggleLoop op d shift ss = Some (d', rs, qs) -> Forall removalClamped qs.
Proof.
  induction ss as [|s ss IH]; intros d shift d' rs qs; simpl.
  - by intros [= _ _ <-].
  - destruct (Old.toggleStep op d shift s) as [[[[d1 shift1] s1] qs1]|] eqn:Hstep; [|done].
    cbn [mbind option_bind].
    destruct (Old.toggleLoop op d1 shift1 ss) as [[[d2 rs2] qs2]|] eqn:Hloop; [|done].
    cbn [mbind option_bind]. intros [= _ _ <-].
    apply Forall_app. split.
    + eapply Old_toggleStep_clamped, Hstep.
    + eapply IH, Hloop.
Qed.

Lemma Lib_toggleStep_clamped token alts d sel following d' sel' following' qs :
  Lib.toggleStep token alts d sel following = Some (d', sel', following', qs) ->
  Forall removalClamped qs.
Proof.
  unfold Lib.toggleStep. cbv zeta.
  destruct (getLine d _) as [endLine|] eqn:Hline; [|done]. cbn [mbind option_bind].
  intros [= _ _ _ <-].
  constructor; [|constructor; [|constructor]].
  - unfold Lib.suffixRequest. destruct (Lib.suffixToken _ _ _ _ _).
    + by apply suffix_removal_clamped.
    + apply insertion_clamped.
  - unfold Lib.prefixRequest. destruct (Lib.prefixToken _ _ _ _).
    + apply prefix_removal_clamped.
    + apply insertion_clamped.
Qed.

Lemma Lib_toggleLoop_clamped token alts n : forall ss d d' rs qs,
  Lib.toggleLoop token alts n d ss = Some (d', rs, qs) -> Forall removalClamped qs.
Proof.
  induction n as [|n IH]; intros ss d d' rs qs; simpl.
  - by intros [= _ _ <-].
  - destruct ss as [|s ss]; [by intros [= _ _ <-]|].
    destruct (Lib.toggleStep token alts d s ss) as [[[[d1 s1] ss1] qs1]|] eqn:Hstep; [|done].
    cbn [mbind option_bind].
    destruct (Lib.toggleLoop token alts n d1 ss1) as [[[d2 rs2] qs2]|] eqn:Hloop; [|done].
    cbn [mbind option_bind]. intros [= _ _ <-].
    apply Forall_app. split.
    + eapply Lib_toggleStep_clamped, Hstep.
    + eapply IH, Hloop.
Qed.

End Clamping.

(** * Requests for a selection inside its lines *)

Section RequestsInRange.

Lemma inLine_clip (d : Doc) (p : Pos) : inLine d p -> clipPos d p = p.
Proof. intros (l & Hl & Hc). by apply (clipPos_inside d p l). Qed.

Lemma glueEnd_head (x : Line) (r : Doc) (post : Line) :
  exists rest tl, glueEnd (x :: r) post = (x ++ rest) :: tl.
Proof.
  destruct r as [|b r].
  - by exists post, [].
  - exists [], (glueEnd (b :: r) post). simpl. by rewrite app_nil_r.
Qed.

Lemma glue_head (pre : Line) (ls : Doc) (post : Line) :
  exists rest tl, glue pre ls post = (pre ++ rest) :: tl.
Proof.
  destruct ls as [|a ls].
  - by exists post, [].
  - destruct (glueEnd_head (pre ++ a) ls post) as (rest & tl & H).
    exists (a ++ rest), tl. simpl. simpl in H. rewrite H. by rewrite <- app_assoc.
Qed.

(** A change leaves every position before its start inside its line. *)
Lemma makeChange_before (d : Doc) (ls : Doc) (f t p : Pos) :
  inLine d f -> inLine d p -> cmp p f <= 0 ->
  inLine (makeChange d ls f t) p.
Proof.
  intros (lf & Hlf & Hcf) (lp & Hlp & Hcp) Hcmp.
  pose proof (getLine_lt _ _ _ Hlf) as Hnf. pose proof (getLine_lt _ _ _ Hlp) as Hnp.
  unfold makeChange. rewrite (lineAt_Some _ _ _ Hlf).
  destruct (glue_head (takeZ (ch f) lf) ls (dropZ (ch t) (lineAt d (line t))))
    as (rest & tl & ->).
  unfold cmp in Hcmp. destruct (Z.eqb_spec (line p - line f) 0) as [Heq|Hne].
  - exists (takeZ (ch f) lf ++ rest). split.
    + apply getLine_Some. split; [lia|].
      replace (Z.to_nat (line p)) with (length (take (Z.to_nat (line f)) d))
        by (rewrite length_take; lia).
      apply list_lookup_middle. done.
    + rewrite len_app. unfold takeZ, len in *. rewrite length_take. lia.
  - exists lp. split; [|done]. apply getLine_Some in Hlp as [? Hlp].
    apply getLine_Some. split; [done|].
    rewrite lookup_app_l by (rewrite length_take; lia).
    rewrite lookup_take_lt by lia. done.
Qed.

Lemma cmp_flip (a b : Pos) : cmp a b <= 0 -> 0 <= cmp b a.
Proof.
  unfold cmp. destruct (Z.eqb_spec (line a - line b) 0);
    destruct (Z.eqb_spec (line b - line a) 0); lia.
Qed.

Lemma replaceRange_before (d : Doc) (text : Line) (f : Pos) (t : option Pos) (p : Pos) :
  inLine d f -> (forall t', t = Some t' -> inLine d t' /\ cmp f t' <= 0) ->
  inLine d p -> cmp p f <= 0 ->
  inLine (replaceRange d text f t) p.
Proof.
  intros Hf Ht Hp Hcmp. unfold replaceRange. rewrite (inLine_clip d f Hf).
  destruct t as [t'|].
  - destruct (Ht t' eq_refl) as [Ht' Hft]. rewrite (inLine_clip d t' Ht').
    assert ((cmp t' f <? 0) = false) as ->.
    { apply cmp_flip in Hft. destruct (Z.ltb_spec (cmp t' f) 0); [lia | done]. }
    by apply makeChange_before.
  - assert ((cmp f f <? 0) = false) as ->.
    { unfold cmp. rewrite !Z.sub_diag. done. }
    by apply makeChange_before.
Qed.

Lemma cmp_from_to (r : Range) : cmp (from r) (to r) <= 0.
Proof.
  destruct r as [[al ac] [hl hc] sh]. unfold from, to, from_end, to_end, cmp.
  cbn [anchor head line ch].
  destruct (Z.eqb_spec (al - hl) 0);
    destruct (Z.ltb_spec (ac - hc) 0); destruct (Z.gtb_spec (ac - hc) 0);
    destruct (Z.ltb_spec (al - hl) 0); destruct (Z.gtb_spec (al - hl) 0);
    cbn [get anchor head line ch]; zcases; lia.
Qed.

Lemma inLine_left (d : Doc) (p : Pos) (c : Z) :
  inLine d p -> 0 <= c <= ch p -> inLine d (mkPos (line p) c).
Proof. intros (l & Hl & Hc) Hle. exists l. cbn [line ch]. split; [done | lia]. Qed.

(** Both requests of a turn, given the two ends [f <= t] of the selection
    inside their lines and the clamped ends [f'] and [t'] of the removals. *)
Lemma turn_requests_in_range (d : Doc) (f t f' t' : Pos) (q1 q2 : Request) :
  inLine d f -> inLine d t -> cmp f t <= 0 ->
  line f' = line f -> 0 <= ch f' <= ch f ->
  inLine d t' -> cmp t t' <= 0 ->
  before q1 = d -> rfrom q1 = t -> (rto q1 = None \/ rto q1 = Some t') ->
  before q2 = request q1 ->
  (rfrom q2 = f /\ rto q2 = None) \/ (rfrom q2 = f' /\ rto q2 = Some f) ->
  requestInRange q1 /\ requestInRange q2.
Proof.
  intros Hf Ht Hft Hl' Hc' Ht' Htt' Hb1 Hr1 Hto1 Hb2 Hq2.
  assert (inLine (request q1) f) as Hf1.
  { unfold request. rewrite Hb1, Hr1. apply replaceRange_before; try done.
    intros t0 E. destruct Hto1 as [E'|E']; rewrite E' in E; [done|].
    injection E as <-. done. }
  split.
  - split; rewrite Hb1, ?Hr1; [done|].
    intros t0 E. destruct Hto1 as [E'|E']; rewrite E' in E; [done|].
    by injection E as <-.
  - destruct Hq2 as [[E1 E2] | [E1 E2]]; split; rewrite Hb2, ?E1, ?E2; try done.
    + destruct f' as [l' c']. cbn [line ch] in *. subst l'.
      by apply (inLine_left _ f).
    + by intros t0 [= <-].
Qed.

Lemma Old_turn_in_range (op : Line) (d : Doc) (shift : Z) (sel : Range)
    (r : Doc * Z * Range * list Request) :
  Old.toggleStep op d shift sel = Some r ->
  inLine d (from (Old.shiftBack op shift sel)) ->
  inLine d (to (Old.shiftBack op shift sel)) ->
  Forall requestInRange (snd r).
Proof.
  unfold Old.toggleStep. cbv zeta. set (selection := Old.shiftBack op shift sel).
  destruct (getLine d _) as [endLine|] eqn:Hline; [|done]. cbn [mbind option_bind].
  intros [= <-] Hf Ht. cbn [snd].
  pose proof (len_nonneg op) as HL.
  pose proof Ht as (l & Hl & Hc). rewrite Hline in Hl. injection Hl as <-.
  pose proof Hf as (lf & Hlf & Hcf).
  destruct (turn_requests_in_range d (from selection) (to selection)
              (Old.prefixStart op (from selection))
              (Old.suffixEnd op (to selection) (len endLine))
              (Old.suffixRequest op (Old.hasSuffixToken op d selection (len endLine)) d
                 selection (len endLine))
              (Old.prefixRequest op (Old.hasPrefixToken op d selection)
                 (request (Old.suffixRequest op
                             (Old.hasSuffixToken op d selection (len endLine)) d
                             selection (len endLine)))
                 selection)) as [H1 H2]; try done.
  - apply cmp_from_to.
  - unfold Old.prefixStart. cbn [ch]. zcases.
  - exists endLine. unfold Old.suffixEnd. cbn [line ch]. split; [done|]. zcases.
  - unfold Old.suffixEnd, cmp. cbn [line ch]. rewrite Z.sub_diag. cbn [Z.eqb]. zcases.
  - unfold Old.suffixRequest. by destruct (Old.hasSuffixToken _ _ _ _).
  - unfold Old.suffixRequest. by destruct (Old.hasSuffixToken _ _ _ _).
  - unfold Old.suffixRequest. destruct (Old.hasSuffixToken _ _ _ _); auto.
  - unfold Old.prefixRequest. by destruct (Old.hasPrefixToken _ _ _).
  - unfold Old.prefixRequest. destruct (Old.hasPrefixToken _ _ _); auto.
  - constructor; [done|]. constructor; [done|]. constructor.
Qed.

Lemma Lib_turn_in_range (token : Line) (alts : list Line) (d : Doc) (s : Range)
    (following : list Range) (r : Doc * Range * list Range * list Request) :
  Lib.toggleStep token alts d s following = Some r ->
  inLine d (from s) -> inLine d (to s) ->
  Forall requestInRange (snd r).
Proof.
  unfold Lib.toggleStep. cbv zeta.
  destruct (getLine d _) as [endLine|] eqn:Hline; [|done]. cbn [mbind option_bind].
  intros [= <-] Hf Ht. cbn [snd].
  pose proof Ht as (l & Hl & Hc). rewrite Hline in Hl. injection Hl as <-.
  set (pt := Lib.prefixToken token alts d (from s)).
  set (st := Lib.suffixToken token alts d (to s) (len endLine)).
  destruct (turn_requests_in_range d (from s) (to s)
              (Lib.prefixStart (default [] pt) (from s))
              (Lib.suffixEnd (default [] st) (to s) (len endLine))
              (Lib.suffixRequest token st d (to s) (len endLine))
              (Lib.prefixRequest token pt
                 (request (Lib.suffixRequest token st d (to s) (len endLine))) (from s)))
    as [H1 H2]; try done.
  - apply cmp_from_to.
  - pose proof (len_nonneg (default [] pt)).
    destruct Hf as (lf & _ & Hcf). unfold Lib.prefixStart. cbn [ch]. zcases.
  - pose proof (len_nonneg (default [] st)).
    exists endLine. unfold Lib.suffixEnd. cbn [line ch]. split; [done|]. zcases.
  - pose proof (len_nonneg (default [] st)).
    unfold Lib.suffixEnd, cmp. cbn [line ch]. rewrite Z.sub_diag. cbn [Z.eqb]. zcases.
  - unfold Lib.suffixRequest. by destruct st.
  - unfold Lib.suffixRequest. by destruct st.
  - unfold Lib.suffixRequest. destruct st; auto.
  - unfold Lib.prefixRequest. by destruct pt.
  - unfold Lib.prefixRequest. destruct pt; auto.
  - constructor; [done|]. constructor; [done|]. constructor.
Qed.

End RequestsInRange.

(** C9, as stated, fails: the clamping bounds one end of each removal, and
    a selection that an earlier turn has shifted off its line still has its
    own ends requested.  With carets at columns 2 and 3 of "******x",
    [toggleBold] of the library edition shifts the second caret to column -1
    and then requests the removal of the range from column -1 to column 1. *)
Lemma removal_requested_from_negative_column :
  exists d rs q1 q2 q4,
    Lib.toggleInlineFormattingRun (L "**") [L "__"]
      (mkEditor [L "******x"] [caret 0 2; caret 0 3])
    = Some (d, rs,
            [q1; q2;
             mkRequest Suffix [] (mkPos 0 (-1)) (Some (mkPos 0 1)) [L "**x"];
             q4])
    /\ isRemoval (mkRequest Suffix [] (mkPos 0 (-1)) (Some (mkPos 0 1)) [L "**x"]) = true
    /\ ~ requestInRange (mkRequest Suffix [] (mkPos 0 (-1)) (Some (mkPos 0 1)) [L "**x"]).
Proof.
  do 5 eexists. split; [vm_compute; reflexivity|]. split; [reflexivity|].
  intros [(l & _ & Hc) _]. cbn [rfrom ch] in Hc. lia.
Qed.

(** The first edition requests insertions beyond the end of a line: the
    second selection is shifted by the tokens inserted on the first line. *)
Example insertion_requested_beyond_line :
  snd <$> Old.toggleInlineFormattingRun (L "**")
            (mkEditor [L "abc"; L "d"] [span 0 0 0 3; span 1 0 1 1])
  = Some [mkRequest Suffix (L "**") (mkPos 0 3) None [L "abc"; L "d"];
          mkRequest Prefix (L "**") (mkPos 0 0) None [L "abc**"; L "d"];
          mkRequest Suffix (L "**") (mkPos 1 5) None [L "**abc**"; L "d"];
          mkRequest Prefix (L "**") (mkPos 1 4) None [L "**abc**"; L "d**"]].
Proof. vm_compute. reflexivity. Qed.

(** C9 (amended): in every run of an inline toggle, of either edition, on
    any document, selection list and token, every removal requested of the
    buffer is clamped: a prefix removal starts at a column no smaller than
    0 and a suffix removal ends at a column no larger than the length of
    its line, so neither removes more than there is on its side of the
    selection; and in a turn on a selection whose ends lie inside their
    lines, every request lies inside the document. *)
Theorem toggle_requests_clamped (token : Line) (altTokens : list Line) :
  (forall ed r,
     Old.toggleInlineFormattingRun token ed = Some r
     \/ Lib.toggleInlineFormattingRun token altTokens ed = Some r ->
     Forall removalClamped (snd r))
  /\ (forall d shift sel r,
     Old.toggleStep token d shift sel = Some r ->
     inLine d (from (Old.shiftBack token shift sel)) ->
     inLine d (to (Old.shiftBack token shift sel)) ->
     Forall requestInRange (snd r))
  /\ (forall d s following r,
     Lib.toggleStep token altTokens d s following = Some r ->
     inLine d (from s) -> inLine d (to s) ->
     Forall requestInRange (snd r)).
Proof.
  split; [|split].
  - intros ed [[d rs] qs] [H|H]; cbn [snd].
    + eapply Old_toggleLoop_clamped, H.
    + eapply Lib_toggleLoop_clamped, H.
  - intros d shift sel r. apply Old_turn_in_range.
  - intros d s following r. apply Lib_turn_in_range.
Qed.

Lemma toggle_requests_clamped_witness :
  exists r,
    Lib.toggleInlineFormattingRun (L "**") [L "__"] (mkEditor [L "x__ab__y"] [span 0 3 0 5])
      = Some r
    /\ Forall removalClamped (snd r).
Proof.
  eexists. split; [vm_compute; reflexivity|].
  apply (proj1 (toggle_requests_clamped (L "**") [L "__"])
           (mkEditor [L "x__ab__y"] [span 0 3 0 5])).
  right. vm_compute. reflexivity.
Defined.

(** * One output selection per input selection *)

Section SelectionLists.

Lemma sameLines_refl r : sameLines r r.
Proof. done. Qed.

Lemma sameLines_trans r1 r2 r3 : sameLines r1 r2 -> sameLines r2 r3 -> sameLines r1 r3.
Proof. unfold sameLines. intros [? ?] [? ?]. split; congruence. Qed.

Lemma mut_add_ch_wf e k r : wfRange r -> wfRange (mut e (add_ch k) r).
Proof. unfold wfRange, mut. destruct (shared r), e; simpl; done. Qed.

Lemma mut_add_ch_lines e k r : wfRange r -> sameLines r (mut e (add_ch k) r).
Proof.
  unfold wfRange, sameLines, mut. intros Hwf.
  destruct (shared r) eqn:Hs; [rewrite (Hwf eq_refl)|]; destruct e; simpl; try done.
  all: by rewrite ?(Hwf eq_refl).
Qed.

Lemma head_becomes_anchor_wf r : wfRange (head_becomes_anchor r).
Proof. done. Qed.

Lemma empty_eq r : empty r = true -> anchor r = head r.
Proof.
  unfold empty, pos_eqb. destruct (anchor r) as [l1 c1], (head r) as [l2 c2]. simpl.
  intros [H1 H2]%andb_true_iff. apply Z.eqb_eq in H1, H2. congruence.
Qed.

Lemma head_becomes_anchor_lines r : empty r = true -> sameLines r (head_becomes_anchor r).
Proof. intros H%empty_eq. unfold sameLines. simpl. by rewrite H. Qed.

(** Conditional steps keep both properties. *)
Lemma step_keeps (P : Range -> Range) (c : bool) r :
  wfRange r ->
  (forall r, wfRange r -> wfRange (P r) /\ sameLines r (P r)) ->
  wfRange (if c then P r else r) /\ sameLines r (if c then P r else r).
Proof. intros Hwf HP. destruct c; [by apply HP | done]. Qed.

Lemma mut_add_ch_keeps e k r :
  wfRange r -> wfRange (mut e (add_ch k) r) /\ sameLines r (mut e (add_ch k) r).
Proof. intros. split; [by apply mut_add_ch_wf | by apply mut_add_ch_lines]. Qed.

Lemma adjustFollowing_keeps f t b a s :
  wfRange s ->
  wfRange (fst (Lib.adjustFollowing f t b a s))
  /\ sameLines s (fst (Lib.adjustFollowing f t b a s)).
Proof.
  intros Hwf. unfold Lib.adjustFollowing.
  set (s1 := if empty s then _ else _).
  assert (wfRange s1 /\ sameLines s s1) as [Hwf1 Hl1].
  { unfold s1. destruct (empty s) eqn:He.
    - split; [apply head_becomes_anchor_wf | by apply head_becomes_anchor_lines].
    - destruct (step_keeps (mut Head (add_ch b)) (line (head s) =? line f) s Hwf)
        as [Hwf0 Hl0]; [intros; by apply mut_add_ch_keeps|].
      destruct (step_keeps (mut Head (add_ch a))
                  (line (head (if line (head s) =? line f then mut Head (add_ch b) s else s))
                     =? line t) _ Hwf0) as [Hwf0' Hl0']; [intros; by apply mut_add_ch_keeps|].
      split; [done | by eapply sameLines_trans]. }
  set (s2 := if line (anchor s1) =? line f then _ else _).
  assert (wfRange s2 /\ sameLines s1 s2) as [Hwf2 Hl2].
  { apply step_keeps; [done|]. intros; by apply mut_add_ch_keeps. }
  destruct (line (anchor s2) =? line t); cbn [fst].
  - destruct (mut_add_ch_keeps Anchor a s2 Hwf2). split; [done|].
    eapply sameLines_trans; [|done]. by eapply sameLines_trans.
  - split; [done | by eapply sameLines_trans].
Qed.

Lemma adjustAll_keeps f t b a ss :
  Forall wfRange ss ->
  Forall wfRange (Lib.adjustAll f t b a ss)
  /\ Forall2 sameLines ss (Lib.adjustAll f t b a ss).
Proof.
  induction ss as [|s ss IH]; intros Hwf; simpl; [by split|].
  apply Forall_cons in Hwf as [Hs Hss].
  destruct (adjustFollowing_keeps f t b a s Hs) as [Hwf' Hl'].
  destruct (Lib.adjustFollowing f t b a s) as [s' go]. cbn [fst] in *.
  destruct go.
  - destruct (IH Hss). split; by constructor.
  - split; constructor; try done.
    apply Forall_Forall2_diag, Forall_forall. intros; apply sameLines_refl.
Qed.



Lemma adjustBoundaries_keeps s sf st :
  wfRange s -> sameLines s (Lib.adjustBoundaries s sf st).
Proof.
  intros Hwf. unfold Lib.adjustBoundaries.
  destruct (pos_eqb _ _).
  - destruct (mut_add_ch_keeps Anchor sf s Hwf) as [Hwf1 Hl1].
    destruct (negb _); [|done].
    eapply sameLines_trans; [done|]. by apply mut_add_ch_lines.
  - destruct (mut_add_ch_keeps Anchor st s Hwf) as [Hwf1 Hl1].
    destruct (negb _); [|done].
    eapply sameLines_trans; [done|]. by apply mut_add_ch_lines.
Qed.

Lemma Lib_replaceLoop_lines (f : ReplaceFn) ss : forall d d' rs,
  Forall wfRange ss ->
  Lib.replaceLoop f d ss = Some (d', rs) ->
  Forall2 sameLines ss rs.
Proof.
  induction ss as [|s ss IH]; intros d d' rs Hwf; simpl.
  - intros [= _ <-]. constructor.
  - apply Forall_cons in Hwf as [Hs Hss]. unfold Lib.replaceStep.
    destruct (Lib.rewriteLines _ _ _ _ _ _ _ _) as [[[d1 sf] st]|]; [|done].
    cbn [mbind option_bind].
    destruct (Lib.replaceLoop f d1 ss) as [[d2 rs2]|] eqn:Hloop; [|done].
    cbn [mbind option_bind]. intros [= _ <-].
    constructor; [by apply adjustBoundaries_keeps | by eapply IH].
Qed.











End SelectionLists.

(** * The inline toggle of the library edition returns *)

Section ToggleReturns.

Lemma clipPos_line (d : Doc) (p : Pos) :
  0 <= line p < Z.of_nat (length d) -> line (clipPos d p) = line p.
Proof.
  intros Hl. unfold clipPos, lastLine.
  destruct (Z.ltb_spec (line p) 0); [lia|].
  destruct (Z.gtb_spec (line p) (Z.of_nat (length d) - 1)); [lia|].
  cbv zeta. destruct (Z.gtb_spec (ch p) (len (lineAt d (line p)))); [done|].
  by destruct (Z.ltb_spec (ch p) 0).
Qed.

Lemma glueEnd_length (ls : Doc) (post : Line) : (1 <= length (glueEnd ls post))%nat.
Proof. destruct ls as [|a [|b ls]]; simpl; lia. Qed.

Lemma glue_length (pre : Line) (ls : Doc) (post : Line) : (1 <= length (glue pre ls post))%nat.
Proof. destruct ls; [simpl; lia | apply glueEnd_length]. Qed.

Lemma makeChange_grows (d : Doc) (text : Doc) (f t : Pos) :
  line f = line t -> 0 <= line f < Z.of_nat (length d) ->
  (length d <= length (makeChange d text f t))%nat.
Proof.
  intros Hl Hf. unfold makeChange.
  pose proof (glue_length (takeZ (ch f) (lineAt d (line f))) text
                (dropZ (ch t) (lineAt d (line t)))).
  rewrite !length_app, length_take, length_drop. lia.
Qed.

(** A request on one line of the document never shortens the document. *)
Lemma replaceRange_grows (d : Doc) (text : Line) (f : Pos) (t : option Pos) :
  0 <= line f < Z.of_nat (length d) ->
  (forall t', t = Some t' -> line t' = line f) ->
  (length d <= length (replaceRange d text f t))%nat.
Proof.
  intros Hf Ht. unfold replaceRange.
  assert (line (match t with Some t0 => clipPos d t0 | None => clipPos d f end)
          = line (clipPos d f)) as Hsame.
  { destruct t as [t'|]; [|done]. rewrite !clipPos_line; rewrite ?(Ht t' eq_refl); done. }
  destruct (cmp _ _ <? 0); apply makeChange_grows;
    rewrite ?Hsame, ?clipPos_line; done.
Qed.

Lemma validRange_mono (d d' : Doc) (r r' : Range) :
  (length d <= length d')%nat -> sameLines r r' -> validRange d r -> validRange d' r'.
Proof. unfold validRange, sameLines. intros Hd [-> ->] [? ?]. lia. Qed.

Lemma Lib_toggleStep_returns (token : Line) (alts : list Line) (d : Doc) (s : Range)
    (following : list Range) :
  validRange d s ->
  exists d' qs,
    Lib.toggleStep token alts d s following
    = Some (d', Lib.adjustProcessed s (Lib.shiftOf (Lib.prefixToken token alts d (from s))
                                        * len token),
            Lib.adjustAll (from s) (to s)
              (Lib.shiftOf (Lib.prefixToken token alts d (from s)) * len token)
              (Lib.shiftOf
                 (Lib.suffixToken token alts d (to s) (len (lineAt d (line (to s)))))
               * len token)
              following,
            qs)
    /\ (length d <= length d')%nat.
Proof.
  intros [Hfrom Hto]%validRange_ends.
  destruct (getLine_is_Some d (line (to s)) Hto) as [endLine Hline].
  unfold Lib.toggleStep. cbv zeta. rewrite Hline. cbn [mbind option_bind].
  rewrite (lineAt_Some _ _ _ Hline).
  eexists _, _. split; [reflexivity|].
  set (q1 := Lib.suffixRequest _ _ _ _ _).
  assert (length d <= length (request q1))%nat as H1.
  { unfold q1, Lib.suffixRequest, request.
    destruct (Lib.suffixToken _ _ _ _ _); apply replaceRange_grows;
      cbn [before text rfrom rto]; try done. by intros t' [= <-]. }
  etrans; [exact H1|].
  unfold Lib.prefixRequest. unfold request at 1.
  destruct (Lib.prefixToken _ _ _ _); apply replaceRange_grows;
    cbn [before text rfrom rto Lib.prefixStart line]; try lia; try done.
  by intros t' [= <-].
Qed.

Lemma Lib_toggleLoop_returns (token : Line) (alts : list Line) (n : nat) :
  forall ss d,
    length ss = n -> Forall wfRange ss -> Forall (validRange d) ss ->
    is_Some (Lib.toggleLoop token alts n d ss).
Proof.
  induction n as [|n IH]; intros ss d Hn Hwf Hvalid; simpl; [done|].
  destruct ss as [|s ss]; [done|].
  apply Forall_cons in Hwf as [Hs Hss]. apply Forall_cons in Hvalid as [Hvs Hvss].
  destruct (Lib_toggleStep_returns token alts d s ss Hvs) as (d' & qs & -> & Hlen).
  cbn [mbind option_bind].
  match goal with
  | |- context [Lib.adjustAll ?f ?t ?b ?a ss] =>
      destruct (adjustAll_keeps f t b a ss Hss) as [Hwf' Hl'];
      set (ss1 := Lib.adjustAll f t b a ss) in *
  end.
  destruct (IH ss1 d') as [[[d2 rs2] qs2] ->]; try done.
  - apply Forall2_length in Hl'. simpl in Hn. lia.
  - clear IH Hwf' Hn. induction Hl' as [|r r' rs rs' Hr _ IH']; [constructor|].
    apply Forall_cons in Hvss as [? ?]. apply Forall_cons in Hss as [? ?].
    constructor; [by eapply validRange_mono | by apply IH'].
Qed.

End ToggleReturns.

(** ** What the buffer installs *)

Lemma from_line_min (r : Range) : line (from r) = Z.min (line (anchor r)) (line (head r)).
Proof.
  unfold from, from_end, cmp.
  destruct (Z.eqb_spec (line (anchor r) - line (head r)) 0);
    repeat match goal with
           | |- context [?a <? ?b] => destruct (Z.ltb_spec a b)
           end; simpl; lia.
Qed.

Lemma to_line_max (r : Range) : line (to r) = Z.max (line (anchor r)) (line (head r)).
Proof.
  unfold to, to_end, cmp.
  destruct (Z.eqb_spec (line (anchor r) - line (head r)) 0);
    repeat match goal with
           | |- context [?a <? ?b] => destruct (Z.ltb_spec a b)
           end; simpl; lia.
Qed.

Lemma clipRange_lines (d : Doc) (r : Range) : validRange d r -> sameLines r (clipRange d r).
Proof.
  intros [Ha Hh]. unfold sameLines, clipRange. cbn [anchor head].
  by rewrite !clipPos_line.
Qed.





Lemma cmp_trans_lt (a b c : Pos) : cmp a b <= 0 -> cmp b c < 0 -> cmp a c < 0.
Proof.
  unfold cmp.
  destruct (Z.eqb_spec (line a - line b) 0); destruct (Z.eqb_spec (line b - line c) 0);
    destruct (Z.eqb_spec (line a - line c) 0); lia.
Qed.

Lemma sortRanges_apart (rs : list Range) : apart rs -> sortRanges rs = rs.
Proof.
  induction rs as [|r [|s rs] IH]; [done | done |].
  intros [Hrs Hrest]. cbn [sortRanges] in *. rewrite (IH Hrest). cbn [insertRange].
  pose proof (cmp_trans_lt _ _ _ (cmp_from_to r) Hrs) as Hlt.
  destruct (Z.ltb_spec (cmp (from s) (from r)) 0); [|done].
  unfold cmp in *.
  destruct (Z.eqb_spec (line (from s) - line (from r)) 0);
    destruct (Z.eqb_spec (line (from r) - line (from s)) 0); lia.
Qed.

Lemma mergeLoop_apart (rs : list Range) :
  forall prev, apart (prev :: rs) -> mergeLoop prev rs = prev :: rs.
Proof.
  induction rs as [|cur rs IH]; intros prev; [done|].
  intros [Hlt Hrest]. cbn [mergeLoop].
  destruct (Z.geb_spec (cmp (to prev) (from cur)) 0); [lia|]. by rewrite IH.
Qed.

(** Ranges that are apart are installed as they are. *)
Lemma normalizeSelection_apart (rs : list Range) : apart rs -> normalizeSelection rs = rs.
Proof.
  intros H. unfold normalizeSelection. rewrite (sortRanges_apart rs H).
  destruct rs as [|r rs]; [done|]. by apply mergeLoop_apart.
Qed.

Lemma linesApart_apart (rs : list Range) : linesApart rs -> apart rs.
Proof.
  induction rs as [|r [|s rs] IH]; [done | done |].
  intros [Hlt Hrest]. split; [|by apply IH].
  unfold cmp. destruct (Z.eqb_spec (line (to r) - line (from s)) 0); lia.
Qed.

Lemma linesApart_sameLines (ss rs : list Range) :
  Forall2 sameLines ss rs -> linesApart ss -> linesApart rs.
Proof.
  induction 1 as [|r r' ss rs Hr Hrest IH]; [done|].
  destruct Hrest as [|s s' ss rs Hs Hrest]; [done|].
  intros [Hlt Hss]. split; [|by apply IH].
  destruct Hr as [Ha Hh], Hs as [Ha' Hh'].
  rewrite to_line_max, from_line_min, Ha, Hh, Ha', Hh', <- to_line_max, <- from_line_min.
  exact Hlt.
Qed.

Lemma clipped_sameLines (d : Doc) (ss rs : list Range) :
  Forall (validRange d) ss ->
  Forall2 sameLines ss rs ->
  Forall2 sameLines ss (map (clipRange d) rs).
Proof.
  intros Hvalid Hlines. induction Hlines as [|r r' ss rs Hr _ IH]; [done|].
  apply Forall_cons in Hvalid as [Hv Hvalid]. cbn [map]. constructor; [|by apply IH].
  eapply sameLines_trans; [exact Hr|]. apply clipRange_lines.
  eapply validRange_mono; [| exact Hr | exact Hv]. lia.
Qed.

(** Selections on lines of their own are installed one for one. *)
Lemma installed_apart (d : Doc) (ss rs : list Range) :
  Forall2 sameLines ss rs ->
  linesApart ss ->
  Forall (validRange d) ss ->
  sels (setSelections d rs) = map (clipRange d) rs.
Proof.
  intros Hlines Hapart Hvalid. cbn [setSelections sels].
  apply normalizeSelection_apart, linesApart_apart.
  eapply linesApart_sameLines; [|exact Hapart]. by apply clipped_sameLines.
Qed.


(** * The editions compared: the claims *)

(** C5, as stated, fails: with the built-in tokens configured, [toggleBold]
    of the library edition unwraps the alternative token "__" where the
    first edition wraps the selection once more. *)
Lemma editions_differ_on_bold :
  Old.toggleBold (mkEditor [L "__abc__"] [span 0 2 0 5])
    = Some (mkEditor [L "__**abc**__"] [span 0 4 0 7])
  /\ Lib.toggleBold builtinOptions (mkEditor [L "__abc__"] [span 0 2 0 5])
    = Some (mkEditor [L "abc"] [span 0 0 0 3])
  /\ Old.toggleBold (mkEditor [L "__abc__"] [span 0 2 0 5])
    <> Lib.toggleBold builtinOptions (mkEditor [L "__abc__"] [span 0 2 0 5]).
Proof.
  split; [vm_compute; reflexivity|]. split; [vm_compute; reflexivity|].
  vm_compute. discriminate.
Qed.

(** C5 (amended): for every initial editor state, the line-prefix
    operations and the code-block operation of the two editions produce the
    same document and the same installed selections, when the library
    edition is configured with the bullet "-" and the fence "```". *)
Theorem editions_agree_on_lines_and_blocks (o : Options) (ed : Editor) (level : nat) :
  unorderedList o = L "-" ->
  codeBlock o = L "```" ->
  Old.setHeadingLevel level ed = Lib.setHeadingLevel level ed
  /\ Old.toggleQuote ed = Lib.toggleQuote ed
  /\ Old.toggleUnorderedList ed = Lib.toggleUnorderedList o ed
  /\ Old.toggleOrderedList ed = Lib.toggleOrderedList ed
  /\ Old.insertCodeBlock ed = Lib.insertCodeBlock o ed.
Proof.
  intros Hu Hc. split; [apply setHeadingLevel_same|].
  split; [apply toggleQuote_same|].
  split; [by apply toggleUnorderedList_same|].
  split; [apply toggleOrderedList_same | by apply insertCodeBlock_same].
Qed.

Lemma editions_agree_on_lines_and_blocks_witness :
  Old.setHeadingLevel 2 (mkEditor [L "1. a"; L "- b"] [span 0 1 1 2])
    = Lib.setHeadingLevel 2 (mkEditor [L "1. a"; L "- b"] [span 0 1 1 2])
  /\ Old.toggleQuote (mkEditor [L "1. a"; L "- b"] [span 0 1 1 2])
    = Lib.toggleQuote (mkEditor [L "1. a"; L "- b"] [span 0 1 1 2])
  /\ Old.toggleUnorderedList (mkEditor [L "1. a"; L "- b"] [span 0 1 1 2])
    = Lib.toggleUnorderedList builtinOptions (mkEditor [L "1. a"; L "- b"] [span 0 1 1 2])
  /\ Old.toggleOrderedList (mkEditor [L "1. a"; L "- b"] [span 0 1 1 2])
    = Lib.toggleOrderedList (mkEditor [L "1. a"; L "- b"] [span 0 1 1 2])
  /\ Old.insertCodeBlock (mkEditor [L "1. a"; L "- b"] [span 0 1 1 2])
    = Lib.insertCodeBlock builtinOptions (mkEditor [L "1. a"; L "- b"] [span 0 1 1 2]).
Proof.
  apply (editions_agree_on_lines_and_blocks builtinOptions
           (mkEditor [L "1. a"; L "- b"] [span 0 1 1 2]) 2); vm_compute; reflexivity.
Defined.

(** * Inline toggles on concrete inputs *)

(** C1, at inputs the editor can hand over.  First edition: with "ab"
    selected from left to right, [toggleBold] wraps the text and installs a
    caret, so the selection denotes the empty text.  Library edition: with
    "a" selected between two bold tokens, [toggleBold] unwraps the text and
    installs a selection that denotes "ax". *)
Theorem inline_toggle_loses_selection :
  (map (selected [L "ab"]) [span 0 0 0 2] = [L "ab"]
   /\ Old.toggleBold (mkEditor [L "ab"] [span 0 0 0 2])
       = Some (mkEditor [L "**ab**"] [span 0 2 0 2])
   /\ map (selected [L "**ab**"]) [span 0 2 0 2] = [L ""])
  /\ (map (selected [L "**a**x"]) [span 0 2 0 3] = [L "a"]
   /\ Lib.toggleBold builtinOptions (mkEditor [L "**a**x"] [span 0 2 0 3])
       = Some (mkEditor [L "ax"] [span 0 2 0 0])
   /\ map (selected [L "ax"]) [span 0 2 0 0] = [L "ax"]).
Proof. repeat split; vm_compute; reflexivity. Qed.

(** The first edition shifts a selection on another line by the tokens
    inserted on the first line. *)
Example first_edition_shifts_other_lines :
  Old.toggleBold (mkEditor [L "abc"; L "def"] [span 0 0 0 3; span 1 0 1 3])
  = Some (mkEditor [L "**abc**"; L "def****"] [span 0 2 0 5; span 1 6 1 7]).
Proof. vm_compute. reflexivity. Qed.

(** * Block templates below the selection *)

(** C3, at inputs the editor can hand over: the separating line feed put
    before the template for the first caret stays in the template, so the
    second caret, on a line with content, gets two of them, and on an empty
    line still gets one. *)
Theorem block_below_accumulates_line_feeds :
  Lib.insertHorizontalLine builtinOptions (mkEditor [L "a"; L "b"] [caret 0 1; caret 1 1])
    = Some ([L "a"; L ""; L "---"; L ""; L ""; L "b"; L ""; L ""; L "---"; L ""; L ""],
            [Lib.mkInsertion (LF :: LF :: L "---" ++ [LF; LF]) (mkPos 0 1);
             Lib.mkInsertion (LF :: LF :: LF :: L "---" ++ [LF; LF]) (mkPos 5 1)])
  /\ Lib.insertHorizontalLine builtinOptions (mkEditor [L "a"; L ""] [caret 0 1; caret 1 0])
    = Some ([L "a"; L ""; L "---"; L ""; L ""; L ""; L ""; L "---"; L ""; L ""],
            [Lib.mkInsertion (LF :: LF :: L "---" ++ [LF; LF]) (mkPos 0 1);
             Lib.mkInsertion (LF :: LF :: L "---" ++ [LF; LF]) (mkPos 5 0)]).
Proof. split; vm_compute; reflexivity. Qed.

(** * Toggling twice *)

Section EditsInOneLine.

Variables (d1 d2 : Doc).
Let i := Z.of_nat (length d1).

Lemma insert_at (x y tok : Line) :
  LF ∉ tok ->
  replaceRange (d1 ++ (x ++ y) :: d2) tok (mkPos i (len x)) None
  = d1 ++ (x ++ tok ++ y) :: d2.
Proof.
  intros Htok. pose proof (len_nonneg x). pose proof (len_nonneg y).
  unfold i. rewrite replaceRange_insert by (rewrite len_app; lia).
  rewrite splitLines_noLF, glue_one by done.
  by rewrite takeZ_app_len, dropZ_app_len.
Qed.

Lemma remove_at (x m y : Line) :
  replaceRange (d1 ++ (x ++ m ++ y) :: d2) [] (mkPos i (len x)) (Some (mkPos i (len x + len m)))
  = d1 ++ (x ++ y) :: d2.
Proof.
  pose proof (len_nonneg x). pose proof (len_nonneg m). pose proof (len_nonneg y).
  unfold i. rewrite replaceRange_within by (rewrite ?len_app; lia).
  change (splitLines []) with [[] : Line]. rewrite glue_one.
  rewrite takeZ_app_len. rewrite <- len_app, (app_assoc x m y), dropZ_app_len. done.
Qed.

Lemma getRange_to_column (x y : Line) :
  getRange (d1 ++ (x ++ y) :: d2) (mkPos i 0) (mkPos i (len x)) = x.
Proof.
  pose proof (len_nonneg x). pose proof (len_nonneg y).
  unfold i. rewrite getRange_within by (rewrite ?len_app; lia).
  by rewrite takeZ_app_len, dropZ_0.
Qed.

Lemma getRange_from_column (x y : Line) :
  getRange (d1 ++ (x ++ y) :: d2) (mkPos i (len x)) (mkPos i (len (x ++ y))) = y.
Proof.
  pose proof (len_nonneg x). pose proof (len_nonneg y).
  unfold i. rewrite getRange_within by (rewrite ?len_app; lia).
  by rewrite takeZ_all, dropZ_app_len.
Qed.



Lemma Lib_prefixToken_at (tok : Line) (alts : list Line) (x y : Line) :
  Lib.prefixToken tok alts (d1 ++ (x ++ y) :: d2) (mkPos i (len x))
  = Lib.findToken (endsWith x) (tok :: alts).
Proof. unfold Lib.prefixToken. cbn [line]. by rewrite getRange_to_column. Qed.

Lemma Lib_suffixToken_at (tok : Line) (alts : list Line) (x y : Line) :
  Lib.suffixToken tok alts (d1 ++ (x ++ y) :: d2) (mkPos i (len x)) (len (x ++ y))
  = Lib.findToken (startsWith y) (tok :: alts).
Proof. unfold Lib.suffixToken. cbn [line]. by rewrite getRange_from_column. Qed.

End EditsInOneLine.

Section Tokens.

Lemma line_eqb_refl (s : Line) : line_eqb s s = true.
Proof. unfold line_eqb. by apply bool_decide_eq_true_2. Qed.

Lemma endsWith_app (x tok : Line) : endsWith (x ++ tok) tok = true.
Proof.
  unfold endsWith. rewrite length_app.
  replace (length x + length tok - length tok)%nat with (length x) by lia.
  rewrite drop_app_length. apply line_eqb_refl.
Qed.

Lemma startsWith_app (tok y : Line) : startsWith (tok ++ y) tok = true.
Proof. unfold startsWith. rewrite take_app_length. apply line_eqb_refl. Qed.



End Tokens.

Section SelectionShapes.

Lemma pos_eqb_refl (p : Pos) : pos_eqb p p = true.
Proof. unfold pos_eqb. by rewrite !Z.eqb_refl. Qed.

(** A well-formed range between two positions of one line is a caret or
    one of the two oriented selections. *)
Lemma range_shapes (r : Range) (F T : Pos) :
  wfRange r -> from r = F -> to r = T -> line F = line T -> ch F <= ch T ->
  (F = T /\ exists s, r = mkRange F F s)
  \/ (ch F < ch T /\ (r = mkRange F T false \/ r = mkRange T F false)).
Proof.
  destruct r as [[al ac] [hl hc] sh]. destruct F as [fl fc], T as [tl tc].
  unfold wfRange, from, to, from_end, to_end, cmp. cbn [anchor head shared line ch get].
  intros Hwf Hf Ht Hl Hc. subst tl.
  destruct (Z.eqb_spec (al - hl) 0);
    destruct (Z.ltb_spec (ac - hc) 0); destruct (Z.gtb_spec (ac - hc) 0);
    destruct (Z.ltb_spec (al - hl) 0); destruct (Z.gtb_spec (al - hl) 0);
    cbn [get anchor head] in Hf, Ht; try lia;
    injection Hf as ? ?; injection Ht as ? ?; subst; try lia.
  all: match goal with
       | |- (mkPos ?l ?a = mkPos ?l ?b /\ _) \/ _ =>
           destruct (Z.eq_dec a b) as [->|Hne];
             [left; split; [done | by exists sh] | right; split; [lia|]]
       end.
  all: assert (sh = false) as ->
    by (destruct sh; [specialize (Hwf eq_refl); injection Hwf as ?; lia | done]).
  all: (by left) || (by right).
Qed.



(** The library edition moves both ends of a selection inside one line by
    [k], as long as the moved end stays behind the start. *)
Lemma Lib_adjustProcessed_forward (l p b k : Z) :
  0 < b -> 0 < b + k ->
  Lib.adjustProcessed (mkRange (mkPos l p) (mkPos l (p + b)) false) k
  = mkRange (mkPos l (p + k)) (mkPos l (p + b + k)) false.
Proof.
  intros Hb Hk. unfold Lib.adjustProcessed, from, to. range_eval.
  all: repeat f_equal; lia.
Qed.

Lemma Lib_adjustProcessed_backward (l p b k : Z) :
  0 < b -> 0 < b + k ->
  Lib.adjustProcessed (mkRange (mkPos l (p + b)) (mkPos l p) false) k
  = mkRange (mkPos l (p + b + k)) (mkPos l (p + k)) false.
Proof.
  intros Hb Hk. unfold Lib.adjustProcessed, from, to. range_eval.
  all: repeat f_equal; lia.
Qed.

Lemma Lib_adjustProcessed_caret (a : Pos) (s : bool) (k : Z) :
  Lib.adjustProcessed (mkRange a a s) k = mkRange (add_ch k a) (add_ch k a) true.
Proof.
  unfold Lib.adjustProcessed, empty. cbn [anchor head]. rewrite pos_eqb_refl.
  unfold head_becomes_anchor. cbn [anchor]. rewrite mut_shared.
  by destruct (from_end _).
Qed.

Lemma clipRange_inside (d : Doc) (r : Range) :
  clipPos d (anchor r) = anchor r -> clipPos d (head r) = head r -> clipRange d r = r.
Proof.
  intros Ha Hh. unfold clipRange. rewrite Ha, Hh, pos_eqb_refl, andb_true_r. by destruct r.
Qed.

End SelectionShapes.

Section ToggleTwice.

Variables (tok : Line) (alts : list Line) (x body y : Line) (d1 d2 : Doc).
Hypothesis tok_nonempty : tok <> [].
Hypothesis tok_noLF : LF ∉ tok.

Let i := Z.of_nat (length d1).







End ToggleTwice.

Section ShiftedRanges.

Lemma from_shiftRange (k : Z) (r : Range) : from (shiftRange k r) = add_ch k (from r).
Proof.
  destruct r as [[al ac] [hl hc] sh]. unfold shiftRange, from, from_end, cmp, add_ch.
  cbn [anchor head line ch].
  destruct (Z.eqb_spec (al - hl) 0);
    destruct (Z.ltb_spec (ac + k - (hc + k)) 0); destruct (Z.ltb_spec (ac - hc) 0);
    destruct (Z.ltb_spec (al - hl) 0); cbn [get anchor head line ch]; try lia; done.
Qed.

Lemma to_shiftRange (k : Z) (r : Range) : to (shiftRange k r) = add_ch k (to r).
Proof.
  destruct r as [[al ac] [hl hc] sh]. unfold shiftRange, to, to_end, cmp, add_ch.
  cbn [anchor head line ch].
  destruct (Z.eqb_spec (al - hl) 0);
    destruct (Z.ltb_spec (ac + k - (hc + k)) 0); destruct (Z.ltb_spec (ac - hc) 0);
    destruct (Z.ltb_spec (al - hl) 0); cbn [get anchor head line ch]; try lia; done.
Qed.



Lemma clipRange_ends (d : Doc) (r : Range) :
  clipPos d (from r) = from r -> clipPos d (to r) = to r -> clipRange d r = r.
Proof.
  intros Hf Ht. apply clipRange_inside;
    destruct (ends_cases r) as [[Ha Hh] | [Ha Hh]]; rewrite ?Ha, ?Hh; done.
Qed.

(** After the library edition's adjustment a caret is one shared object;
    otherwise both ends have moved by [k]. *)
Lemma Lib_adjustProcessed_shift (r : Range) (F T : Pos) (k : Z) :
  wfRange r -> from r = F -> to r = T -> line F = line T -> ch F <= ch T ->
  (ch F < ch T -> 0 < ch T - ch F + k) ->
  Lib.adjustProcessed r k
  = mkRange (add_ch k (anchor r)) (add_ch k (head r)) (empty r).
Proof.
  intros Hwf Hf Ht Hl Hc Hk.
  destruct (range_shapes r F T Hwf Hf Ht Hl Hc) as [[-> [s ->]] | [Hlt [-> | ->]]].
  - rewrite Lib_adjustProcessed_caret. unfold empty. cbn [anchor head].
    by rewrite pos_eqb_refl.
  - destruct F as [fl fc], T as [tl tc]. cbn [line ch] in *. subst tl.
    replace tc with (fc + (tc - fc)) by lia.
    rewrite Lib_adjustProcessed_forward by lia.
    destruct (empty_cases (mkPos fl fc) (mkPos fl (fc + (tc - fc))) false) as [[He _] | [_ ->]].
    + injection He as ?. lia.
    + unfold add_ch. cbn [anchor head line ch]. repeat f_equal; lia.
  - destruct F as [fl fc], T as [tl tc]. cbn [line ch] in *. subst tl.
    replace tc with (fc + (tc - fc)) by lia.
    rewrite Lib_adjustProcessed_backward by lia.
    destruct (empty_cases (mkPos fl (fc + (tc - fc))) (mkPos fl fc) false) as [[He _] | [_ ->]].
    + injection He as ?. lia.
    + unfold add_ch. cbn [anchor head line ch]. repeat f_equal; lia.
Qed.

End ShiftedRanges.

Section TwiceWhole.

Variables (tok : Line) (alts : list Line) (x body y : Line) (d1 d2 : Doc).
Hypothesis tok_nonempty : tok <> [].
Hypothesis tok_noLF : LF ∉ tok.

Let i := Z.of_nat (length d1).

Lemma from_caretShared (r : Range) : from (caretShared r) = from r.
Proof. done. Qed.

Lemma to_caretShared (r : Range) : to (caretShared r) = to r.
Proof. done. Qed.







End TwiceWhole.





Example double_toggle_caret :
  twice (Lib.toggleBold builtinOptions) (mkEditor [L "ab"] [caret 0 1])
  = Some (mkEditor [L "ab"] [caret 0 1]).
Proof. vm_compute. reflexivity. Qed.

(** * A line-prefix rewrite applied twice *)

Section RewrittenTwice.

Lemma spans_sameLines (i : nat) (r r' : Range) : sameLines r r' -> spans i r' = spans i r.
Proof.
  intros [Ha Hh]. unfold spans. by rewrite !from_line_min, !to_line_max, Ha, Hh.
Qed.

Lemma coverage_sameLines (i : nat) (ss rs : list Range) :
  Forall2 sameLines ss rs -> coverage rs i = coverage ss i.
Proof.
  unfold coverage. induction 1 as [|r r' ss rs Hr _ IH]; [done|].
  cbn [List.filter]. rewrite (spans_sameLines i r r' Hr).
  destruct (spans i r); cbn [length]; by rewrite IH.
Qed.

Lemma clipped_lines (d : Doc) (ss rs : list Range) :
  Forall (validRange d) ss ->
  Forall2 sameLines ss rs ->
  Forall2 sameLines ss (map (clipRange d) rs) /\ Forall (validRange d) (map (clipRange d) rs).
Proof.
  intros Hvalid Hlines. induction Hlines as [|r r' ss rs Hr _ IH]; [done|].
  apply Forall_cons in Hvalid as [Hv Hvalid]. destruct (IH Hvalid) as [IH1 IH2].
  assert (validRange d r') as Hv' by (eapply validRange_mono; [| exact Hr | exact Hv]; lia).
  pose proof (clipRange_lines d r' Hv') as Hclip. cbn [map]. split.
  - constructor; [by eapply sameLines_trans | done].
  - constructor; [|done]. eapply validRange_mono; [| exact Hclip | exact Hv']. lia.
Qed.

Variable g : Line -> Line.
Variable f : ReplaceFn.
Hypothesis f_pure : forall d l n, f d l n = Some (d, g l).
Hypothesis g_noLF : forall l, LF ∉ l -> LF ∉ g l.

Lemma iter_noLF (k : nat) (l : Line) : LF ∉ l -> LF ∉ Nat.iter k g l.
Proof. intros Hl. induction k as [|k IH]; [done|]. simpl. by apply g_noLF. Qed.

Lemma iter_twice (k : nat) (l : Line) : g (g l) = l -> Nat.iter k g (Nat.iter k g l) = l.
Proof.
  intros Hl. induction k as [|k IH]; [done|].
  change (g (Nat.iter k g (g (Nat.iter k g l))) = l).
  by rewrite (iter_shift g k (Nat.iter k g l)), IH.
Qed.

(** The operation applied twice, on selections on lines of their own, when
    the rewrite of a selected line undoes itself: the buffer installs the
    selections of the first call one for one, on their lines, so the second
    call rewrites the same lines. *)
Lemma replaceToken_twice (d : Doc) (ss : list Range) :
  Forall (fun l => LF ∉ l) d ->
  Forall wfRange ss ->
  Forall (validRange d) ss ->
  linesApart ss ->
  (forall i l, d !! i = Some l -> (0 < coverage ss i)%nat -> g (g l) = l) ->
  doc <$> twice (Lib.replaceTokenAtLineStart f) (mkEditor d ss) = Some d.
Proof.
  intros Hd Hwf Hvalid Hapart Hback.
  destruct (replaceLoop_pure g f f_pure g_noLF ss d Hd Hvalid)
    as (d1 & rs & Hloop & Hlen & Hlook).
  pose proof (Lib_replaceLoop_lines f ss d d1 rs Hwf Hloop) as Hlines.
  assert (Forall (validRange d1) ss) as Hvalid1.
  { eapply Forall_impl; [exact Hvalid|]. intros r. unfold validRange. by rewrite Hlen. }
  destruct (clipped_lines d1 ss rs Hvalid1 Hlines) as [Hlines' Hvalid'].
  assert (Forall (fun l => LF ∉ l) d1) as Hd1.
  { apply Forall_lookup. intros i l Hi. rewrite Hlook in Hi.
    destruct (d !! i) as [l0|] eqn:Hl0; [|done]. injection Hi as <-.
    apply iter_noLF. by eapply (proj1 (Forall_lookup _ _) Hd). }
  destruct (replaceLoop_pure g f f_pure g_noLF _ d1 Hd1 Hvalid')
    as (d2 & rs2 & Hloop2 & Hlen2 & Hlook2).
  unfold twice, Lib.replaceTokenAtLineStart. cbn [doc sels]. rewrite Hloop.
  cbn [mbind option_bind]. rewrite (installed_apart d1 ss rs Hlines Hapart Hvalid1).
  cbn [setSelections doc]. rewrite Hloop2.
  cbn [mbind option_bind fmap option_fmap option_map setSelections doc]. f_equal.
  apply list_eq. intros i. rewrite Hlook2, Hlook.
  rewrite (coverage_sameLines i ss _ Hlines').
  destruct (d !! i) as [l|] eqn:Hi; [|done]. cbn [fmap option_fmap option_map]. f_equal.
  destruct (coverage ss i) as [|k] eqn:Hk; [done|].
  apply iter_twice. apply (Hback i l Hi). lia.
Qed.

End RewrittenTwice.

(** * Quotes *)

Section Quotes.

Lemma spanLen_run (p : ascii -> bool) (run rest : Line) :
  forallb p run = true -> startsWithChar p rest = false ->
  spanLen p (run ++ rest) = length run.
Proof.
  intros Hrun Hrest. induction run as [|c run IH]; simpl in *.
  - destruct rest as [|c rest]; [done|]. simpl in *. by rewrite Hrest.
  - apply andb_prop in Hrun as [-> Hrun]. by rewrite IH.
Qed.

Lemma spanLen_split (p : ascii -> bool) (l : Line) :
  forallb p (take (spanLen p l) l) = true
  /\ startsWithChar p (drop (spanLen p l) l) = false.
Proof.
  induction l as [|c l IH]; [done|]. simpl. destruct (p c) eqn:Hc; simpl.
  - by rewrite Hc.
  - by rewrite Hc.
Qed.

Lemma quoteLine_noLF (l : Line) : LF ∉ l -> LF ∉ quoteLine l.
Proof.
  intros Hl. unfold quoteLine, replaceMatch. destruct (quoteMatch l) as [k|].
  - apply noLF_app; [apply not_elem_of_nil | by apply noLF_drop].
  - apply noLF_app; [noLF | done].
Qed.

Lemma quoteLine_on (l : Line) :
  startsWithChar (fun c => Ascii.eqb c ">"%char) l = false -> quoteLine l = L "> " ++ l.
Proof.
  intros Hl. unfold quoteLine, quoteMatch. destruct l as [|c l]; [done|].
  simpl in Hl. by rewrite Hl.
Qed.

Lemma quoteLine_off (blanks body : Line) :
  blankRun blanks body -> quoteLine (">"%char :: blanks ++ body) = body.
Proof.
  intros [Hb Hbody]. unfold quoteLine, quoteMatch.
  rewrite (proj2 (Ascii.eqb_eq _ _) eq_refl).
  rewrite spanLen_run by done. simpl. by rewrite drop_app_length.
Qed.

Lemma quoteLine_twice (l : Line) : unquoted l -> quoteLine (quoteLine l) = l.
Proof.
  intros Hl. rewrite (quoteLine_on l).
  - apply (quoteLine_off [" "%char] l). split; [done|].
    destruct l as [|c l]; [done|]. unfold unquoted in Hl. simpl in *.
    by apply orb_false_elim in Hl as [_ ->].
  - destruct l as [|c l]; [done|]. unfold unquoted in Hl. simpl in *.
    by apply orb_false_elim in Hl as [-> _].
Qed.

Lemma toggleQuote_lines (d : Doc) (ss : list Range) :
  Forall (fun l => LF ∉ l) d ->
  Forall (validRange d) ss ->
  exists d' rs,
    Lib.replaceLoop Lib.quoteFn d ss = Some (d', rs)
    /\ length d' = length d
    /\ forall i, d' !! i = Nat.iter (coverage ss i) quoteLine <$> d !! i.
Proof.
  apply (replaceLoop_pure quoteLine Lib.quoteFn (fun _ _ _ => eq_refl) quoteLine_noLF).
Qed.

End Quotes.

Lemma twice_same (f g : Editor -> option Editor) (ed : Editor) :
  (forall e, f e = g e) -> twice f ed = twice g ed.
Proof. intros Hfg. unfold twice. rewrite Hfg. destruct (g ed); [apply Hfg | done]. Qed.

Lemma quoteLine_toggled (l : Line) : quoteToggled l (quoteLine l).
Proof.
  destruct l as [|c r].
  - apply (quote_put []). done.
  - destruct (Ascii.eqb c ">"%char) eqn:Hc.
    + apply Ascii.eqb_eq in Hc as ->.
      destruct (spanLen_split isBlank r) as [Hrun Hrest].
      rewrite <- (take_drop (spanLen isBlank r) r) at 1 2.
      rewrite quoteLine_off by done. by apply quote_taken.
    + rewrite quoteLine_on by (simpl; exact Hc). apply quote_put. simpl. exact Hc.
Qed.

(** [toggleQuote] toggles the quote marker of a line once for every
    selection that spans the line (a line no selection spans stays as it is,
    a line spanned by two selections is toggled on and off again); the
    number of lines is kept; in both editions. *)
Theorem quote_toggles_marker (d : Doc) (ss : list Range) :
  Forall (fun l => LF ∉ l) d ->
  Forall (validRange d) ss ->
  exists d',
    doc <$> Lib.toggleQuote (mkEditor d ss) = Some d'
    /\ doc <$> Old.toggleQuote (mkEditor d ss) = Some d'
    /\ length d' = length d
    /\ forall (i : nat) (l : Line),
         d !! i = Some l ->
         exists l', d' !! i = Some l' /\ rewrittenTimes quoteToggled (coverage ss i) l l'.
Proof.
  intros Hd Hss.
  destruct (toggleQuote_lines d ss Hd Hss) as (d' & rs & Hloop & Hlen & Hlook).
  assert (doc <$> Lib.toggleQuote (mkEditor d ss) = Some d') as Hlib.
  { unfold Lib.toggleQuote, Lib.replaceTokenAtLineStart. simpl. by rewrite Hloop. }
  exists d'. split; [done|]. split; [by rewrite toggleQuote_same|]. split; [done|].
  intros i l Hi. rewrite Hlook, Hi. eexists. split; [done|].
  apply iter_rewrittenTimes, quoteLine_toggled.
Qed.

Lemma quote_toggles_marker_witness :
  exists d',
    doc <$> Lib.toggleQuote (mkEditor [L "a"; L ">  b"; L "c"] [span 0 1 1 2]) = Some d'
    /\ doc <$> Old.toggleQuote (mkEditor [L "a"; L ">  b"; L "c"] [span 0 1 1 2]) = Some d'
    /\ length d' = length [L "a"; L ">  b"; L "c"]
    /\ forall (i : nat) (l : Line),
         [L "a"; L ">  b"; L "c"] !! i = Some l ->
         exists l', d' !! i = Some l'
                    /\ rewrittenTimes quoteToggled (coverage [span 0 1 1 2] i) l l'.
Proof.
  apply (quote_toggles_marker [L "a"; L ">  b"; L "c"] [span 0 1 1 2]).
  - repeat constructor; noLF.
  - repeat constructor; vm_compute; congruence.
Defined.

(** One selection over the first two lines, and two carets on the third,
    which ends as it was. *)
Example quote_toggled_per_selection :
  doc <$> Lib.toggleQuote
            (mkEditor [L "a"; L ">  b"; L "abcd"] [span 0 1 1 2; caret 2 0; caret 2 4])
  = Some [L "> a"; L "b"; L "abcd"].
Proof. vm_compute. reflexivity. Qed.

(** [toggleQuote] applied twice in a row gives the document back, for
    selections on lines of their own, when no selected line starts with the
    quote marker or with a blank; in both editions. *)
Theorem quote_twice_restores (d : Doc) (ss : list Range) :
  Forall (fun l => LF ∉ l) d ->
  Forall wfRange ss ->
  Forall (validRange d) ss ->
  linesApart ss ->
  (forall i l, d !! i = Some l -> (0 < coverage ss i)%nat -> unquoted l) ->
  doc <$> twice Lib.toggleQuote (mkEditor d ss) = Some d
  /\ doc <$> twice Old.toggleQuote (mkEditor d ss) = Some d.
Proof.
  intros Hd Hwf Hss Hapart Hplain.
  assert (doc <$> twice Lib.toggleQuote (mkEditor d ss) = Some d) as Hlib.
  { apply (replaceToken_twice quoteLine Lib.quoteFn (fun _ _ _ => eq_refl) quoteLine_noLF);
      try done.
    intros i l Hi Hcov. apply quoteLine_twice. by apply (Hplain i). }
  split; [done|]. by rewrite (twice_same _ _ _ toggleQuote_same).
Qed.

Lemma quote_twice_restores_witness :
  doc <$> twice Lib.toggleQuote (mkEditor [L "a"; L "b"; L "> c"] [span 0 1 0 0; caret 1 0])
    = Some [L "a"; L "b"; L "> c"]
  /\ doc <$> twice Old.toggleQuote (mkEditor [L "a"; L "b"; L "> c"] [span 0 1 0 0; caret 1 0])
    = Some [L "a"; L "b"; L "> c"].
Proof.
  apply (quote_twice_restores [L "a"; L "b"; L "> c"] [span 0 1 0 0; caret 1 0]).
  - repeat constructor; noLF.
  - repeat constructor; by unfold wfRange.
  - repeat constructor; vm_compute; congruence.
  - vm_compute. done.
  - intros [|[|[|i]]] l Hi Hcov; simpl in Hi; try discriminate;
      try (injection Hi as <-; reflexivity).
    vm_compute in Hcov. lia.
Defined.

(** Two carets on one line: the first call moves both onto one column, the
    buffer merges them, and the second call puts the marker on. *)
Example quote_twice_merged_carets :
  twice Lib.toggleQuote (mkEditor [L "abcd"] [caret 0 0; caret 0 4])
  = Some (mkEditor [L "> abcd"] [span 0 4 0 4]).
Proof. vm_compute. reflexivity. Qed.

(** A line that starts with a blank does not come back: the blanks go with
    the marker. *)
Example quote_twice_eats_blanks :
  doc <$> twice Lib.toggleQuote (mkEditor [L "  a"] [caret 0 0]) = Some [L "a"].
Proof. reflexivity. Qed.

(** * Unordered lists *)

Section UnorderedLists.

Lemma spanLen_stop (p : ascii -> bool) (run : Line) (c : ascii) (rest : Line) :
  forallb p run = true -> p c = false -> spanLen p (run ++ c :: rest) = length run.
Proof. intros Hrun Hc. apply spanLen_run; [done|]. simpl. exact Hc. Qed.

Lemma unorderedMatch_bullet (b : ascii) (blanks body : Line) :
  isBullet b = true -> blanks <> [] -> blankRun blanks body ->
  unorderedMatch (b :: blanks ++ body) = Some (1 + length blanks)%nat.
Proof.
  intros Hb Hne [Hrun Hbody]. unfold unorderedMatch.
  rewrite spanLen_run, Hb by done. by destruct blanks.
Qed.

Lemma unorderedMatch_item (l : Line) : is_Some (unorderedMatch l) -> bulletItem l.
Proof.
  unfold unorderedMatch. destruct l as [|c r]; [by intros [? ?]|].
  destruct (isBullet c) eqn:Hc; [|by intros [? ?]].
  destruct (spanLen isBlank r) as [|n] eqn:Hn; [by intros [? ?]|]. intros _.
  destruct (spanLen_split isBlank r) as [Hrun Hrest].
  exists c, (take (spanLen isBlank r) r), (drop (spanLen isBlank r) r).
  rewrite take_drop. split; [done|]. split; [done|]. split; [|done].
  rewrite Hn. destruct r; [done|]. simpl. discriminate.
Qed.

Lemma orderedMatch_numbered (digits blanks body : Line) :
  digits <> [] -> forallb isDigit digits = true -> blanks <> [] -> blankRun blanks body ->
  orderedMatch (digits ++ "."%char :: blanks ++ body)
  = Some (length digits + 1 + length blanks)%nat.
Proof.
  intros Hne Hdigits Hbl [Hrun Hbody]. unfold orderedMatch.
  rewrite spanLen_stop by done. rewrite drop_app_length.
  rewrite spanLen_run by done.
  destruct digits; [done|]. by destruct blanks.
Qed.

Lemma orderedMatch_item (l : Line) : is_Some (orderedMatch l) -> numberedItem l.
Proof.
  unfold orderedMatch.
  destruct (spanLen_split isDigit l) as [Hdigits Hrest].
  pose proof (take_drop (spanLen isDigit l) l) as Hl.
  destruct (drop (spanLen isDigit l) l) as [|c r] eqn:Hdrop; [by intros [? ?]|].
  destruct (isDot c) eqn:Hc; [|by intros [? ?]].
  destruct (spanLen isDigit l) as [|nd] eqn:Hnd; [by intros [? ?]|].
  destruct (spanLen isBlank r) as [|nb] eqn:Hnb; [by intros [? ?]|]. intros _.
  destruct (spanLen_split isBlank r) as [Hrun Hbody].
  exists (take (S nd) l), (take (spanLen isBlank r) r), (drop (spanLen isBlank r) r).
  rewrite take_drop. unfold isDot in Hc. apply Ascii.eqb_eq in Hc as ->.
  split; [done|]. split.
  { destruct l; [done|]. simpl. discriminate. }
  split; [done|]. split; [|done].
  rewrite Hnb. destruct r; [done|]. simpl. discriminate.
Qed.

Lemma unorderedMatch_digit (digits rest : Line) :
  digits <> [] -> forallb isDigit digits = true -> unorderedMatch (digits ++ rest) = None.
Proof.
  intros Hne Hd. destruct digits as [|c digits]; [done|]. simpl in *.
  apply andb_prop in Hd as [Hc _].
  assert (isBullet c = false) as ->; [|done].
  unfold isBullet, isDigit in *.
  destruct (Ascii.eqb_spec c "*") as [->|_]; [done|].
  destruct (Ascii.eqb_spec c "-") as [->|_]; done.
Qed.

Variable o : Options.
Hypothesis token_noLF : LF ∉ unorderedList o.

Lemma unorderedLine_noLF (l : Line) : LF ∉ l -> LF ∉ unorderedLine o l.
Proof.
  intros Hl. unfold unorderedLine, replaceMatch.
  assert (LF ∉ unorderedList o ++ L " ") as Hpref by (apply noLF_app; [done | noLF]).
  destruct (unorderedMatch l) as [k|].
  - apply noLF_app; [apply not_elem_of_nil | by apply noLF_drop].
  - destruct (orderedMatch l) as [k|]; (apply noLF_app; [done|]); [by apply noLF_drop | done].
Qed.

Lemma unorderedLine_off (b : ascii) (blanks body : Line) :
  isBullet b = true -> blanks <> [] -> blankRun blanks body ->
  unorderedLine o (b :: blanks ++ body) = body.
Proof.
  intros Hb Hne Hrun. unfold unorderedLine.
  rewrite unorderedMatch_bullet by done. unfold replaceMatch.
  change (b :: blanks ++ body) with ([b] ++ blanks ++ body).
  rewrite app_assoc, drop_app_length'; [done|]. rewrite length_app. simpl. lia.
Qed.

Lemma unorderedLine_convert (digits blanks body : Line) :
  digits <> [] -> forallb isDigit digits = true -> blanks <> [] -> blankRun blanks body ->
  unorderedLine o (digits ++ "."%char :: blanks ++ body) = unorderedList o ++ L " " ++ body.
Proof.
  intros Hne Hd Hbl Hrun. unfold unorderedLine.
  rewrite unorderedMatch_digit, orderedMatch_numbered by done. unfold replaceMatch.
  rewrite <- app_assoc. do 2 f_equal.
  change (digits ++ "."%char :: blanks ++ body) with (digits ++ ["."%char] ++ blanks ++ body).
  rewrite !app_assoc, drop_app_length'; [done|]. rewrite !length_app. simpl. lia.
Qed.

Lemma unorderedLine_on (l : Line) :
  ~ bulletItem l -> ~ numberedItem l -> unorderedLine o l = unorderedList o ++ L " " ++ l.
Proof.
  intros Hb Hn. unfold unorderedLine.
  destruct (unorderedMatch l) eqn:Hu; [destruct Hb; by apply unorderedMatch_item|].
  destruct (orderedMatch l) eqn:Ho; [destruct Hn; by apply orderedMatch_item|].
  by rewrite <- app_assoc.
Qed.

Lemma toggleUnorderedList_lines (d : Doc) (ss : list Range) :
  Forall (fun l => LF ∉ l) d ->
  Forall (validRange d) ss ->
  exists d' rs,
    Lib.replaceLoop (Lib.unorderedFn o) d ss = Some (d', rs)
    /\ length d' = length d
    /\ forall i, d' !! i = Nat.iter (coverage ss i) (unorderedLine o) <$> d !! i.
Proof.
  apply (replaceLoop_pure (unorderedLine o) (Lib.unorderedFn o) (fun _ _ _ => eq_refl)
           unorderedLine_noLF).
Qed.

Lemma unorderedLine_twice (b : ascii) (l : Line) :
  unorderedList o = [b] -> isBullet b = true ->
  ~ bulletItem l -> ~ numberedItem l -> startsWithChar isBlank l = false ->
  unorderedLine o (unorderedLine o l) = l.
Proof.
  intros Ho Hb Hnb Hnn Hl. rewrite (unorderedLine_on l) by done. rewrite Ho.
  apply (unorderedLine_off b [" "%char] l); done.
Qed.

End UnorderedLists.

Lemma not_bulletItem (l : Line) : unorderedMatch l = None -> ~ bulletItem l.
Proof.
  intros Hl (b & blanks & body & -> & Hb & Hne & Hrun).
  by rewrite unorderedMatch_bullet in Hl.
Qed.

Lemma not_numberedItem (l : Line) : orderedMatch l = None -> ~ numberedItem l.
Proof.
  intros Hl (digits & blanks & body & -> & Hne & Hd & Hbl & Hrun).
  by rewrite orderedMatch_numbered in Hl.
Qed.

Lemma literalText_noLF (t : Line) : literalText t -> LF ∉ t.
Proof.
  unfold literalText. induction t as [|c t IH]; [intros _; apply not_elem_of_nil|].
  cbn [forallb]. intros [Hc Ht]%andb_prop [Heq|Hin]%elem_of_cons; [|by apply IH].
  subst c. discriminate.
Qed.

Lemma unorderedLine_toggled (o : Options) (l : Line) :
  bulletToggled o l (unorderedLine o l).
Proof.
  destruct (unorderedMatch l) as [k|] eqn:Hu.
  - destruct (unorderedMatch_item l) as (b & blanks & body & -> & Hb & Hne & Hrun);
      [by eexists|].
    rewrite (unorderedLine_off o b blanks body) by done. by apply bullet_taken.
  - destruct (orderedMatch l) as [k|] eqn:Ho.
    + destruct (orderedMatch_item l) as (digits & blanks & body & -> & Hne & Hd & Hbl & Hrun);
        [by eexists|].
      rewrite (unorderedLine_convert o digits blanks body) by done.
      by apply number_replaced.
    + rewrite (unorderedLine_on o l) by (by apply not_bulletItem || by apply not_numberedItem).
      apply bullet_put; [by apply not_bulletItem | by apply not_numberedItem].
Qed.

(** [toggleUnorderedList], with a preferred bullet that stands for itself
    as a replacement text, toggles the bullet marker of a line once for every
    selection that spans the line (a line no selection spans stays as it is,
    a plain line spanned by two selections gets the bullet and loses it
    again); the number of lines is kept. *)
Theorem unordered_list_toggles_marker (o : Options) (d : Doc) (ss : list Range) :
  literalText (unorderedList o) ->
  Forall (fun l => LF ∉ l) d ->
  Forall (validRange d) ss ->
  exists d',
    doc <$> Lib.toggleUnorderedList o (mkEditor d ss) = Some d'
    /\ length d' = length d
    /\ forall (i : nat) (l : Line),
         d !! i = Some l ->
         exists l', d' !! i = Some l' /\ rewrittenTimes (bulletToggled o) (coverage ss i) l l'.
Proof.
  intros Hbullet Hd Hss. pose proof (literalText_noLF _ Hbullet) as Ho.
  destruct (toggleUnorderedList_lines o Ho d ss Hd Hss) as (d' & rs & Hloop & Hlen & Hlook).
  exists d'. split; [|split; [done|]].
  { unfold Lib.toggleUnorderedList, Lib.replaceTokenAtLineStart. simpl. by rewrite Hloop. }
  intros i l Hi. rewrite Hlook, Hi. eexists. split; [done|].
  apply iter_rewrittenTimes, unorderedLine_toggled.
Qed.

Lemma unordered_list_toggles_marker_witness :
  exists d',
    doc <$> Lib.toggleUnorderedList builtinOptions
              (mkEditor [L "a"; L "*  b"; L "12. c"; L "d"] [span 0 0 2 1]) = Some d'
    /\ length d' = length [L "a"; L "*  b"; L "12. c"; L "d"]
    /\ forall (i : nat) (l : Line),
         [L "a"; L "*  b"; L "12. c"; L "d"] !! i = Some l ->
         exists l', d' !! i = Some l'
                    /\ rewrittenTimes (bulletToggled builtinOptions)
                         (coverage [span 0 0 2 1] i) l l'.
Proof.
  apply (unordered_list_toggles_marker builtinOptions
           [L "a"; L "*  b"; L "12. c"; L "d"] [span 0 0 2 1]).
  - reflexivity.
  - repeat constructor; noLF.
  - repeat constructor; vm_compute; congruence.
Defined.

(** One selection over three lines and two carets on the fourth, which
    ends as it was. *)
Example unordered_list_toggled_per_selection :
  doc <$> Lib.toggleUnorderedList builtinOptions
            (mkEditor [L "a"; L "*  b"; L "12. c"; L "d"] [span 0 0 2 1; caret 3 0; caret 3 1])
  = Some [L "- a"; L "b"; L "- c"; L "d"].
Proof. vm_compute. reflexivity. Qed.

(** [toggleUnorderedList] applied twice in a row gives the document back,
    for selections on lines of their own, when the preferred bullet is one
    the engine recognises ([*] or [-]) and no selected line is a list item or
    starts with a blank. *)
Theorem unordered_list_twice_restores (o : Options) (b : ascii) (d : Doc) (ss : list Range) :
  unorderedList o = [b] ->
  isBullet b = true ->
  Forall (fun l => LF ∉ l) d ->
  Forall wfRange ss ->
  Forall (validRange d) ss ->
  linesApart ss ->
  (forall i l, d !! i = Some l -> (0 < coverage ss i)%nat ->
               ~ bulletItem l /\ ~ numberedItem l /\ startsWithChar isBlank l = false) ->
  doc <$> twice (Lib.toggleUnorderedList o) (mkEditor d ss) = Some d.
Proof.
  intros Ho Hb Hd Hwf Hss Hapart Hplain.
  assert (LF ∉ unorderedList o) as HLF.
  { rewrite Ho. intros Hin. apply list_elem_of_singleton in Hin as <-. done. }
  apply (replaceToken_twice (unorderedLine o) (Lib.unorderedFn o) (fun _ _ _ => eq_refl)
           (unorderedLine_noLF o HLF)); try done.
  intros i l Hi Hcov. destruct (Hplain i l Hi Hcov) as (Hnb & Hnn & Hl).
  by apply (unorderedLine_twice o b).
Qed.

Lemma unordered_list_twice_restores_witness :
  doc <$> twice (Lib.toggleUnorderedList builtinOptions)
            (mkEditor [L "a"; L "b"; L "- c"] [span 0 1 0 0; caret 1 0])
  = Some [L "a"; L "b"; L "- c"].
Proof.
  apply (unordered_list_twice_restores builtinOptions "-"%char
           [L "a"; L "b"; L "- c"] [span 0 1 0 0; caret 1 0]).
  - reflexivity.
  - reflexivity.
  - repeat constructor; noLF.
  - repeat constructor; by unfold wfRange.
  - repeat constructor; vm_compute; congruence.
  - vm_compute. done.
  - intros [|[|[|i]]] l Hi Hcov; simpl in Hi; try discriminate.
    + injection Hi as <-. split; [by apply not_bulletItem|].
      split; [by apply not_numberedItem | reflexivity].
    + injection Hi as <-. split; [by apply not_bulletItem|].
      split; [by apply not_numberedItem | reflexivity].
    + vm_compute in Hcov. lia.
Defined.

(** Two carets on one line: the first call leaves the line as it was and
    both carets on one column, the buffer merges them, and the second call
    puts the bullet on. *)
Example unordered_list_twice_merged_carets :
  doc <$> twice (Lib.toggleUnorderedList builtinOptions)
            (mkEditor [L "abcd"] [caret 0 0; caret 0 4])
  = Some [L "- abcd"].
Proof. vm_compute. reflexivity. Qed.

(** With a preferred bullet the engine does not recognise, the second
    application adds a second marker. *)
Example unordered_list_unrecognised_bullet :
  doc <$> twice (Lib.toggleUnorderedList
                   (mkOptions (L "**") (L "*") (L "+") (L "```") (L "---")
                      (L "[", L "](https://)") (L "![", L "](https://)") (TableSize 2 2)))
            (mkEditor [L "a"] [caret 0 0])
  = Some [L "+ + a"].
Proof. reflexivity. Qed.

(** * Numbers written and read back *)

Section Numerals.

Lemma pos_size_nat_gt (p : positive) : (N.pos p < 2 ^ N.of_nat (Pos.size_nat p))%N.
Proof.
  induction p as [p IH|p IH|]; cbn [Pos.size_nat].
  - rewrite Nat2N.inj_succ, N.pow_succ_r'. lia.
  - rewrite Nat2N.inj_succ, N.pow_succ_r'. lia.
  - done.
Qed.

Lemma size_nat_gt (n : N) : (n < 2 ^ N.of_nat (N.size_nat n))%N.
Proof. destruct n as [|p]; [done | apply pos_size_nat_gt]. Qed.

Lemma digitChar_value (m : N) : (m < 10)%N -> (N_of_ascii (digitChar m) - 48 = m)%N.
Proof.
  intros Hm. unfold digitChar. rewrite N_ascii_embedding by lia. lia.
Qed.

Lemma digitChar_isDigit (m : N) : (m < 10)%N -> isDigit (digitChar m) = true.
Proof.
  intros Hm.
  assert (m = 0 \/ m = 1 \/ m = 2 \/ m = 3 \/ m = 4 \/ m = 5 \/ m = 6 \/ m = 7
          \/ m = 8 \/ m = 9)%N as H by lia.
  repeat (destruct H as [->|H]; [reflexivity|]). by subst.
Qed.

Lemma parseN_snoc (ds : Line) (c : ascii) :
  parseN (ds ++ [c]) = (10 * parseN ds + (N_of_ascii c - 48))%N.
Proof. unfold parseN. by rewrite fold_left_app. Qed.

(** The digits are written in front of the text gathered so far. *)
Lemma showDigits_digits (fuel : nat) : forall (n : N) (acc : Line),
  (n < 2 ^ N.of_nat fuel)%N ->
  exists ds,
    showDigits (S fuel) n acc = ds ++ acc
    /\ parseN ds = n /\ forallb isDigit ds = true /\ ds <> [].
Proof.
  induction fuel as [|fuel IH]; intros n acc Hn.
  - assert (n = 0%N) as -> by (simpl in Hn; lia). by exists [digitChar 0].
  - cbn [showDigits]. pose proof (N.mod_lt n 10) as Hmod.
    destruct (N.eqb_spec (n / 10) 0) as [Hdiv|Hdiv].
    + exists [digitChar (n mod 10)]. split; [done|].
      split; [|split; [|done]].
      * unfold parseN. cbn [fold_left]. rewrite digitChar_value by lia.
        pose proof (N.div_mod n 10). lia.
      * cbn [forallb]. rewrite digitChar_isDigit by lia. done.
    + destruct (IH (n / 10)%N (digitChar (n mod 10) :: acc)) as (ds & Hshow & Hparse & Hds & Hne).
      { rewrite Nat2N.inj_succ, N.pow_succ_r' in Hn.
        apply N.Div0.div_lt_upper_bound. lia. }
      cbn [showDigits] in Hshow.
      destruct (N.eqb_spec (n / 10 / 10) 0) as [Hdd|Hdd].
      * exists (ds ++ [digitChar (n mod 10)]). rewrite <- app_assoc. split; [exact Hshow|].
        split; [|split].
        -- rewrite parseN_snoc, Hparse, digitChar_value by lia.
           pose proof (N.div_mod n 10). lia.
        -- rewrite forallb_app, Hds. cbn [forallb]. by rewrite digitChar_isDigit by lia.
        -- by destruct ds.
      * exists (ds ++ [digitChar (n mod 10)]). rewrite <- app_assoc. split; [exact Hshow|].
        split; [|split].
        -- rewrite parseN_snoc, Hparse, digitChar_value by lia.
           pose proof (N.div_mod n 10). lia.
        -- rewrite forallb_app, Hds. cbn [forallb]. by rewrite digitChar_isDigit by lia.
        -- by destruct ds.
Qed.

Lemma showN_digits (n : N) :
  parseN (showN n) = n /\ forallb isDigit (showN n) = true /\ showN n <> [].
Proof.
  destruct (showDigits_digits (N.size_nat n) n [] (size_nat_gt n)) as (ds & Hshow & H).
  unfold showN. rewrite Hshow, app_nil_r. exact H.
Qed.

(** Below 2^53 the engine's numbers are the natural numbers. *)
Lemma toNumber_exact (x : N) : (x < 2 ^ 53)%N -> toNumber x = x.
Proof.
  intros Hx. unfold toNumber.
  assert (N.size x <= 53)%N as Hsize.
  { pose proof (N.size_le x) as Hle. rewrite N.succ_double_spec in Hle.
    assert (2 ^ N.size x < 2 ^ 54)%N as Hlt.
    { change (2 ^ 54)%N with (2 * 2 ^ 53)%N. lia. }
    apply N.pow_lt_mono_r_iff in Hlt; lia. }
  cbv zeta. by rewrite (proj2 (N.leb_le _ _) Hsize).
Qed.

Lemma increment_exact (x : N) : (x + 1 < 2 ^ 53)%N -> increment x = (x + 1)%N.
Proof. intros Hx. unfold increment. by apply toNumber_exact. Qed.

Lemma showNumber_exact (x : N) : (x < 2 ^ 53)%N -> showNumber x = showN x.
Proof. intros Hx. unfold showNumber. by rewrite (proj2 (N.ltb_lt _ _) Hx). Qed.

Lemma fold_decimalValue (digits : Line) : forall acc : N,
  fold_left (fun acc c => (10 * acc + (N_of_ascii c - 48))%N) digits acc
  = (acc * 10 ^ N.of_nat (length digits) + decimalValue digits)%N.
Proof.
  induction digits as [|c digits IH]; intros acc.
  - cbn [fold_left length decimalValue N.of_nat]. rewrite N.pow_0_r. lia.
  - cbn [fold_left length decimalValue]. rewrite IH, Nat2N.inj_succ, N.pow_succ_r'.
    unfold digitValue. lia.
Qed.

(** The digits are read by their place values. *)
Lemma parseN_decimalValue (digits : Line) : parseN digits = decimalValue digits.
Proof. unfold parseN. rewrite fold_decimalValue. lia. Qed.

(** Counted exactly, the forward scan numbers the run [n + 1], [n + 2],
    ... *)
Lemma renumber_exact (ls : Doc) : forall n : N,
  (n + N.of_nat (length ls) < 2 ^ 53)%N -> renumber n ls = numberedOn n ls.
Proof.
  induction ls as [|l ls IH]; intros n Hn; [done|].
  cbn [renumber numberedOn]. cbn [length] in Hn. rewrite Nat2N.inj_succ in Hn.
  destruct (bool_decide (is_Some (orderedMatch l))); [|done].
  rewrite increment_exact, showNumber_exact by lia. f_equal. apply IH. lia.
Qed.

End Numerals.

(** The numbers of the engine at and beyond 2^53: read, counted up and
    printed. *)
Example numbers_rounded :
  parseNumber (L "9007199254740993") = 9007199254740992%N
  /\ increment 9007199254740992 = 9007199254740992%N
  /\ parseNumber (L "9007199254740995") = 9007199254740996%N
  /\ increment 9007199254740994 = 9007199254740996%N
  /\ increment infinity = infinity.
Proof. repeat split; vm_compute; reflexivity. Qed.

Example numbers_printed :
  showNumber 9007199254740992 = L "9007199254740992"
  /\ showNumber (2 ^ 63) = L "9223372036854776000"
  /\ showNumber (parseNumber (L "123456789012345678901")) = L "123456789012345680000"
  /\ showNumber (10 ^ 21) = L "1e+21"
  /\ showNumber (parseNumber (L "1234567890123456789012345")) = L "1.2345678901234568e+24"
  /\ showNumber infinity = L "Infinity".
Proof. repeat split; vm_compute; reflexivity. Qed.

(** * Numbering a block of lines *)

Section NumberedBlocks.

Lemma digit_not_dot (c : ascii) : isDigit c = true -> negb (isDot c) = true.
Proof.
  unfold isDot. destruct (Ascii.eqb_spec c ".") as [->|_]; [discriminate | done].
Qed.

Lemma forallb_impl (p q : ascii -> bool) (s : Line) :
  (forall c, p c = true -> q c = true) -> forallb p s = true -> forallb q s = true.
Proof.
  intros Hpq. induction s as [|c s IH]; [done|]. cbn [forallb].
  intros [Hc Hs]%andb_prop. by rewrite (Hpq c Hc), IH.
Qed.

Lemma not_numbered_plain (l : Line) : ~ numberedItem l -> orderedMatch l = None.
Proof.
  intros Hl. destruct (orderedMatch l) as [k|] eqn:E; [|done].
  destruct Hl. apply orderedMatch_item. by eexists.
Qed.

(** The number the engine reads from the line above. *)
Lemma nextNumber_after (pre : Doc) (n : N) :
  numberAfter pre n -> (n < 2 ^ 53)%N -> nextNumber pre = n.
Proof.
  unfold numberAfter, nextNumber. destruct (last pre) as [prev|]; [|done].
  intros [[Hplain ->] | (digits & blanks & body & -> & Hne & Hdigits & Hbl & Hrun & ->)] Hn.
  - by rewrite not_numbered_plain.
  - rewrite orderedMatch_numbered by done.
    assert (dotPos (digits ++ "."%char :: blanks ++ body) = length digits) as ->.
    { unfold dotPos. apply spanLen_stop; [|done].
      eapply forallb_impl; [|exact Hdigits]. apply digit_not_dot. }
    rewrite take_app_length. unfold parseNumber.
    rewrite parseN_decimalValue, toNumber_exact by lia. by apply increment_exact.
Qed.

(** The marker the engine has written is the marker it reads. *)
Lemma nextNumber_written (pre : Doc) (n : N) (body : Line) :
  (n + 1 < 2 ^ 53)%N ->
  nextNumber (pre ++ [showN n ++ L ". " ++ body]) = (n + 1)%N.
Proof.
  intros Hn. destruct (showN_digits n) as (Hparse & Hdigits & Hne).
  unfold nextNumber. rewrite last_snoc.
  assert (dotPos (showN n ++ L ". " ++ body) = length (showN n)) as Hdot.
  { unfold dotPos. apply spanLen_stop; [|done].
    eapply forallb_impl; [|exact Hdigits]. apply digit_not_dot. }
  assert (is_Some (orderedMatch (showN n ++ L ". " ++ body))) as [k ->].
  { unfold orderedMatch.
    change (showN n ++ L ". " ++ body) with (showN n ++ "."%char :: " "%char :: body).
    rewrite (spanLen_stop isDigit (showN n) "."%char (" "%char :: body)) by done.
    rewrite drop_app_length. cbn [spanLen isBlank Ascii.eqb Bool.eqb orb].
    destruct (showN n); [done|]. by eexists. }
  rewrite Hdot, take_app_length. unfold parseNumber.
  rewrite Hparse, toNumber_exact by lia. by apply increment_exact.
Qed.

Lemma withoutBullet_noLF (l : Line) : LF ∉ l -> LF ∉ withoutBullet l.
Proof.
  intros Hl. unfold withoutBullet. destruct (unorderedMatch l); [by apply noLF_drop | done].
Qed.

Lemma renumber_stops (n : N) (l : Line) (ls : Doc) :
  orderedMatch l = None -> renumber n (l :: ls) = l :: ls.
Proof.
  intros Hl. cbn [renumber]. rewrite Hl.
  by rewrite (bool_decide_eq_false_2 (is_Some None)) by (by intros [? ?]).
Qed.

(** The lines of one selection, none of them a numbered item yet. *)
Lemma rewriteLines_numbers (rest : Doc) : forall (l : Line) (pre post : Doc) a b sf st n,
  Forall (fun l => LF ∉ l) (l :: rest) ->
  Forall (fun l => orderedMatch l = None) (l :: rest) ->
  nextNumber pre = n ->
  (n + N.of_nat (length rest) + N.of_nat (length post) < 2 ^ 53)%N ->
  exists sf' st',
    Lib.rewriteLines Lib.orderedFn (length (l :: rest)) (Z.of_nat (length pre)) a b
      (pre ++ (l :: rest) ++ post) sf st
    = Some (pre ++ numberLines n (l :: rest)
                ++ numberedOn (n + N.of_nat (length rest)) post,
            sf', st').
Proof.
  induction rest as [|l2 rest IH]; intros l pre post a b sf st n Hlf Hplain Hn Hbound;
    apply Forall_cons in Hlf as [Hl Hlf]; apply Forall_cons in Hplain as [Hp Hplain].
  - cbn [length N.of_nat] in Hbound.
    cbn [length Lib.rewriteLines app]. rewrite getLine_middle. cbn [mbind option_bind].
    rewrite orderedFn_on by done. cbn [mbind option_bind].
    rewrite Hn, showNumber_exact, renumber_exact by lia.
    rewrite replaceRange_line
      by (apply noLF_app; [apply showN_noLF|]; apply noLF_app; [noLF|];
          by apply withoutBullet_noLF).
    cbn [numberLines app N.of_nat]. rewrite N.add_0_r. eauto.
  - cbn [length] in Hbound. rewrite Nat2N.inj_succ in Hbound.
    set (new := showN n ++ L ". " ++ withoutBullet l).
    assert (nextNumber (pre ++ [new]) = (n + 1)%N) as Hnext
      by (apply nextNumber_written; lia).
    destruct (IH l2 (pre ++ [new]) post a b
                (if Z.of_nat (length pre) =? a then len new - len l else sf)
                (if Z.of_nat (length pre) =? b then len new - len l else st)
                (n + 1)%N Hlf Hplain Hnext ltac:(lia)) as (sf' & st' & Hrun).
    rewrite length_app in Hrun. cbn [length] in Hrun.
    replace (Z.of_nat (length pre + 1)) with (Z.of_nat (length pre) + 1) in Hrun by lia.
    rewrite <- !app_assoc in Hrun. cbn [app] in Hrun.
    change (length (l :: l2 :: rest)) with (S (length (l2 :: rest))).
    remember (length (l2 :: rest)) as m eqn:Hm.
    cbn [Lib.rewriteLines app]. rewrite getLine_middle. cbn [mbind option_bind].
    rewrite orderedFn_on by done. cbn [mbind option_bind].
    rewrite Hn, showNumber_exact by lia.
    rewrite replaceRange_line
      by (apply noLF_app; [apply showN_noLF|]; apply noLF_app; [noLF|];
          by apply withoutBullet_noLF).
    rewrite renumber_stops by (by apply Forall_inv in Hplain).
    fold new. subst m. cbn [length]. cbn [length] in Hrun. rewrite Hrun.
    exists sf', st'. do 2 f_equal. cbn [numberLines app]. fold new.
    rewrite N.add_1_r.
    replace (n + N.of_nat (S (length rest)))%N
      with (N.succ n + N.of_nat (length rest))%N by lia.
    done.
Qed.

Lemma unbulleted_withoutBullet (l body : Line) : unbulleted l body -> withoutBullet l = body.
Proof.
  intros [b blanks body' Hb Hne Hrun | l' Hl]; unfold withoutBullet.
  - rewrite unorderedMatch_bullet by done.
    change (b :: blanks ++ body') with ([b] ++ blanks ++ body').
    rewrite app_assoc. apply drop_app_length'. rewrite length_app. simpl. lia.
  - destruct (unorderedMatch l') as [k|] eqn:E; [|done].
    destruct Hl. apply unorderedMatch_item. by eexists.
Qed.

End NumberedBlocks.

(** C6, as stated, fails beyond the numbers the engine counts exactly:
    below an item numbered 9007199254740993 (2^53 + 1) the new item and the
    item after it are both numbered 9007199254740992, not 9007199254740994
    and 9007199254740995. *)
Lemma ordered_on_rounds_large_numbers :
  doc <$> Lib.toggleOrderedList
            (mkEditor [L "9007199254740993. a"; L ""; L "1. b"] [caret 1 0])
    = Some [L "9007199254740993. a"; L "9007199254740992. "; L "9007199254740992. b"]
  /\ doc <$> Lib.toggleOrderedList
              (mkEditor [L "9007199254740993. a"; L ""; L "1. b"] [caret 1 0])
    <> Some [L "9007199254740993. a"; L "9007199254740994. "; L "9007199254740995. b"].
Proof. split; [vm_compute; reflexivity | vm_compute; discriminate]. Qed.

(** C6 (amended): for a line that does not start with an ordered-list
    marker, [toggleOrderedList] with a selection on that line prepends the
    marker of number n (in place of a bullet marker, if the line has one),
    where n is 1 unless the previous line is an ordered-list item and that
    item's number plus 1 otherwise, and renumbers the contiguous
    ordered-list lines below to n+1, n+2, ..., as long as these numbers stay
    below 2^53; in both editions. *)
Theorem ordered_on_continues_numbering
    (pre : Doc) (l body : Line) (ls : Doc) (r : Range) (n : N) :
  LF ∉ l ->
  ~ numberedItem l ->
  unbulleted l body ->
  line (from r) = Z.of_nat (length pre) ->
  line (to r) = Z.of_nat (length pre) ->
  numberAfter pre n ->
  (n + N.of_nat (length ls) < 2 ^ 53)%N ->
  doc <$> Lib.toggleOrderedList (mkEditor (pre ++ l :: ls) [r])
    = Some (pre ++ (showN n ++ L ". " ++ body) :: numberedOn n ls)
  /\ doc <$> Old.toggleOrderedList (mkEditor (pre ++ l :: ls) [r])
    = Some (pre ++ (showN n ++ L ". " ++ body) :: numberedOn n ls).
Proof.
  intros Hl Hplain Hbody Hfrom Hto Hn Hbound.
  assert (doc <$> Lib.toggleOrderedList (mkEditor (pre ++ l :: ls) [r])
          = Some (pre ++ (showN n ++ L ". " ++ body) :: numberedOn n ls)) as H;
    [|split; [done | by rewrite toggleOrderedList_same]].
  apply not_numbered_plain in Hplain.
  pose proof (nextNumber_after pre n Hn ltac:(lia)) as Hnext.
  pose proof (unbulleted_withoutBullet l body Hbody) as Hwb.
  apply replaceToken_single_line; try done.
  - rewrite orderedFn_on by done.
    by rewrite Hnext, Hwb, showNumber_exact, renumber_exact by lia.
  - apply noLF_app; [apply showN_noLF|]. apply noLF_app; [noLF|].
    rewrite <- Hwb. by apply withoutBullet_noLF.
Qed.

Lemma ordered_on_continues_numbering_witness :
  doc <$> Lib.toggleOrderedList
            (mkEditor ([L "1. a"] ++ L "- x" :: [L "7. c"; L "7. d"; L "e"]) [caret 1 0])
    = Some ([L "1. a"] ++ (showN 2 ++ L ". " ++ L "x")
                :: numberedOn 2 [L "7. c"; L "7. d"; L "e"])
  /\ doc <$> Old.toggleOrderedList
              (mkEditor ([L "1. a"] ++ L "- x" :: [L "7. c"; L "7. d"; L "e"]) [caret 1 0])
    = Some ([L "1. a"] ++ (showN 2 ++ L ". " ++ L "x")
                :: numberedOn 2 [L "7. c"; L "7. d"; L "e"]).
Proof.
  apply (ordered_on_continues_numbering [L "1. a"] (L "- x") (L "x")
           [L "7. c"; L "7. d"; L "e"] (caret 1 0) 2).
  - noLF.
  - by apply not_numberedItem.
  - apply (bullet_dropped "-"%char (L " ") (L "x")); done.
  - reflexivity.
  - reflexivity.
  - right. exists (L "1"), (L " "), (L "a"). done.
  - vm_compute. reflexivity.
Defined.

Example ordered_on_blank_line :
  doc <$> Lib.toggleOrderedList (mkEditor [L "1. a"; L ""; L "7. c"; L "7. d"; L "e"] [caret 1 0])
  = Some [L "1. a"; L "2. "; L "3. c"; L "4. d"; L "e"].
Proof. vm_compute. reflexivity. Qed.

Example ordered_on_bullet_line :
  doc <$> Old.toggleOrderedList (mkEditor [L "x"; L "- b"; L "5. c"] [span 1 3 1 1])
  = Some [L "x"; L "1. b"; L "2. c"].
Proof. vm_compute. reflexivity. Qed.

(** A numeral with leading zeros above the line counts by its value. *)
Example ordered_on_leading_zeros :
  doc <$> Lib.toggleOrderedList (mkEditor [L "007.  a"; L "b"] [caret 1 1])
  = Some [L "007.  a"; L "8. b"].
Proof. vm_compute. reflexivity. Qed.

(** [toggleOrderedList] on a selection over lines of which none is a
    numbered item yet numbers them in sequence, from the number after the one
    of the line above (from 1 when that is no numbered item), replaces the
    bullet markers they have, and lets the numbered items directly below the
    selection continue the sequence, as long as the numbers stay below 2^53;
    in both editions. *)
Theorem ordered_list_numbers_block
    (pre : Doc) (l : Line) (rest post : Doc) (r : Range) (n : N) :
  Forall (fun l => LF ∉ l) (l :: rest) ->
  Forall (fun l => ~ numberedItem l) (l :: rest) ->
  line (from r) = Z.of_nat (length pre) ->
  line (to r) = Z.of_nat (length pre) + Z.of_nat (length rest) ->
  numberAfter pre n ->
  (n + N.of_nat (length rest) + N.of_nat (length post) < 2 ^ 53)%N ->
  doc <$> Lib.toggleOrderedList (mkEditor (pre ++ (l :: rest) ++ post) [r])
    = Some (pre ++ numberLines n (l :: rest)
                ++ numberedOn (n + N.of_nat (length rest)) post)
  /\ doc <$> Old.toggleOrderedList (mkEditor (pre ++ (l :: rest) ++ post) [r])
    = Some (pre ++ numberLines n (l :: rest)
                ++ numberedOn (n + N.of_nat (length rest)) post).
Proof.
  intros Hlf Hplain Hfrom Hto Hn Hbound.
  assert (Forall (fun l => orderedMatch l = None) (l :: rest)) as Hplain'.
  { eapply Forall_impl; [exact Hplain|]. intros l'. apply not_numbered_plain. }
  pose proof (nextNumber_after pre n Hn ltac:(lia)) as Hnext.
  assert (doc <$> Lib.toggleOrderedList (mkEditor (pre ++ (l :: rest) ++ post) [r])
          = Some (pre ++ numberLines n (l :: rest)
                      ++ numberedOn (n + N.of_nat (length rest)) post)) as Hlib.
  { unfold Lib.toggleOrderedList, Lib.replaceTokenAtLineStart.
    cbn [doc sels Lib.replaceLoop]. unfold Lib.replaceStep. rewrite Hfrom, Hto.
    replace (Z.to_nat (Z.of_nat (length pre) + Z.of_nat (length rest)
                       - Z.of_nat (length pre) + 1))
      with (length (l :: rest)) by (cbn [length]; lia).
    destruct (rewriteLines_numbers rest l pre post (Z.of_nat (length pre))
                (Z.of_nat (length pre) + Z.of_nat (length rest)) 0 0 n Hlf Hplain'
                Hnext Hbound)
      as (sf' & st' & ->).
    done. }
  split; [done|]. by rewrite toggleOrderedList_same.
Qed.

Lemma ordered_list_numbers_block_witness :
  doc <$> Lib.toggleOrderedList
            (mkEditor ([L "9. z"] ++ (L "a" :: [L "- b"; L "c"]) ++ [L "1. d"; L "e"])
               [span 1 0 3 1])
    = Some ([L "9. z"] ++ numberLines 10 (L "a" :: [L "- b"; L "c"])
              ++ numberedOn (10 + N.of_nat (length [L "- b"; L "c"])) [L "1. d"; L "e"])
  /\ doc <$> Old.toggleOrderedList
              (mkEditor ([L "9. z"] ++ (L "a" :: [L "- b"; L "c"]) ++ [L "1. d"; L "e"])
                 [span 1 0 3 1])
    = Some ([L "9. z"] ++ numberLines 10 (L "a" :: [L "- b"; L "c"])
              ++ numberedOn (10 + N.of_nat (length [L "- b"; L "c"])) [L "1. d"; L "e"]).
Proof.
  apply (ordered_list_numbers_block [L "9. z"] (L "a") [L "- b"; L "c"] [L "1. d"; L "e"]
           (span 1 0 3 1) 10).
  - repeat constructor; noLF.
  - repeat constructor; by apply not_numberedItem.
  - reflexivity.
  - reflexivity.
  - right. exists (L "9"), (L " "), (L "z"). done.
  - vm_compute. reflexivity.
Defined.

Example ordered_list_block :
  doc <$> Lib.toggleOrderedList
            (mkEditor [L "9. z"; L "a"; L "- b"; L "c"; L "1. d"; L "e"] [span 1 0 3 1])
  = Some [L "9. z"; L "10. a"; L "11. b"; L "12. c"; L "13. d"; L "e"].
Proof. vm_compute. reflexivity. Qed.

(** * Inline templates *)

Section InlineTemplates.

Variables (before after x body y : Line) (d1 d2 : Doc).
Hypothesis before_noLF : LF ∉ before.
Hypothesis after_noLF : LF ∉ after.

Let i := Z.of_nat (length d1).

Lemma selected_middle (r : Range) :
  from r = mkPos i (len x) ->
  to r = mkPos i (len x + len body) ->
  selected (d1 ++ (x ++ body ++ y) :: d2) r = body.
Proof.
  intros Hfrom Hto. unfold selected. rewrite Hfrom, Hto. unfold i.
  pose proof (len_nonneg x). pose proof (len_nonneg body). pose proof (len_nonneg y).
  rewrite getRange_within by (rewrite ?len_app; lia).
  rewrite <- len_app, (app_assoc x body y), takeZ_app_len, dropZ_app_len. done.
Qed.

Lemma templateProcessed_one_line (r : Range) :
  line (from r) = line (to r) ->
  Lib.templateProcessed r before = Lib.adjustProcessed r (len before).
Proof.
  intros Hline. unfold Lib.templateProcessed, Lib.adjustProcessed.
  by rewrite Hline, Z.eqb_refl.
Qed.

Lemma template_inserted (r : Range) :
  wfRange r ->
  from r = mkPos i (len x) ->
  to r = mkPos i (len x + len body) ->
  Lib.insertInlineTemplate before after (mkEditor (d1 ++ (x ++ body ++ y) :: d2) [r])
  = Some (mkEditor (d1 ++ (x ++ before ++ body ++ after ++ y) :: d2)
            [shiftRange (len before) (caretShared r)]).
Proof.
  intros Hwf Hfrom Hto.
  pose proof (len_nonneg x). pose proof (len_nonneg body). pose proof (len_nonneg y).
  pose proof (len_nonneg before). pose proof (len_nonneg after).
  unfold Lib.insertInlineTemplate. cbn [doc sels length Lib.templateLoop Lib.templateAll].
  rewrite Hto, Hfrom. unfold i.
  rewrite <- len_app, (app_assoc x body y), (insert_at d1 d2 (x ++ body) y after) by done.
  rewrite <- (app_assoc x body), (insert_at d1 d2 x (body ++ after ++ y) before) by done.
  rewrite templateProcessed_one_line by (by rewrite Hfrom, Hto).
  rewrite (Lib_adjustProcessed_shift r _ _ (len before) Hwf Hfrom Hto);
    [|done | cbn [ch]; lia | cbn [ch]; lia].
  unfold setSelections. cbn [map normalizeSelection sortRanges insertRange mergeLoop].
  change (mkRange (add_ch (len before) (anchor r)) (add_ch (len before) (head r)) (empty r))
    with (shiftRange (len before) (caretShared r)).
  rewrite clipRange_ends; [done | |].
  - rewrite from_shiftRange, from_caretShared, Hfrom. unfold add_ch. cbn [line ch].
    apply (clipPos_inside _ _ (x ++ before ++ body ++ after ++ y)).
    + apply getLine_middle.
    + cbn [ch]. rewrite !len_app. lia.
  - rewrite to_shiftRange, to_caretShared, Hto. unfold add_ch. cbn [line ch].
    apply (clipPos_inside _ _ (x ++ before ++ body ++ after ++ y)).
    + apply getLine_middle.
    + cbn [ch]. rewrite !len_app. lia.
Qed.

End InlineTemplates.

(** [insertInlineTemplate] on one selection inside a line puts the first
    part of the template before the selected text and the second part after
    it, and installs the selection moved by the length of the first part, so
    that it selects the text it selected before. *)
Theorem inline_template_wraps_selection
    (before after x body y : Line) (d1 d2 : Doc) (r : Range) :
  LF ∉ before ->
  LF ∉ after ->
  wfRange r ->
  from r = mkPos (Z.of_nat (length d1)) (len x) ->
  to r = mkPos (Z.of_nat (length d1)) (len x + len body) ->
  exists r',
    Lib.insertInlineTemplate before after (mkEditor (d1 ++ (x ++ body ++ y) :: d2) [r])
      = Some (mkEditor (d1 ++ (x ++ before ++ body ++ after ++ y) :: d2) [r'])
    /\ anchor r' = add_ch (len before) (anchor r)
    /\ head r' = add_ch (len before) (head r)
    /\ selected (d1 ++ (x ++ before ++ body ++ after ++ y) :: d2) r' = body.
Proof.
  intros Hb Ha Hwf Hfrom Hto.
  exists (shiftRange (len before) (caretShared r)).
  split; [by apply template_inserted|]. split; [done|]. split; [done|].
  rewrite (app_assoc x before).
  apply selected_middle.
  - rewrite from_shiftRange, from_caretShared, Hfrom. unfold add_ch. cbn [line ch].
    by rewrite len_app.
  - rewrite to_shiftRange, to_caretShared, Hto. unfold add_ch. cbn [line ch].
    rewrite len_app. f_equal. lia.
Qed.

Lemma inline_template_wraps_selection_witness :
  exists r',
    Lib.insertInlineTemplate (L "[") (L "](https://)")
      (mkEditor ([L "intro"] ++ (L "see " ++ L "this" ++ L " page") :: [L "outro"])
         [span 1 8 1 4])
      = Some (mkEditor ([L "intro"]
                ++ (L "see " ++ L "[" ++ L "this" ++ L "](https://)" ++ L " page")
                :: [L "outro"]) [r'])
    /\ anchor r' = add_ch (len (L "[")) (anchor (span 1 8 1 4))
    /\ head r' = add_ch (len (L "[")) (head (span 1 8 1 4))
    /\ selected ([L "intro"]
                 ++ (L "see " ++ L "[" ++ L "this" ++ L "](https://)" ++ L " page")
                 :: [L "outro"]) r' = L "this".
Proof.
  apply (inline_template_wraps_selection (L "[") (L "](https://)") (L "see ") (L "this")
           (L " page") [L "intro"] [L "outro"] (span 1 8 1 4)).
  - noLF.
  - noLF.
  - by unfold wfRange.
  - reflexivity.
  - reflexivity.
Defined.

(** A selection over several lines: its end is moved by the length of the
    first part although that part went into another line. *)
Example inline_template_several_lines :
  Lib.insertInlineTemplate (L "[") (L "]") (mkEditor [L "ab"; L "cd"] [span 0 1 1 1])
  = Some (mkEditor [L "a[b"; L "c]d"] [span 0 2 1 2]).
Proof. vm_compute. reflexivity. Qed.

(** * One inline toggle on one selection *)





(** * Block templates below one selection *)

Section BlocksBelow.

(** The selection as [insertBlockTemplateBelow] moves it down by the lines
    inserted so far: its end is on the line of the old end, moved. *)
Lemma moved_down_to (r : Range) (k : Z) :
  wfRange r -> 0 <= k ->
  line (to (mut (from_end (if empty r then head_becomes_anchor r
                           else mut (to_end r) (add_line k) r))
              (add_line k)
              (if empty r then head_becomes_anchor r
               else mut (to_end r) (add_line k) r)))
  = line (to r) + k.
Proof.
  intros Hwf Hk. destruct r as [[al ac] [hl hc] [|]].
  - specialize (Hwf eq_refl). cbn [anchor head] in Hwf. injection Hwf as <- <-.
    unfold empty. cbn [anchor head]. rewrite pos_eqb_refl.
    unfold to, from. range_eval; cbn [get anchor head line]; lia.
  - unfold to, from. range_eval; cbn [get anchor head line]; try lia.
Qed.

Lemma splitLines_length (t : Line) : Z.of_nat (length (splitLines t)) = Lib.countLF t + 1.
Proof.
  unfold Lib.countLF, len. induction t as [|c t IH]; [done|].
  cbn [splitLines List.filter]. destruct (Ascii.eqb c LF).
  - cbn [length]. lia.
  - destruct (splitLines t); cbn [length] in *; lia.
Qed.

Lemma countLF_nonneg (t : Line) : 0 <= Lib.countLF t.
Proof. unfold Lib.countLF. apply len_nonneg. Qed.

Lemma glueEnd_same_length (ls : Doc) (post : Line) :
  ls <> [] -> length (glueEnd ls post) = length ls.
Proof.
  induction ls as [|x [|x2 r] IH]; [done | done |]. intros _.
  change (glueEnd (x :: x2 :: r) post) with (x :: glueEnd (x2 :: r) post).
  cbn [length]. by rewrite IH.
Qed.

Lemma glue_same_length (pre : Line) (ls : Doc) (post : Line) :
  ls <> [] -> length (glue pre ls post) = length ls.
Proof.
  intros Hne. destruct ls as [|x r]; [done|]. unfold glue.
  by rewrite glueEnd_same_length.
Qed.

Lemma splitLines_nonempty (t : Line) : splitLines t <> [].
Proof.
  induction t as [|c t IH]; [done|]. cbn [splitLines].
  destruct (Ascii.eqb c LF); [done|]. by destruct (splitLines t).
Qed.

Lemma insert_at_line_end (p q : Doc) (l t : Line) :
  replaceRange (p ++ l :: q) t (mkPos (Z.of_nat (length p)) (len l)) None
  = p ++ glue l (splitLines t) [] ++ q.
Proof.
  pose proof (len_nonneg l).
  rewrite replaceRange_insert by lia. by rewrite takeZ_all, dropZ_all.
Qed.

Lemma getLine_split (d : Doc) (n : Z) (l : Line) :
  getLine d n = Some l ->
  exists p q, d = p ++ l :: q /\ Z.of_nat (length p) = n.
Proof.
  intros H. pose proof (getLine_lt _ _ _ H) as Hlt.
  apply getLine_Some in H as [H0 H].
  exists (take (Z.to_nat n) d), (drop (S (Z.to_nat n)) d). split.
  - symmetry. by apply take_drop_middle.
  - rewrite length_take. lia.
Qed.

(** One selection: the template goes to the end of its end line. *)
Lemma blockLoop_single (template : Line) (pre : Doc) (l : Line) (post : Doc) (r : Range) :
  wfRange r ->
  line (to r) = Z.of_nat (length pre) ->
  Lib.blockLoop template 0 (pre ++ l :: post) [r]
  = Some (pre ++ glue l (splitLines (if len l >? 0 then LF :: template else template)) []
              ++ post,
          [Lib.mkInsertion (if len l >? 0 then LF :: template else template)
             (mkPos (Z.of_nat (length pre)) (len l))]).
Proof.
  intros Hwf Hto. cbn [Lib.blockLoop].
  rewrite (moved_down_to r 0 Hwf) by lia. rewrite Hto, Z.add_0_r.
  rewrite getLine_middle. cbn [mbind option_bind]. by rewrite insert_at_line_end.
Qed.

(** Every selection in turn, the end lines going down the document. *)
Lemma blockLoop_insertions (d0 : Doc) (ss : list Range) :
  forall (template : Line) (shift : Z) (d : Doc) (lo : Z),
    0 <= shift -> 0 <= lo ->
    (forall m, lo <= m -> getLine d (m + shift) = getLine d0 m) ->
    Forall wfRange ss ->
    endLinesIncrease lo d0 ss ->
    snd <$> Lib.blockLoop template shift d ss = Some (insertionsBelow template shift d0 ss).
Proof.
  induction ss as [|r ss IH]; intros template shift d lo Hshift Hlo Hinv Hwf Hinc; [done|].
  apply Forall_cons in Hwf as [Hr Hwf]. destruct Hinc as [Hn Hinc].
  set (n := line (to r)) in *.
  destruct (getLine_is_Some d0 n) as [l Hl]; [lia|].
  pose proof (Hinv n (proj1 Hn)) as Hcur. rewrite Hl in Hcur.
  cbn [Lib.blockLoop insertionsBelow]. rewrite (moved_down_to r shift Hr Hshift). fold n.
  rewrite Hcur. cbn [mbind option_bind]. rewrite (lineAt_Some d0 n l Hl).
  set (t' := if len l >? 0 then LF :: template else template).
  destruct (getLine_split d (n + shift) l Hcur) as (p & q & -> & Hp).
  rewrite <- Hp, insert_at_line_end, Hp.
  pose proof (countLF_nonneg t') as Hc.
  assert (snd <$> Lib.blockLoop t' (shift + Lib.countLF t')
                    (p ++ glue l (splitLines t') [] ++ q) ss
          = Some (insertionsBelow t' (shift + Lib.countLF t') d0 ss)) as Hrest.
  2: { destruct (Lib.blockLoop t' (shift + Lib.countLF t')
                   (p ++ glue l (splitLines t') [] ++ q) ss) as [[d'' ins]|];
         [|done]. cbn in Hrest. injection Hrest as ->. done. }
  apply (IH t' (shift + Lib.countLF t') _ (n + 1)); [lia | lia | | done | done].
  intros m Hm. rewrite <- (Hinv m) by lia.
  unfold getLine.
  destruct (Z.ltb_spec (m + (shift + Lib.countLF t')) 0); [lia|].
  destruct (Z.ltb_spec (m + shift) 0); [lia|].
  pose proof (glue_same_length l (splitLines t') [] (splitLines_nonempty t')) as Hglue.
  pose proof (splitLines_length t') as Hsplit.
  rewrite lookup_app_r by lia.
  rewrite lookup_app_r by lia.
  rewrite (lookup_app_r p) by lia.
  rewrite lookup_cons_ne_0 by lia.
  f_equal. lia.
Qed.

End BlocksBelow.

Section TemplateLines.

Lemma glueEnd_nil (ls : Doc) : ls <> [] -> glueEnd ls [] = ls.
Proof.
  induction ls as [|x [|x2 r] IH]; [done | |]; intros _.
  - cbn [glueEnd]. by rewrite app_nil_r.
  - change (glueEnd (x :: x2 :: r) []) with (x :: glueEnd (x2 :: r) []). by rewrite IH.
Qed.

Lemma glue_below (l : Line) (ls : Doc) : ls <> [] -> glue l ([] :: ls) [] = l :: ls.
Proof.
  intros Hne. unfold glue. rewrite app_nil_r. destruct ls as [|x r]; [done|].
  change (glueEnd (l :: x :: r) []) with (l :: glueEnd (x :: r) []).
  by rewrite glueEnd_nil.
Qed.

(** One selection and a template that starts with a line feed: the lines of
    the template follow the end line, after an empty line when the end line
    is not empty. *)
Lemma block_single_doc (rest : Line) (pre : Doc) (l : Line) (post : Doc) (r : Range) :
  wfRange r ->
  line (to r) = Z.of_nat (length pre) ->
  fst <$> Lib.blockLoop (LF :: rest) 0 (pre ++ l :: post) [r]
  = Some (pre ++ l :: (if len l >? 0 then [[]] else []) ++ splitLines rest ++ post).
Proof.
  intros Hwf Hto. rewrite blockLoop_single by done.
  cbn [fmap option_fmap option_map fst]. do 2 f_equal.
  pose proof (splitLines_nonempty rest) as Hne.
  destruct (len l >? 0).
  - change (splitLines (LF :: LF :: rest)) with ([] :: [] :: splitLines rest).
    by rewrite glue_below.
  - change (splitLines (LF :: rest)) with ([] :: splitLines rest).
    by rewrite glue_below.
Qed.

Lemma cells_noLF (cell : Line) (n : nat) : LF ∉ cell -> LF ∉ Lib.cells cell n.
Proof.
  intros Hc. induction n as [|n IH]; [apply not_elem_of_nil|].
  cbn [Lib.cells]. by apply noLF_app.
Qed.

Lemma headerCells_noLF (n : nat) : forall c, LF ∉ Lib.headerCells n c.
Proof.
  induction n as [|n IH]; intros c; [apply not_elem_of_nil|].
  cbn [Lib.headerCells]. apply noLF_app; [noLF|].
  apply noLF_app; [apply showN_noLF|]. apply noLF_app; [noLF | apply IH].
Qed.

Lemma splitLines_contentRows (rows columns : nat) :
  splitLines (Lib.contentRows rows columns ++ [LF])
  = replicate rows (Lib.cells (L "| Content  ") columns ++ L "|") ++ [[]; []].
Proof.
  induction rows as [|rows IH]; [done|].
  change (replicate (S rows) ?x ++ ?y) with (x :: (replicate rows x ++ y)).
  rewrite <- IH. cbn [Lib.contentRows].
  rewrite <- !app_assoc.
  rewrite (app_assoc (Lib.cells (L "| Content  ") columns) (L "|")).
  change ([LF] ++ Lib.contentRows rows columns ++ [LF])
    with (LF :: Lib.contentRows rows columns ++ [LF]).
  rewrite splitLines_LF; [done|].
  apply noLF_app; [apply cells_noLF|]; noLF.
Qed.

(** The lines of the table template, after its first line feed. *)
Lemma splitLines_tableTemplate (rows columns : nat) :
  Lib.tableTemplate rows columns
  = LF :: (Lib.headerCells columns 1 ++ L "|" ++ [LF]
           ++ Lib.cells (L "| -------- ") columns ++ L "|" ++ [LF]
           ++ Lib.contentRows rows columns ++ [LF])
  /\ splitLines (Lib.headerCells columns 1 ++ L "|" ++ [LF]
                 ++ Lib.cells (L "| -------- ") columns ++ L "|" ++ [LF]
                 ++ Lib.contentRows rows columns ++ [LF])
     = (Lib.headerCells columns 1 ++ L "|")
         :: (Lib.cells (L "| -------- ") columns ++ L "|")
         :: replicate rows (Lib.cells (L "| Content  ") columns ++ L "|") ++ [[]; []].
Proof.
  split; [done|].
  rewrite (app_assoc (Lib.headerCells columns 1) (L "|")).
  change ([LF] ++ ?t) with (LF :: t).
  rewrite splitLines_LF by (apply noLF_app; [apply headerCells_noLF | noLF]).
  rewrite (app_assoc (Lib.cells (L "| -------- ") columns) (L "|")).
  change ([LF] ++ ?t) with (LF :: t).
  rewrite splitLines_LF by (apply noLF_app; [apply cells_noLF|]; noLF).
  by rewrite splitLines_contentRows.
Qed.

End TemplateLines.

(** [insertBlockTemplateBelow] on selections whose end lines go down the
    document inserts, for each selection in turn, at the end of its end line
    as that line was before the operation, moved down by the line feeds
    inserted so far; the text it inserts is the template with one more line
    feed in front for every end line so far that was not empty. *)
Theorem block_template_insertions (template : Line) (d : Doc) (ss : list Range) :
  Forall wfRange ss ->
  endLinesIncrease 0 d ss ->
  snd <$> Lib.insertBlockTemplateBelow template (mkEditor d ss)
  = Some (insertionsBelow template 0 d ss).
Proof.
  intros Hwf Hinc. unfold Lib.insertBlockTemplateBelow. cbn [doc sels].
  apply (blockLoop_insertions d ss template 0 d 0); try done.
  intros m _. by rewrite Z.add_0_r.
Qed.

Lemma block_template_insertions_witness :
  snd <$> Lib.insertBlockTemplateBelow (L "x")
            (mkEditor [L "a"; L ""; L "b"; L "c"] [caret 0 0; span 1 0 2 1; caret 3 1])
  = Some (insertionsBelow (L "x") 0 [L "a"; L ""; L "b"; L "c"]
            [caret 0 0; span 1 0 2 1; caret 3 1]).
Proof.
  apply (block_template_insertions (L "x") [L "a"; L ""; L "b"; L "c"]
           [caret 0 0; span 1 0 2 1; caret 3 1]).
  - repeat constructor; by unfold wfRange.
  - vm_compute. repeat split; congruence.
Defined.

(** [insertHorizontalLine] on one selection puts the rule below the end
    line of the selection, after an empty line when the end line is not
    empty, and two empty lines below the rule. *)
Theorem horizontal_line_below (o : Options) (pre : Doc) (l : Line) (post : Doc) (r : Range) :
  LF ∉ horizontalLine o ->
  wfRange r ->
  line (to r) = Z.of_nat (length pre) ->
  fst <$> Lib.insertHorizontalLine o (mkEditor (pre ++ l :: post) [r])
  = Some (pre ++ l :: (if len l >? 0 then [[]] else [])
              ++ [horizontalLine o; []; []] ++ post).
Proof.
  intros Ho Hwf Hto. unfold Lib.insertHorizontalLine, Lib.insertBlockTemplateBelow.
  cbn [doc sels]. rewrite block_single_doc by done. do 4 f_equal.
  change (horizontalLine o ++ [LF; LF]) with (horizontalLine o ++ LF :: [LF]).
  by rewrite splitLines_LF.
Qed.

Lemma horizontal_line_below_witness :
  fst <$> Lib.insertHorizontalLine builtinOptions
            (mkEditor ([L "a"] ++ L "bc" :: [L "d"]) [span 0 1 1 1])
  = Some ([L "a"] ++ L "bc" :: (if len (L "bc") >? 0 then [[]] else [])
            ++ [horizontalLine builtinOptions; []; []] ++ [L "d"]).
Proof.
  apply (horizontal_line_below builtinOptions [L "a"] (L "bc") [L "d"] (span 0 1 1 1)).
  - noLF.
  - by unfold wfRange.
  - reflexivity.
Defined.

(** [insertTable] with a table size in the options, on one selection: below
    the end line of the selection (after an empty line when that line is not
    empty) come the header row, the separator row, the content rows and two
    empty lines; every row has the number of cells asked for, and an
    argument that is missing or 0 stands for the number in the options. *)
Theorem table_below (o : Options) (rows columns : option nat) (r0 c0 : nat)
    (pre : Doc) (l : Line) (post : Doc) (r : Range) :
  table o = TableSize r0 c0 ->
  wfRange r ->
  line (to r) = Z.of_nat (length pre) ->
  fst <$> Lib.insertTable o rows columns (mkEditor (pre ++ l :: post) [r])
  = Some (pre ++ l :: (if len l >? 0 then [[]] else [])
              ++ ((Lib.headerCells (Lib.orDefault columns c0) 1 ++ L "|")
                  :: (Lib.cells (L "| -------- ") (Lib.orDefault columns c0) ++ L "|")
                  :: replicate (Lib.orDefault rows r0)
                       (Lib.cells (L "| Content  ") (Lib.orDefault columns c0) ++ L "|")
                  ++ [[]; []])
              ++ post).
Proof.
  intros Ho Hwf Hto. unfold Lib.insertTable, Lib.insertBlockTemplateBelow. rewrite Ho.
  cbn [doc sels].
  destruct (splitLines_tableTemplate (Lib.orDefault rows r0) (Lib.orDefault columns c0))
    as [-> Hlines].
  rewrite block_single_doc by done. by rewrite Hlines.
Qed.

Lemma table_below_witness :
  fst <$> Lib.insertTable builtinOptions (Some 0%nat) (Some 3%nat)
            (mkEditor ([L "a"] ++ L "" :: [L "d"]) [caret 1 0])
  = Some ([L "a"] ++ L "" :: (if len (L "") >? 0 then [[]] else [])
            ++ ((Lib.headerCells (Lib.orDefault (Some 3%nat) 2) 1 ++ L "|")
                :: (Lib.cells (L "| -------- ") (Lib.orDefault (Some 3%nat) 2) ++ L "|")
                :: replicate (Lib.orDefault (Some 0%nat) 2)
                     (Lib.cells (L "| Content  ") (Lib.orDefault (Some 3%nat) 2) ++ L "|")
                ++ [[]; []])
            ++ [L "d"]).
Proof.
  apply (table_below builtinOptions (Some 0%nat) (Some 3%nat) 2 2 [L "a"] (L "") [L "d"]
           (caret 1 0)).
  - reflexivity.
  - by unfold wfRange.
  - reflexivity.
Defined.

Example table_two_by_three :
  fst <$> Lib.insertTable builtinOptions (Some 0%nat) (Some 3%nat)
            (mkEditor [L "a"; L ""; L "d"] [caret 1 0])
  = Some [L "a"; L "";
          L "| Column 1 | Column 2 | Column 3 |";
          L "| -------- | -------- | -------- |";
          L "| Content  | Content  | Content  |";
          L "| Content  | Content  | Content  |";
          L ""; L ""; L "d"].
Proof. vm_compute. reflexivity. Qed.

(** * Code blocks at a caret and at the start of a line *)

Lemma caret_shape (r : Range) (p : Pos) :
  wfRange r -> from r = p -> to r = p -> exists s, r = mkRange p p s.
Proof.
  intros Hwf Hfrom Hto.
  destruct (range_shapes r p p Hwf Hfrom Hto eq_refl (Z.le_refl _)) as [[_ Hs] | [Hlt _]];
    [done | lia].
Qed.

Lemma get_same (p : Pos) (s : bool) (e : End) : get (mkRange p p s) e = p.
Proof. by destruct e. Qed.

Lemma fenceSelection_caret (k : Z) (p : Pos) (s : bool) :
  Lib.fenceSelection k (mkRange p p s) = caret (line p + (k - 2)) 0.
Proof.
  unfold Lib.fenceSelection, empty. cbn [anchor head]. rewrite pos_eqb_refl.
  cbn [negb]. unfold anchor_becomes_head. cbn [anchor head].
  rewrite mut_shared, get_same, mut_shared, get_same. done.
Qed.

Lemma clip_caret (d : Doc) (n : Z) :
  0 <= n < Z.of_nat (length d) -> clipRange d (caret n 0) = caret n 0.
Proof.
  intros Hn. destruct (getLine_is_Some d n Hn) as [l Hl].
  pose proof (len_nonneg l).
  assert (clipPos d (mkPos n 0) = mkPos n 0) as Hclip
    by (apply (clipPos_inside _ _ l); [done | cbn [ch]; lia]).
  unfold clipRange, caret. cbn [anchor head shared]. rewrite Hclip.
  by rewrite pos_eqb_refl.
Qed.

Section CodeBlockEdges.

Variables (fence : Line) (d1 d2 : Doc).
Hypothesis fence_noLF : LF ∉ fence.

Let i := Z.of_nat (length d1).

(** A caret after column 0. *)
Lemma codeBlock_caret_inside (pre post : Line) (r : Range) :
  pre <> [] ->
  wfRange r ->
  from r = mkPos i (len pre) ->
  to r = mkPos i (len pre) ->
  Lib.codeBlockLoop fence 1 (d1 ++ (pre ++ post) :: d2) [r]
  = (d1 ++ [pre; fence; []; fence; post] ++ d2, [caret (i + 2) 0]).
Proof.
  intros Hpre Hwf Hfrom Hto. pose proof (len_pos pre Hpre) as Hp.
  destruct (caret_shape r _ Hwf Hfrom Hto) as [s ->].
  cbn [Lib.codeBlockLoop map]. rewrite Hfrom, Hto. cbn [ch].
  destruct (Z.gtb_spec (len pre) 0); [|lia]. cbn [negb].
  rewrite fenceSelection_caret. cbn [line]. f_equal.
  pose proof (fence_insertions fence pre [] post d1 d2 fence_noLF) as Hins.
  cbv zeta in Hins. cbn [app] in Hins. rewrite Z.add_0_r in Hins. exact Hins.
Qed.

(** A selection that starts at column 0, or a caret there. *)
Lemma codeBlock_line_start (body post : Line) (r : Range) :
  from r = mkPos i 0 ->
  to r = mkPos i (len body) ->
  Lib.codeBlockLoop fence 1 (d1 ++ (body ++ post) :: d2) [r]
  = (d1 ++ [fence; body; fence; post] ++ d2, [Lib.fenceSelection 3 r]).
Proof.
  intros Hfrom Hto. pose proof (len_nonneg body) as Hb. pose proof (len_nonneg post).
  cbn [Lib.codeBlockLoop map]. rewrite Hfrom, Hto. cbn [ch]. cbn [Z.gtb Z.compare negb].
  f_equal. unfold i.
  rewrite replaceRange_insert by (rewrite len_app; lia).
  rewrite splitLines_fence, glue_fence by done.
  rewrite takeZ_app_len, dropZ_app_len. cbn [app].
  rewrite replaceRange_insert by lia.
  rewrite takeZ_0, dropZ_0.
  change (fence ++ [LF]) with (fence ++ LF :: []).
  rewrite splitLines_LF by done. change (splitLines []) with [[] : Line].
  by cbn [glue glueEnd app].
Qed.

Lemma fenceSelection_line_start (b : Z) (r : Range) :
  0 < b ->
  r = mkRange (mkPos i 0) (mkPos i b) false \/ r = mkRange (mkPos i b) (mkPos i 0) false ->
  Lib.fenceSelection 3 r = mkRange (add_line 1 (anchor r)) (add_line 1 (head r)) false.
Proof.
  intros Hb [-> | ->]; unfold Lib.fenceSelection, from, to; range_eval;
    repeat f_equal; lia.
Qed.

End CodeBlockEdges.

Lemma getLine_second (d1 : Doc) (a b : Line) (d2 : Doc) :
  getLine (d1 ++ a :: b :: d2) (Z.of_nat (length d1) + 1) = Some b.
Proof.
  replace (Z.of_nat (length d1) + 1) with (Z.of_nat (length (d1 ++ [a])))
    by (rewrite length_app; simpl; lia).
  change (d1 ++ a :: b :: d2) with (d1 ++ [a] ++ b :: d2).
  rewrite (app_assoc d1). apply getLine_middle.
Qed.

(** [insertCodeBlock] on a caret: an empty fenced block opens below the text
    before the caret (at the caret's line when the caret is at column 0),
    the text after the caret goes below the block, and the caret is
    installed on the empty line inside the block; in both editions. *)
Theorem code_block_at_caret (o : Options) (pre post : Line) (d1 d2 : Doc) (r : Range) :
  LF ∉ codeBlock o ->
  wfRange r ->
  from r = mkPos (Z.of_nat (length d1)) (len pre) ->
  to r = mkPos (Z.of_nat (length d1)) (len pre) ->
  Lib.insertCodeBlock o (mkEditor (d1 ++ (pre ++ post) :: d2) [r])
    = Some (mkEditor
              (d1 ++ (if bool_decide (pre = []) then [] else [pre])
                  ++ [codeBlock o; []; codeBlock o; post] ++ d2)
              [caret (Z.of_nat (length d1) + (if bool_decide (pre = []) then 1 else 2)) 0])
  /\ Old.insertCodeBlock (mkEditor (d1 ++ (pre ++ post) :: d2) [r])
    = Some (mkEditor
              (d1 ++ (if bool_decide (pre = []) then [] else [pre])
                  ++ [L "```"; []; L "```"; post] ++ d2)
              [caret (Z.of_nat (length d1) + (if bool_decide (pre = []) then 1 else 2)) 0]).
Proof.
  assert (forall fence, LF ∉ fence -> wfRange r ->
            from r = mkPos (Z.of_nat (length d1)) (len pre) ->
            to r = mkPos (Z.of_nat (length d1)) (len pre) ->
            (let '(d, newSelections) :=
               Lib.codeBlockLoop fence 1 (d1 ++ (pre ++ post) :: d2) [r] in
             Some (setSelections d newSelections))
            = Some (mkEditor
                      (d1 ++ (if bool_decide (pre = []) then [] else [pre])
                          ++ [fence; []; fence; post] ++ d2)
                      [caret (Z.of_nat (length d1)
                              + (if bool_decide (pre = []) then 1 else 2)) 0])) as Hgen.
  { intros fence Hf Hwf Hfrom Hto. destruct (decide (pre = [])) as [->|Hpre].
    - rewrite (bool_decide_eq_true_2 _ eq_refl).
      destruct (caret_shape r _ Hwf Hfrom Hto) as [s ->].
      rewrite (codeBlock_line_start fence d1 d2 Hf [] post) by done.
      rewrite fenceSelection_caret. cbn [line].
      unfold setSelections. cbn [map app normalizeSelection sortRanges insertRange mergeLoop]. rewrite clip_caret; [done|].
      rewrite length_app. cbn [length]. lia.
    - rewrite (bool_decide_eq_false_2 _ Hpre).
      rewrite (codeBlock_caret_inside fence d1 d2 Hf pre post r) by done.
      unfold setSelections. cbn [map app normalizeSelection sortRanges insertRange mergeLoop]. rewrite clip_caret; [done|].
      rewrite length_app. cbn [length]. lia. }
  intros Hf Hwf Hfrom Hto. split.
  - unfold Lib.insertCodeBlock. cbn [doc sels length]. by apply Hgen.
  - rewrite (insertCodeBlock_same builtinOptions) by done.
    unfold Lib.insertCodeBlock. cbn [doc sels length].
    apply (Hgen (L "```")); try done. noLF.
Qed.

Lemma code_block_at_caret_witness :
  Lib.insertCodeBlock builtinOptions (mkEditor ([L "a"] ++ (L "bc" ++ L "d") :: [L "e"])
                                        [caret 1 2])
    = Some (mkEditor
              ([L "a"] ++ (if bool_decide (L "bc" = []) then [] else [L "bc"])
                  ++ [codeBlock builtinOptions; []; codeBlock builtinOptions; L "d"]
                  ++ [L "e"])
              [caret (1 + (if bool_decide (L "bc" = []) then 1 else 2)) 0])
  /\ Old.insertCodeBlock (mkEditor ([L "a"] ++ (L "bc" ++ L "d") :: [L "e"]) [caret 1 2])
    = Some (mkEditor
              ([L "a"] ++ (if bool_decide (L "bc" = []) then [] else [L "bc"])
                  ++ [L "```"; []; L "```"; L "d"] ++ [L "e"])
              [caret (1 + (if bool_decide (L "bc" = []) then 1 else 2)) 0]).
Proof.
  apply (code_block_at_caret builtinOptions (L "bc") (L "d") [L "a"] [L "e"] (caret 1 2)).
  - noLF.
  - by unfold wfRange.
  - reflexivity.
  - reflexivity.
Defined.

(** [insertCodeBlock] on a non-empty selection that starts at column 0 of
    its line and ends in it: the opening fence takes the place of the line,
    the selected text follows on a line of its own, then the closing fence
    and the rest of the line; the selection is installed one line down, on
    the text it selected; in both editions. *)
Theorem code_block_at_line_start (o : Options) (body post : Line) (d1 d2 : Doc) (r : Range) :
  LF ∉ codeBlock o ->
  body <> [] ->
  shared r = false ->
  from r = mkPos (Z.of_nat (length d1)) 0 ->
  to r = mkPos (Z.of_nat (length d1)) (len body) ->
  Lib.insertCodeBlock o (mkEditor (d1 ++ (body ++ post) :: d2) [r])
    = Some (mkEditor (d1 ++ [codeBlock o; body; codeBlock o; post] ++ d2)
              [mkRange (add_line 1 (anchor r)) (add_line 1 (head r)) false])
  /\ Old.insertCodeBlock (mkEditor (d1 ++ (body ++ post) :: d2) [r])
    = Some (mkEditor (d1 ++ [L "```"; body; L "```"; post] ++ d2)
              [mkRange (add_line 1 (anchor r)) (add_line 1 (head r)) false]).
Proof.
  assert (forall fence, LF ∉ fence -> body <> [] -> shared r = false ->
            from r = mkPos (Z.of_nat (length d1)) 0 ->
            to r = mkPos (Z.of_nat (length d1)) (len body) ->
            (let '(d, newSelections) :=
               Lib.codeBlockLoop fence 1 (d1 ++ (body ++ post) :: d2) [r] in
             Some (setSelections d newSelections))
            = Some (mkEditor (d1 ++ [fence; body; fence; post] ++ d2)
                      [mkRange (add_line 1 (anchor r)) (add_line 1 (head r)) false])) as Hgen.
  { intros fence Hf Hbody Hsh Hfrom Hto. pose proof (len_pos body Hbody) as Hb.
    rewrite (codeBlock_line_start fence d1 d2 Hf body post r) by done.
    rewrite (fenceSelection_line_start d1 (len body) r Hb)
      by (by apply (range_orientation r _ _ Hfrom Hto)).
    unfold setSelections. cbn [map app normalizeSelection sortRanges insertRange mergeLoop]. do 3 f_equal.
    apply clipRange_inside; cbn [anchor head].
    - destruct (ends_cases r) as [[-> _] | [-> _]]; rewrite ?Hfrom, ?Hto;
        unfold add_line; cbn [line ch];
        apply (clipPos_inside _ _ body); try apply getLine_second; cbn [ch]; lia.
    - destruct (ends_cases r) as [[_ ->] | [_ ->]]; rewrite ?Hfrom, ?Hto;
        unfold add_line; cbn [line ch];
        apply (clipPos_inside _ _ body); try apply getLine_second; cbn [ch]; lia. }
  intros Hf Hbody Hsh Hfrom Hto. split.
  - unfold Lib.insertCodeBlock. cbn [doc sels length]. by apply Hgen.
  - rewrite (insertCodeBlock_same builtinOptions) by done.
    unfold Lib.insertCodeBlock. cbn [doc sels length].
    apply (Hgen (L "```")); try done. noLF.
Qed.

Lemma code_block_at_line_start_witness :
  Lib.insertCodeBlock builtinOptions (mkEditor ([L "a"] ++ (L "bc" ++ L "d") :: [L "e"])
                                        [span 1 2 1 0])
    = Some (mkEditor ([L "a"] ++ [codeBlock builtinOptions; L "bc";
                                  codeBlock builtinOptions; L "d"] ++ [L "e"])
              [mkRange (add_line 1 (anchor (span 1 2 1 0)))
                 (add_line 1 (head (span 1 2 1 0))) false])
  /\ Old.insertCodeBlock (mkEditor ([L "a"] ++ (L "bc" ++ L "d") :: [L "e"]) [span 1 2 1 0])
    = Some (mkEditor ([L "a"] ++ [L "```"; L "bc"; L "```"; L "d"] ++ [L "e"])
              [mkRange (add_line 1 (anchor (span 1 2 1 0)))
                 (add_line 1 (head (span 1 2 1 0))) false]).
Proof.
  apply (code_block_at_line_start builtinOptions (L "bc") (L "d") [L "a"] [L "e"]
           (span 1 2 1 0)).
  - noLF.
  - discriminate.
  - reflexivity.
  - reflexivity.
  - reflexivity.
Defined.

(** * The content as a whole *)

Section Content.

Lemma splitLinesAuto_nonempty (s : Line) : splitLinesAuto s <> [].
Proof.
  induction s as [|c s IH]; [done|]. cbn [splitLinesAuto].
  destruct (Ascii.eqb c CR); [by destruct s as [|c2 s2]; [|destruct (Ascii.eqb c2 LF)]|].
  destruct (Ascii.eqb c LF); [done|]. by destruct (splitLinesAuto s).
Qed.

Lemma splitLinesAuto_unbroken (s : Line) : unbroken s -> splitLinesAuto s = [s].
Proof.
  intros [HLF HCR]. induction s as [|c s IH]; [done|].
  apply not_elem_of_cons in HLF as [Hc1 HLF]. apply not_elem_of_cons in HCR as [Hc2 HCR].
  cbn [splitLinesAuto].
  destruct (Ascii.eqb_spec c CR) as [->|_]; [done|].
  destruct (Ascii.eqb_spec c LF) as [->|_]; [done|].
  by rewrite IH.
Qed.

Lemma splitLinesAuto_LF (s t : Line) :
  unbroken s -> splitLinesAuto (s ++ LF :: t) = s :: splitLinesAuto t.
Proof.
  intros [HLF HCR]. induction s as [|c s IH]; [done|].
  apply not_elem_of_cons in HLF as [Hc1 HLF]. apply not_elem_of_cons in HCR as [Hc2 HCR].
  cbn [splitLinesAuto app].
  destruct (Ascii.eqb_spec c CR) as [->|_]; [done|].
  destruct (Ascii.eqb_spec c LF) as [->|_]; [done|].
  by rewrite IH.
Qed.

Lemma splitLinesAuto_join (c : Doc) :
  c <> [] -> Forall unbroken c -> splitLinesAuto (joinWith [LF] c) = c.
Proof.
  induction c as [|x [|y r] IH]; [done | |]; intros _ Hc.
  - apply splitLinesAuto_unbroken. by apply Forall_inv in Hc.
  - apply Forall_cons in Hc as [Hx Hc].
    change (joinWith [LF] (x :: y :: r)) with (x ++ LF :: joinWith [LF] (y :: r)).
    rewrite splitLinesAuto_LF by done. by rewrite IH.
Qed.

Lemma splitLines_join (c : Doc) :
  c <> [] -> Forall (fun l => LF ∉ l) c -> splitLines (joinWith [LF] c) = c.
Proof.
  induction c as [|x [|y r] IH]; [done | |]; intros _ Hc.
  - apply splitLines_noLF. by apply Forall_inv in Hc.
  - apply Forall_cons in Hc as [Hx Hc].
    change (joinWith [LF] (x :: y :: r)) with (x ++ LF :: joinWith [LF] (y :: r)).
    rewrite splitLines_LF by done. by rewrite IH.
Qed.

Lemma unbroken_cons (c : ascii) (x : Line) :
  c <> LF -> c <> CR -> unbroken x -> unbroken (c :: x).
Proof.
  intros H1 H2 [HLF HCR]. split; apply not_elem_of_cons; split; done.
Qed.

Lemma unbroken_nil : unbroken [].
Proof. split; apply not_elem_of_nil. Qed.

(** The lines of a new content hold no line break. *)
Lemma splitLinesAuto_lines (n : nat) : forall s : Line,
  (length s <= n)%nat -> Forall unbroken (splitLinesAuto s).
Proof.
  induction n as [|n IH]; intros s Hn.
  - destruct s; [|simpl in Hn; lia]. repeat constructor; apply not_elem_of_nil.
  - destruct s as [|c s]; [repeat constructor; apply not_elem_of_nil|].
    cbn [length] in Hn. cbn [splitLinesAuto].
    destruct (Ascii.eqb_spec c CR) as [->|Hcr].
    + destruct s as [|c2 s2].
      * repeat constructor; apply not_elem_of_nil.
      * cbn [length] in Hn.
        destruct (Ascii.eqb c2 LF);
          (constructor; [apply unbroken_nil | apply IH; cbn [length]; lia]).
    + destruct (Ascii.eqb_spec c LF) as [->|Hlf].
      * constructor; [apply unbroken_nil | apply IH; lia].
      * pose proof (IH s ltac:(lia)) as Hs.
        destruct (splitLinesAuto s) as [|x xs].
        { constructor; [|constructor]. apply unbroken_cons; [done | done | apply unbroken_nil]. }
        apply Forall_cons in Hs as [Hx Hxs].
        constructor; [by apply unbroken_cons | done].
Qed.

Lemma joinWith_cons (x : Line) (ls : Doc) :
  ls <> [] -> joinWith [LF] (x :: ls) = x ++ LF :: joinWith [LF] ls.
Proof. by destruct ls. Qed.

Lemma joinWith_head (c : ascii) (x : Line) (xs : Doc) :
  joinWith [LF] ((c :: x) :: xs) = c :: joinWith [LF] (x :: xs).
Proof. by destruct xs. Qed.

(** Without carriage returns the content is read back as it was set. *)
Lemma join_splitLinesAuto (s : Line) : CR ∉ s -> joinWith [LF] (splitLinesAuto s) = s.
Proof.
  induction s as [|c s IH]; [done|]. intros [Hc Hs]%not_elem_of_cons.
  cbn [splitLinesAuto].
  destruct (Ascii.eqb_spec c CR) as [->|_]; [done|].
  destruct (Ascii.eqb_spec c LF) as [->|_].
  - rewrite joinWith_cons by apply splitLinesAuto_nonempty. by rewrite IH.
  - specialize (IH Hs). destruct (splitLinesAuto s) as [|x xs] eqn:E.
    + by destruct (splitLinesAuto_nonempty s).
    + by rewrite joinWith_head, IH.
Qed.

Lemma filter_join (d : Doc) :
  Forall (fun l => LF ∉ l) d ->
  len (List.filter (fun c => negb (Ascii.eqb c LF)) (joinWith [LF] d)) = characters d.
Proof.
  assert (forall l : Line, LF ∉ l ->
            List.filter (fun c => negb (Ascii.eqb c LF)) l = l) as Hkeep.
  { intros l. induction l as [|c l IH]; [done|].
    intros [Hc Hl]%not_elem_of_cons. cbn [List.filter].
    destruct (Ascii.eqb_spec c LF) as [->|_]; [done|]. cbn [negb]. by rewrite IH. }
  induction d as [|x [|y r] IH]; [done | |]; intros Hd.
  - apply Forall_inv in Hd. cbn [joinWith characters foldr]. rewrite Hkeep by done. lia.
  - apply Forall_cons in Hd as [Hx Hd].
    change (joinWith [LF] (x :: y :: r)) with (x ++ LF :: joinWith [LF] (y :: r)).
    rewrite List.filter_app. cbn [List.filter]. rewrite Ascii.eqb_refl. cbn [negb].
    rewrite len_app, Hkeep, IH by done. done.
Qed.

End Content.

(** [setContentPerLine] and [getContentPerLine] are inverse to each other
    on a non-empty list of lines without line breaks; the empty list is read
    back as one empty line, since the document has always one line. *)
Theorem content_per_line_round_trip (c : Doc) :
  Forall unbroken c ->
  Lib.getContentPerLine (Lib.setContentPerLine c) = (if bool_decide (c = []) then [[]] else c).
Proof.
  intros Hc. unfold Lib.getContentPerLine, Lib.setContentPerLine, setValue, getValue.
  cbn [doc]. destruct (decide (c = [])) as [->|Hne].
  - done.
  - rewrite (bool_decide_eq_false_2 _ Hne). rewrite splitLinesAuto_join by done.
    apply splitLines_join; [done|]. eapply Forall_impl; [exact Hc|]. by intros l [? ?].
Qed.

Lemma content_per_line_round_trip_witness :
  Lib.getContentPerLine (Lib.setContentPerLine [L "# Title"; L ""; L "text"])
  = (if bool_decide ([L "# Title"; L ""; L "text"] = []) then [[]]
     else [L "# Title"; L ""; L "text"]).
Proof.
  apply (content_per_line_round_trip [L "# Title"; L ""; L "text"]).
  repeat constructor; apply (bool_decide_unpack _); vm_compute; exact I.
Defined.

(** [setContent] followed by [getContent] gives the content back when it
    holds no carriage return. *)
Theorem content_round_trip (s : Line) :
  CR ∉ s -> Lib.getContent None (Lib.setContent s) = s.
Proof.
  intros Hs. unfold Lib.getContent, Lib.setContent, setValue, getValue. cbn [doc default].
  by apply join_splitLinesAuto.
Qed.

Lemma content_round_trip_witness :
  Lib.getContent None (Lib.setContent (L "a" ++ LF :: L "b" ++ [LF]))
  = L "a" ++ LF :: L "b" ++ [LF].
Proof.
  apply (content_round_trip (L "a" ++ LF :: L "b" ++ [LF])).
  apply (bool_decide_unpack _). vm_compute. exact I.
Defined.

(** After [setContent] no line of the document holds a line break, there is
    at least one line, and the content read back is a fixed point: setting
    it again gives the same document. *)
Theorem content_lines_unbroken (s : Line) :
  Forall unbroken (doc (Lib.setContent s))
  /\ doc (Lib.setContent s) <> []
  /\ Lib.setContent (Lib.getContent None (Lib.setContent s)) = Lib.setContent s.
Proof.
  unfold Lib.getContent, Lib.setContent, setValue, getValue. cbn [doc default].
  pose proof (splitLinesAuto_lines (length s) s (Nat.le_refl _)) as Hlines.
  pose proof (splitLinesAuto_nonempty s) as Hne.
  split; [done|]. split; [done|]. by rewrite splitLinesAuto_join.
Qed.

(** [getCharacterCount] is the number of characters of the lines: the line
    breaks between them are not counted. *)
Theorem character_count_skips_line_breaks (ed : Editor) :
  Forall (fun l => LF ∉ l) (doc ed) ->
  Lib.getCharacterCount ed = characters (doc ed).
Proof.
  intros Hd. unfold Lib.getCharacterCount, getValue. by apply filter_join.
Qed.

Lemma character_count_skips_line_breaks_witness :
  Lib.getCharacterCount (mkEditor [L "ab"; L ""; L "cde"] []) = characters [L "ab"; L ""; L "cde"].
Proof.
  apply (character_count_skips_line_breaks (mkEditor [L "ab"; L ""; L "cde"] [])).
  repeat constructor; noLF.
Defined.

(** * Counting words *)

Section Words.

Lemma getWordCount_pieces (ed : Editor) :
  Lib.getWordCount ed
  = Z.of_nat (pieces (spaces (Lib.trimEnd (Lib.trimStart (getValue None (doc ed)))))).
Proof. done. Qed.

Lemma trimEnd_blank (s : Line) : forallb Lib.isSpace s = true -> Lib.trimEnd s = [].
Proof.
  induction s as [|c s IH]; [done|]. cbn [forallb Lib.trimEnd].
  intros [Hc Hs]%andb_prop. by rewrite IH, Hc.
Qed.

Lemma trimStart_blank (s : Line) : forallb Lib.isSpace s = true -> Lib.trimStart s = [].
Proof.
  intros Hs. unfold Lib.trimStart.
  rewrite <- (app_nil_r s) at 1. rewrite spanLen_run by done.
  apply drop_all.
Qed.

Lemma trimStart_run (lead rest : Line) :
  forallb Lib.isSpace lead = true -> startsWithChar Lib.isSpace rest = false ->
  Lib.trimStart (lead ++ rest) = rest.
Proof.
  intros Hl Hr. unfold Lib.trimStart. rewrite spanLen_run by done.
  apply drop_app_length.
Qed.

Lemma trimEnd_run (core trail : Line) :
  endsInWord core = true -> forallb Lib.isSpace trail = true ->
  Lib.trimEnd (core ++ trail) = core.
Proof.
  intros Hc Ht. induction core as [|c [|c2 r] IH]; [done | |].
  - cbn [endsInWord] in Hc. cbn [app Lib.trimEnd]. rewrite trimEnd_blank by done.
    by destruct (Lib.isSpace c).
  - change ((c :: c2 :: r) ++ trail) with (c :: (c2 :: r) ++ trail).
    cbn [Lib.trimEnd]. by rewrite IH.
Qed.

Lemma endsInWord_app (a b : Line) : endsInWord b = true -> endsInWord (a ++ b) = true.
Proof.
  intros Hb. induction a as [|c a IH]; [done|].
  destruct b as [|cb b]; [done|].
  change ((c :: a) ++ cb :: b) with (c :: (a ++ cb :: b)).
  destruct (a ++ cb :: b) eqn:E; [by destruct a | done].
Qed.

Lemma word_endsInWord (w : Line) : isWord w -> endsInWord w = true.
Proof.
  intros [Hne Hw]. induction w as [|c [|c2 r] IH]; [done | |].
  - cbn [forallb] in Hw. apply andb_prop in Hw as [Hw _]. exact Hw.
  - cbn [forallb] in Hw. apply andb_prop in Hw as [_ Hw]. by apply IH.
Qed.

Lemma word_start (w rest : Line) : isWord w -> startsWithChar Lib.isSpace (w ++ rest) = false.
Proof.
  intros [Hne Hw]. destruct w as [|c w]; [done|]. cbn [forallb] in Hw.
  apply andb_prop in Hw as [Hc _]. cbn. by destruct (Lib.isSpace c).
Qed.

Lemma spelled_endsInWord (w0 : Line) (rest : list (Line * Line)) :
  isWord w0 -> Forall (fun p => isSeparatorRun (fst p) /\ isWord (snd p)) rest ->
  endsInWord (w0 ++ spelled rest) = true.
Proof.
  intros Hw0 Hrest. revert w0 Hw0.
  induction Hrest as [|[sep w] rest [_ Hw] _ IH]; intros w0 Hw0.
  - unfold spelled. cbn [map concat]. rewrite app_nil_r. by apply word_endsInWord.
  - unfold spelled. cbn [map concat fst snd]. rewrite <- app_assoc.
    rewrite !app_assoc. rewrite <- (app_assoc (w0 ++ sep)).
    apply endsInWord_app. by apply IH.
Qed.

Lemma spaces_app (a b : Line) : spaces (a ++ b) = spaces a ++ spaces b.
Proof. unfold spaces. by rewrite !map_app. Qed.

Lemma space_isSpace (c : ascii) : isSeparator c = true -> Lib.isSpace c = true.
Proof.
  destruct c as [[|] [|] [|] [|] [|] [|] [|] [|]]; vm_compute; congruence.
Qed.

(** A word is left as it is and holds no space. *)
Lemma spaces_word (w : Line) :
  forallb (fun c => negb (Lib.isSpace c)) w = true ->
  spaces w = w /\ forallb (fun c => negb (Ascii.eqb c " "%char)) w = true.
Proof.
  induction w as [|c w IH]; [done|]. cbn [forallb]. intros [Hc Hw]%andb_prop.
  destruct (IH Hw) as [IH1 IH2]. unfold spaces in *. cbn [map forallb].
  rewrite IH1, IH2. unfold tabToSpace, lfToSpace.
  destruct (Ascii.eqb_spec c "009") as [->|_]; [done|].
  destruct (Ascii.eqb_spec c LF) as [->|_]; [done|].
  destruct (Ascii.eqb_spec c " ") as [->|_]; done.
Qed.

(** A run of separators becomes a run of spaces. *)
Lemma spaces_run (s : Line) :
  forallb isSeparator s = true -> spaces s = replicate (length s) " "%char.
Proof.
  induction s as [|c s IH]; [done|]. cbn [forallb]. intros [Hc Hs]%andb_prop.
  unfold spaces in *. cbn [map length replicate]. rewrite (IH Hs). f_equal.
  unfold isSeparator in Hc. unfold tabToSpace, lfToSpace.
  destruct (Ascii.eqb_spec c "009") as [->|_]; [done|].
  destruct (Ascii.eqb_spec c LF) as [->|_]; [done|].
  destruct (Ascii.eqb_spec c " ") as [->|_]; done.
Qed.

Lemma splitOn_nonempty (sep : ascii) (s : Line) : Lib.splitOn sep s <> [].
Proof.
  induction s as [|c s IH]; [done|]. cbn [Lib.splitOn].
  destruct (Ascii.eqb c sep); [done|]. by destruct (Lib.splitOn sep s).
Qed.

Lemma pieces_word (w rest : Line) :
  forallb (fun c => negb (Ascii.eqb c " "%char)) w = true ->
  pieces (w ++ rest) = pieces rest.
Proof.
  unfold pieces. induction w as [|c w IH]; [done|]. cbn [forallb].
  intros [Hc Hw]%andb_prop. apply negb_true_iff in Hc.
  cbn [app Lib.squeeze]. rewrite Hc. cbn [andb Lib.splitOn]. rewrite Hc.
  specialize (IH Hw).
  pose proof (splitOn_nonempty " "%char (Lib.squeeze (w ++ rest))) as Hne.
  by destruct (Lib.splitOn " " (Lib.squeeze (w ++ rest))) as [|x xs].
Qed.

Lemma pieces_run (k : nat) (c : ascii) (rest : Line) :
  Ascii.eqb c " "%char = false ->
  pieces (replicate (S k) " "%char ++ c :: rest) = S (pieces (c :: rest)).
Proof.
  intros Hc. unfold pieces. induction k as [|k IH].
  - cbn [replicate app Lib.squeeze]. unfold startsWith at 1. cbn [length take].
    unfold line_eqb. rewrite bool_decide_eq_false_2
      by (intros [=E]; rewrite E in Hc; discriminate).
    cbn [Ascii.eqb Bool.eqb andb Lib.splitOn]. done.
  - change (replicate (S (S k)) " "%char ++ c :: rest)
      with (" "%char :: (replicate (S k) " "%char ++ c :: rest)).
    cbn [Lib.squeeze]. change (replicate (S k) " "%char ++ c :: rest)
      with (" "%char :: (replicate k " "%char ++ c :: rest)) at 1.
    unfold startsWith at 1. cbn [length take]. unfold line_eqb.
    rewrite bool_decide_eq_true_2 by done. cbn [Ascii.eqb Bool.eqb andb]. exact IH.
Qed.

Lemma pieces_spelled (rest : list (Line * Line)) :
  Forall (fun p => isSeparatorRun (fst p) /\ isWord (snd p)) rest ->
  pieces (spaces (spelled rest)) = S (length rest).
Proof.
  induction 1 as [|[sep w] rest [[Hsep Hrun] [Hne Hw]] _ IH]; [done|].
  unfold spelled in *. cbn [map concat fst snd length].
  rewrite !spaces_app. rewrite (spaces_run sep Hrun).
  destruct (spaces_word w Hw) as [-> Hplain].
  destruct sep as [|s0 sep]; [done|]. cbn [length].
  destruct w as [|c w]; [done|].
  cbn [forallb] in Hplain. apply andb_prop in Hplain as [Hc Hplain].
  apply negb_true_iff in Hc.
  rewrite <- app_assoc. change ((c :: w) ++ ?t) with (c :: (w ++ t)).
  rewrite pieces_run by done.
  change (c :: w ++ ?t) with ((c :: w) ++ t).
  rewrite pieces_word by (cbn [forallb]; by rewrite Hc, Hplain).
  by rewrite IH.
Qed.

End Words.

(** [getWordCount] counts the words of the content: for a content made of
    words (runs of characters that are no white space) with a run of spaces,
    tabs and line feeds between each two of them, and any white space before
    the first and after the last, it returns the number of words. *)
Theorem word_count_counts_words
    (ed : Editor) (lead trail w0 : Line) (rest : list (Line * Line)) :
  getValue None (doc ed) = lead ++ (w0 ++ spelled rest) ++ trail ->
  forallb Lib.isSpace lead = true ->
  forallb Lib.isSpace trail = true ->
  isWord w0 ->
  Forall (fun p => isSeparatorRun (fst p) /\ isWord (snd p)) rest ->
  Lib.getWordCount ed = Z.of_nat (S (length rest)).
Proof.
  intros Hcontent Hlead Htrail Hw0 Hrest.
  rewrite getWordCount_pieces, Hcontent. f_equal.
  rewrite trimStart_run; [|done|].
  2: { rewrite <- !app_assoc. by apply word_start. }
  rewrite trimEnd_run by (by try apply spelled_endsInWord).
  rewrite spaces_app. destruct Hw0 as [_ Hw0].
  destruct (spaces_word w0 Hw0) as [-> Hplain].
  rewrite pieces_word by done. by apply pieces_spelled.
Qed.

Lemma word_count_counts_words_witness :
  Lib.getWordCount (mkEditor [L " one  two"; L ""; L "three "] [])
  = Z.of_nat (S (length [(L "  ", L "two"); ([LF; LF], L "three")])).
Proof.
  apply (word_count_counts_words (mkEditor [L " one  two"; L ""; L "three "] [])
           (L " ") (L " ") (L "one") [(L "  ", L "two"); ([LF; LF], L "three")]).
  - reflexivity.
  - reflexivity.
  - reflexivity.
  - split; [discriminate | reflexivity].
  - repeat constructor; discriminate.
Defined.

(** [getWordCount] never returns 0: it returns at least 1, and 1 for a
    content of white space only, the empty content included. *)
Theorem word_count_of_blank (ed : Editor) :
  1 <= Lib.getWordCount ed
  /\ (forallb Lib.isSpace (getValue None (doc ed)) = true -> Lib.getWordCount ed = 1).
Proof.
  split.
  - rewrite getWordCount_pieces. unfold pieces.
    pose proof (splitOn_nonempty " "%char
                  (Lib.squeeze
                     (spaces (Lib.trimEnd (Lib.trimStart (getValue None (doc ed))))))) as Hne.
    destruct (Lib.splitOn _ _); [done|]. cbn [length]. lia.
  - intros Hblank. rewrite getWordCount_pieces, trimStart_blank by done. done.
Qed.

Lemma word_count_of_blank_witness :
  Lib.getWordCount (mkEditor [L ""; L "  "; L ""] []) = 1.
Proof.
  apply (proj2 (word_count_of_blank (mkEditor [L ""; L "  "; L ""] []))). reflexivity.
Defined.

(** * Escaping a token for a pattern *)

Section Escaping.

Lemma replaceChar_app (c : ascii) (new a b : Line) :
  Lib.replaceChar c new (a ++ b) = Lib.replaceChar c new a ++ Lib.replaceChar c new b.
Proof. unfold Lib.replaceChar. apply flat_map_app. Qed.

Lemma escapeRegexChars_app (a b : Line) :
  Lib.escapeRegexChars (a ++ b) = Lib.escapeRegexChars a ++ Lib.escapeRegexChars b.
Proof.
  unfold Lib.escapeRegexChars, Lib.reservedChars.
  change (L ".*+?!{}[]") with [("."%char : ascii); "*"%char; "+"%char; "?"%char; "!"%char;
                                "{"%char; "}"%char; "["%char; "]"%char].
  cbn [fold_left]. by rewrite !replaceChar_app.
Qed.

Lemma escapeRegexChars_one (c : ascii) : Lib.escapeRegexChars [c] = escaped c.
Proof. destruct c as [[|] [|] [|] [|] [|] [|] [|] [|]]; vm_compute; reflexivity. Qed.

Lemma unescape_escaped (c : ascii) (s : Line) : unescape (escaped c ++ s) = c :: unescape s.
Proof.
  unfold escaped. destruct (Ascii.eqb c "\"%char || existsb (Ascii.eqb c) Lib.reservedChars) eqn:E.
  - done.
  - apply orb_false_elim in E as [E _]. cbn [app unescape]. by rewrite E.
Qed.

End Escaping.

(** [escapeRegexChars] escapes character by character: the passes do not
    touch each other's backslashes, so every backslash and every reserved
    character gets exactly one backslash in front and every other character
    stays as it is; dropping the escaping backslashes gives the token
    back. *)
Theorem escape_is_per_character (s : Line) :
  Lib.escapeRegexChars s = flat_map escaped s
  /\ unescape (Lib.escapeRegexChars s) = s.
Proof.
  induction s as [|c s [IH1 IH2]]; [done|].
  change (c :: s) with ([c] ++ s) at 1 3.
  rewrite escapeRegexChars_app, escapeRegexChars_one. split.
  - cbn [flat_map]. by rewrite IH1.
  - by rewrite unescape_escaped, IH2.
Qed.

Example escape_bold_token : Lib.escapeRegexChars (L "**") = L "\*\*".
Proof. reflexivity. Qed.

(** Parentheses, bar, caret and dollar are no reserved characters: a token
    that holds one is handed to the pattern as it is. *)
Example escape_leaves_parentheses : Lib.escapeRegexChars (L "(a|b)$") = L "(a|b)$".
Proof. reflexivity. Qed.

(** * The selection of a line-prefix replacement *)

Section MovedSelections.

(** Both shifts alike, as for a selection inside one line: both ends move,
    unless the anchor comes to lie on the head. *)
Lemma adjustBoundaries_shift (r : Range) (k : Z) :
  wfRange r ->
  (k <> 0 -> ch (head r) - ch (anchor r) <> k) ->
  Lib.adjustBoundaries r k k = shiftRange k r.
Proof.
  intros Hwf Hk. destruct r as [[al ac] [hl hc] [|]].
  - specialize (Hwf eq_refl). cbn [anchor head] in Hwf. injection Hwf as <- <-.
    unfold Lib.adjustBoundaries, shiftRange. cbn [anchor head shared].
    destruct (pos_eqb _ _); rewrite mut_shared; cbn [get anchor head];
      unfold empty; cbn [anchor head]; rewrite pos_eqb_refl; done.
  - cbn [anchor head ch] in Hk.
    unfold Lib.adjustBoundaries, shiftRange. cbn [anchor head shared].
    destruct (pos_eqb _ _); rewrite mut_anchor;
      (destruct (empty_cases (add_ch k (mkPos al ac)) (mkPos hl hc) false) as [[He ->] | [He ->]];
       cbn [negb]; [|by rewrite mut_head]);
      unfold add_ch in He; cbn [line ch] in He; injection He as <- <-;
      destruct (decide (k = 0)) as [->|Hk0];
      [unfold add_ch; cbn [line ch]; repeat f_equal; lia | specialize (Hk Hk0); lia
      |unfold add_ch; cbn [line ch]; repeat f_equal; lia | specialize (Hk Hk0); lia].
Qed.

Variables (f : ReplaceFn) (p p' body : Line) (d1 d2 d2' : Doc).

Let i := Z.of_nat (length d1).

Hypothesis f_prefix :
  f (d1 ++ (p ++ body) :: d2) (p ++ body) i = Some (d1 ++ (p ++ body) :: d2', p' ++ body).
Hypothesis new_noLF : LF ∉ p' ++ body.

Lemma prefix_replaced (r : Range) :
  wfRange r ->
  line (from r) = i -> line (to r) = i ->
  len p <= ch (from r) -> ch (from r) <= ch (to r) -> ch (to r) <= len (p ++ body) ->
  (len p' - len p <> 0 -> ch (head r) - ch (anchor r) <> len p' - len p) ->
  Lib.replaceTokenAtLineStart f (mkEditor (d1 ++ (p ++ body) :: d2) [r])
  = Some (mkEditor (d1 ++ (p' ++ body) :: d2') [shiftRange (len p' - len p) r]).
Proof.
  intros Hwf Hfl Htl Hfrom Hle Hto Hk.
  pose proof (len_nonneg p). pose proof (len_nonneg p'). pose proof (len_nonneg body).
  unfold Lib.replaceTokenAtLineStart. cbn [doc sels Lib.replaceLoop]. unfold Lib.replaceStep.
  rewrite Hfl, Htl. replace (Z.to_nat (i - i + 1)) with 1%nat by lia.
  cbn [Lib.rewriteLines]. unfold i. rewrite getLine_middle. cbn [mbind option_bind].
  fold i. rewrite f_prefix. cbn [mbind option_bind]. unfold i.
  rewrite replaceRange_line by done. fold i. rewrite Z.eqb_refl.
  replace (len (p' ++ body) - len (p ++ body)) with (len p' - len p)
    by (rewrite !len_app; lia).
  rewrite adjustBoundaries_shift by done.
  unfold setSelections. cbn [map normalizeSelection sortRanges insertRange mergeLoop]. do 3 f_equal.
  apply clipRange_ends.
  - rewrite from_shiftRange. unfold add_ch.
    apply (clipPos_inside _ _ (p' ++ body)).
    + cbn [line]. rewrite Hfl. apply getLine_middle.
    + cbn [ch]. rewrite len_app in *. lia.
  - rewrite to_shiftRange. unfold add_ch.
    apply (clipPos_inside _ _ (p' ++ body)).
    + cbn [line]. rewrite Htl. apply getLine_middle.
    + cbn [ch]. rewrite len_app in *. lia.
Qed.

Lemma selected_in_body (q : Line) (d2'' : Doc) (r : Range) (k : Z) :
  line (from r) = i -> line (to r) = i ->
  0 <= k -> k <= ch (from r) -> ch (from r) <= ch (to r) -> ch (to r) <= k + len body ->
  len q = k ->
  selected (d1 ++ (q ++ body) :: d2'') r
  = dropZ (ch (from r) - k) (takeZ (ch (to r) - k) body).
Proof.
  intros Hfl Htl Hk Hfrom Hle Hto Hq. unfold selected.
  destruct (from r) as [fl fc], (to r) as [tl tc]. cbn [line ch] in *. subst fl tl.
  unfold i. rewrite getRange_within by (rewrite ?len_app; lia).
  unfold dropZ, takeZ, len in *.
  rewrite take_app_ge by lia. rewrite drop_app_ge by lia.
  f_equal; [lia|]. f_equal. lia.
Qed.

End MovedSelections.

(** [replaceTokenAtLineStart] on one selection inside a line, where the
    rewrite replaces a prefix of the line and the selection lies behind that
    prefix: the selection is installed moved by the difference of the two
    prefixes, so that it selects the text it selected before; unless the
    move brings the anchor onto the head. *)
Theorem line_prefix_moves_selection
    (f : ReplaceFn) (p p' body : Line) (d1 d2 d2' : Doc) (r : Range) :
  f (d1 ++ (p ++ body) :: d2) (p ++ body) (Z.of_nat (length d1))
    = Some (d1 ++ (p ++ body) :: d2', p' ++ body) ->
  LF ∉ p' ++ body ->
  wfRange r ->
  line (from r) = Z.of_nat (length d1) ->
  line (to r) = Z.of_nat (length d1) ->
  len p <= ch (from r) ->
  ch (to r) <= len (p ++ body) ->
  (len p' - len p <> 0 -> ch (head r) - ch (anchor r) <> len p' - len p) ->
  exists r',
    Lib.replaceTokenAtLineStart f (mkEditor (d1 ++ (p ++ body) :: d2) [r])
      = Some (mkEditor (d1 ++ (p' ++ body) :: d2') [r'])
    /\ anchor r' = add_ch (len p' - len p) (anchor r)
    /\ head r' = add_ch (len p' - len p) (head r)
    /\ selected (d1 ++ (p' ++ body) :: d2') r' = selected (d1 ++ (p ++ body) :: d2) r.
Proof.
  intros Hf Hnew Hwf Hfl Htl Hfrom Hto Hk.
  pose proof (len_nonneg p). pose proof (len_nonneg p'). pose proof (len_nonneg body).
  assert (ch (from r) <= ch (to r)) as Hle.
  { pose proof (cmp_from_to r) as Hcmp. unfold cmp in Hcmp.
    rewrite Hfl, Htl, Z.sub_diag in Hcmp. cbn [Z.eqb] in Hcmp. lia. }
  exists (shiftRange (len p' - len p) r).
  split; [by apply (prefix_replaced f p p' body d1 d2 d2')|]. split; [done|]. split; [done|].
  rewrite (selected_in_body body d1 p' d2' _ (len p'));
    rewrite ?from_shiftRange, ?to_shiftRange; unfold add_ch; cbn [line ch];
    try done; try (rewrite ?len_app in *; lia).
  rewrite (selected_in_body body d1 p d2 r (len p)); try done;
    try (rewrite ?len_app in *; lia).
  f_equal; [lia|]. f_equal. lia.
Qed.

Lemma line_prefix_moves_selection_witness :
  exists r',
    Lib.replaceTokenAtLineStart Lib.quoteFn
      (mkEditor ([L "a"] ++ (L "> " ++ L "quoted text") :: [L "b"]) [span 1 8 1 2])
      = Some (mkEditor ([L "a"] ++ (L "" ++ L "quoted text") :: [L "b"]) [r'])
    /\ anchor r' = add_ch (len (L "") - len (L "> ")) (anchor (span 1 8 1 2))
    /\ head r' = add_ch (len (L "") - len (L "> ")) (head (span 1 8 1 2))
    /\ selected ([L "a"] ++ (L "" ++ L "quoted text") :: [L "b"]) r'
       = selected ([L "a"] ++ (L "> " ++ L "quoted text") :: [L "b"]) (span 1 8 1 2).
Proof.
  apply (line_prefix_moves_selection Lib.quoteFn (L "> ") (L "") (L "quoted text")
           [L "a"] [L "b"] [L "b"] (span 1 8 1 2)).
  - reflexivity.
  - noLF.
  - by unfold wfRange.
  - reflexivity.
  - reflexivity.
  - vm_compute. discriminate.
  - vm_compute. discriminate.
  - intros _. vm_compute. discriminate.
Defined.

(** The move brings the anchor onto the head: the selection closes. *)
Example line_prefix_closes_selection :
  Lib.toggleQuote (mkEditor [L "abc"] [span 0 0 0 2])
  = Some (mkEditor [L "> abc"] [span 0 2 0 2]).
Proof. vm_compute. reflexivity. Qed.

(** * Ordered lists on every selection list *)

Section OrderedAlways.

Lemma renumber_length (ls : Doc) : forall n, length (renumber n ls) = length ls.
Proof.
  induction ls as [|l ls IH]; intros n; [done|]. cbn [renumber].
  destruct (bool_decide _); [|done]. cbn [length]. by rewrite IH.
Qed.

Lemma renumber_noLF (ls : Doc) : forall n,
  Forall (fun l => LF ∉ l) ls -> Forall (fun l => LF ∉ l) (renumber n ls).
Proof.
  induction ls as [|l ls IH]; intros n Hls; [done|]. cbn [renumber].
  destruct (bool_decide _); [|done]. apply Forall_cons in Hls as [Hl Hls].
  constructor; [|by apply IH]. apply noLF_app; [apply showNumber_noLF | by apply noLF_drop].
Qed.

(** One line of a selection: the line gets its new text, the lines above
    stay, the lines below keep their number. *)
Lemma orderedFn_line (pre : Doc) (l : Line) (ls : Doc) :
  LF ∉ l -> Forall (fun l => LF ∉ l) ls ->
  exists new ls',
    Lib.orderedFn (pre ++ l :: ls) l (Z.of_nat (length pre)) = Some (pre ++ l :: ls', new)
    /\ (LF ∉ new) /\ length ls' = length ls /\ Forall (fun l => LF ∉ l) ls'.
Proof.
  intros Hl Hls. destruct (orderedMatch l) as [k|] eqn:Hk.
  - rewrite (orderedFn_off pre l ls k Hk). eexists _, _. split; [done|].
    split; [by apply noLF_drop|]. split; [apply renumber_length | by apply renumber_noLF].
  - rewrite (orderedFn_on pre l ls Hk). eexists _, _. split; [done|].
    split; [|split; [apply renumber_length | by apply renumber_noLF]].
    apply noLF_app; [apply showNumber_noLF|]. apply noLF_app; [noLF | by apply withoutBullet_noLF].
Qed.

Lemma rewriteLines_ordered (n : nat) : forall (pre rest : Doc) a b sf st,
  (n <= length rest)%nat ->
  Forall (fun l => LF ∉ l) rest ->
  exists rest' sf' st',
    Lib.rewriteLines Lib.orderedFn n (Z.of_nat (length pre)) a b (pre ++ rest) sf st
    = Some (pre ++ rest', sf', st')
    /\ length rest' = length rest /\ Forall (fun l => LF ∉ l) rest'.
Proof.
  induction n as [|n IH]; intros pre rest a b sf st Hn Hrest.
  - exists rest, sf, st. done.
  - destruct rest as [|l ls]; [cbn [length] in Hn; lia|].
    apply Forall_cons in Hrest as [Hl Hls]. cbn [length] in Hn.
    destruct (orderedFn_line pre l ls Hl Hls) as (new & ls' & Hfn & Hnew & Hlen & Hls').
    cbn [Lib.rewriteLines]. rewrite getLine_middle. cbn [mbind option_bind].
    rewrite Hfn. cbn [mbind option_bind]. rewrite replaceRange_line by done.
    destruct (IH (pre ++ [new]) ls' a b
                (if Z.of_nat (length pre) =? a then len new - len l else sf)
                (if Z.of_nat (length pre) =? b then len new - len l else st))
      as (rest' & sf' & st' & Hrun & Hlen' & Hrest'); [lia | done |].
    rewrite length_app in Hrun. cbn [length] in Hrun.
    replace (Z.of_nat (length pre + 1)) with (Z.of_nat (length pre) + 1) in Hrun by lia.
    rewrite <- !app_assoc in Hrun. cbn [app] in Hrun. rewrite Hrun.
    exists (new :: rest'), sf', st'. split; [done|]. split; [cbn [length]; lia|].
    by constructor.
Qed.

Lemma replaceStep_ordered (d : Doc) (r : Range) :
  Forall (fun l => LF ∉ l) d ->
  validRange d r ->
  exists d' r',
    Lib.replaceStep Lib.orderedFn d r = Some (d', r')
    /\ length d' = length d
    /\ Forall (fun l => LF ∉ l) d'
    /\ take (Z.to_nat (line (from r))) d' = take (Z.to_nat (line (from r))) d.
Proof.
  intros Hd [Hfrom Hto]%validRange_ends. pose proof (from_line_le_to r) as Hle.
  set (a := Z.to_nat (line (from r))).
  destruct (rewriteLines_ordered (Z.to_nat (line (to r) - line (from r) + 1))
              (take a d) (drop a d) (line (from r)) (line (to r)) 0 0)
    as (rest' & sf' & st' & Hrun & Hlen & Hrest').
  { rewrite length_drop. unfold a. lia. }
  { by apply Forall_drop. }
  rewrite take_drop in Hrun.
  replace (Z.of_nat (length (take a d))) with (line (from r)) in Hrun
    by (rewrite length_take; unfold a; lia).
  unfold Lib.replaceStep. rewrite Hrun. cbn [mbind option_bind].
  eexists _, _. split; [done|]. split; [|split].
  - rewrite length_app, Hlen, <- length_app, take_drop. done.
  - apply Forall_app. split; [by apply Forall_take | done].
  - rewrite take_app_length'; [done|]. rewrite length_take. unfold a. lia.
Qed.

Lemma replaceLoop_ordered (ss : list Range) : forall d,
  Forall (fun l => LF ∉ l) d ->
  Forall (validRange d) ss ->
  exists d' rs,
    Lib.replaceLoop Lib.orderedFn d ss = Some (d', rs)
    /\ length d' = length d
    /\ Forall (fun l => LF ∉ l) d'
    /\ forall i : nat, Forall (fun r => Z.of_nat i < line (from r)) ss -> d' !! i = d !! i.
Proof.
  induction ss as [|s ss IH]; intros d Hd Hvalid.
  - exists d, []. done.
  - apply Forall_cons in Hvalid as [Hs Hss].
    destruct (replaceStep_ordered d s Hd Hs) as (d1 & s1 & Hstep & Hlen1 & Hd1 & Habove).
    destruct (IH d1 Hd1) as (d2 & rs2 & Hloop & Hlen2 & Hd2 & Hkeep).
    { eapply Forall_impl; [exact Hss|]. intros r. unfold validRange. by rewrite Hlen1. }
    exists d2, (s1 :: rs2). split; [|split; [lia|split; [done|]]].
    + cbn [Lib.replaceLoop]. rewrite Hstep. cbn [mbind option_bind]. by rewrite Hloop.
    + intros i Hi. apply Forall_cons in Hi as [Hi1 Hi2]. rewrite (Hkeep i Hi2).
      rewrite <- (lookup_take_lt d1 (Z.to_nat (line (from s))) i) by lia.
      rewrite Habove. apply lookup_take_lt. lia.
Qed.

End OrderedAlways.

(** [toggleOrderedList] returns for every list of selections on lines of
    the document: the renumbering of the lines below comes to an end; the
    document keeps its number of lines, and every line above all the
    selections stays as it is; in both editions. *)
Theorem ordered_list_always_returns (d : Doc) (ss : list Range) :
  Forall (fun l => LF ∉ l) d ->
  Forall (validRange d) ss ->
  exists ed',
    Lib.toggleOrderedList (mkEditor d ss) = Some ed'
    /\ Old.toggleOrderedList (mkEditor d ss) = Some ed'
    /\ length (doc ed') = length d
    /\ Forall (fun l => LF ∉ l) (doc ed')
    /\ forall i : nat,
         Forall (fun r => Z.of_nat i < line (from r)) ss -> doc ed' !! i = d !! i.
Proof.
  intros Hd Hss.
  destruct (replaceLoop_ordered ss d Hd Hss) as (d' & rs & Hloop & Hlen & Hd' & Hkeep).
  exists (setSelections d' rs).
  assert (Lib.toggleOrderedList (mkEditor d ss) = Some (setSelections d' rs)) as Hlib.
  { unfold Lib.toggleOrderedList, Lib.replaceTokenAtLineStart. cbn [doc sels].
    by rewrite Hloop. }
  split; [done|]. split; [by rewrite toggleOrderedList_same|]. done.
Qed.

Lemma ordered_list_always_returns_witness :
  exists ed',
    Lib.toggleOrderedList (mkEditor [L "a"; L "1. b"; L "2. c"; L "d"]
                             [span 1 0 2 1; caret 2 0]) = Some ed'
    /\ Old.toggleOrderedList (mkEditor [L "a"; L "1. b"; L "2. c"; L "d"]
                                [span 1 0 2 1; caret 2 0]) = Some ed'
    /\ length (doc ed') = length [L "a"; L "1. b"; L "2. c"; L "d"]
    /\ Forall (fun l => LF ∉ l) (doc ed')
    /\ forall i : nat,
         Forall (fun r => Z.of_nat i < line (from r)) [span 1 0 2 1; caret 2 0] ->
         doc ed' !! i = [L "a"; L "1. b"; L "2. c"; L "d"] !! i.
Proof.
  apply (ordered_list_always_returns [L "a"; L "1. b"; L "2. c"; L "d"]
           [span 1 0 2 1; caret 2 0]).
  - repeat constructor; noLF.
  - repeat constructor; vm_compute; congruence.
Defined.

(** * The lines an inline toggle touches *)

Section TouchedLines.

Lemma makeChange_one_line (d : Doc) (text : Line) (f t : Pos) :
  line f = line t -> 0 <= line f < Z.of_nat (length d) ->
  length (makeChange d [text] f t) = length d
  /\ forall i : nat, Z.of_nat i <> line f -> makeChange d [text] f t !! i = d !! i.
Proof.
  intros Hl Hf. unfold makeChange. rewrite glue_one, <- Hl.
  set (n := Z.to_nat (line f)). split.
  - rewrite !length_app, length_take, length_drop. cbn [length]. lia.
  - intros i Hi. destruct (decide (i < n)%nat) as [Hlt|Hge].
    + rewrite lookup_app_l by (rewrite length_take; lia).
      apply lookup_take_lt. lia.
    + rewrite lookup_app_r by (rewrite length_take; lia).
      rewrite length_take. replace (n `min` length d)%nat with n by lia.
      rewrite lookup_app_r by (cbn [length]; lia).
      rewrite lookup_drop. cbn [length]. f_equal. lia.
Qed.

(** A request for a text without line feed on one line of the document
    changes that line only. *)
Lemma replaceRange_one_line (d : Doc) (text : Line) (f : Pos) (t : option Pos) :
  LF ∉ text ->
  0 <= line f < Z.of_nat (length d) ->
  (forall t', t = Some t' -> line t' = line f) ->
  length (replaceRange d text f t) = length d
  /\ forall i : nat, Z.of_nat i <> line f -> replaceRange d text f t !! i = d !! i.
Proof.
  intros Htext Hf Ht. unfold replaceRange. rewrite splitLines_noLF by done.
  assert (line (match t with Some t0 => clipPos d t0 | None => clipPos d f end)
          = line (clipPos d f)) as Hsame.
  { destruct t as [t'|]; [|done]. rewrite !clipPos_line; rewrite ?(Ht t' eq_refl); done. }
  pose proof (clipPos_line d f Hf) as Hclip.
  destruct (cmp _ _ <? 0).
  - destruct (makeChange_one_line d text
                (match t with Some t0 => clipPos d t0 | None => clipPos d f end)
                (clipPos d f)) as [H1 H2]; [lia | lia |].
    split; [done|]. intros i Hi. apply H2. lia.
  - destruct (makeChange_one_line d text (clipPos d f)
                (match t with Some t0 => clipPos d t0 | None => clipPos d f end))
      as [H1 H2]; [lia | lia |].
    split; [done|]. intros i Hi. apply H2. lia.
Qed.

Variables (token : Line) (alts : list Line).
Hypothesis token_noLF : LF ∉ token.

Lemma offLines_sameLines (i : nat) (r r' : Range) :
  sameLines r r' -> offLines i r -> offLines i r'.
Proof.
  intros [Ha Hh]. unfold offLines. by rewrite !from_line_min, !to_line_max, Ha, Hh.
Qed.

Lemma request_one_line (q : Request) (n : Z) :
  LF ∉ text q ->
  line (rfrom q) = n ->
  0 <= n < Z.of_nat (length (before q)) ->
  (forall t', rto q = Some t' -> line t' = n) ->
  length (request q) = length (before q)
  /\ forall i : nat, Z.of_nat i <> n -> request q !! i = before q !! i.
Proof.
  intros Htext <- Hn Ht. unfold request. by apply replaceRange_one_line.
Qed.

Lemma Lib_toggleStep_lines (d : Doc) (s : Range) (following : list Range)
    (d' : Doc) (s' : Range) (following' : list Range) (qs : list Request) :
  validRange d s ->
  Lib.toggleStep token alts d s following = Some (d', s', following', qs) ->
  length d' = length d
  /\ forall i : nat, offLines i s -> d' !! i = d !! i.
Proof.
  intros [Hfrom Hto]%validRange_ends. unfold Lib.toggleStep. cbv zeta.
  destruct (getLine d (line (to s))) as [endLine|]; [|done]. cbn [mbind option_bind].
  intros [= <- _ _ _].
  set (q1 := Lib.suffixRequest _ _ _ _ _).
  set (q2 := Lib.prefixRequest _ _ _ _).
  destruct (request_one_line q1 (line (to s))) as [Hlen1 Hkeep1].
  { unfold q1, Lib.suffixRequest. destruct (Lib.suffixToken _ _ _ _ _);
      [apply not_elem_of_nil | done]. }
  { unfold q1, Lib.suffixRequest. by destruct (Lib.suffixToken _ _ _ _ _). }
  { unfold q1, Lib.suffixRequest. by destruct (Lib.suffixToken _ _ _ _ _). }
  { unfold q1, Lib.suffixRequest. destruct (Lib.suffixToken _ _ _ _ _);
      cbn [rto]; [by intros t' [= <-] | done]. }
  assert (before q1 = d) as Hb1.
  { unfold q1, Lib.suffixRequest. by destruct (Lib.suffixToken _ _ _ _ _). }
  rewrite Hb1 in Hlen1, Hkeep1.
  destruct (request_one_line q2 (line (from s))) as [Hlen2 Hkeep2].
  { unfold q2, Lib.prefixRequest. destruct (Lib.prefixToken _ _ _ _);
      [apply not_elem_of_nil | done]. }
  { unfold q2, Lib.prefixRequest. by destruct (Lib.prefixToken _ _ _ _). }
  { unfold q2, Lib.prefixRequest. destruct (Lib.prefixToken _ _ _ _);
      cbn [before]; lia. }
  { unfold q2, Lib.prefixRequest. destruct (Lib.prefixToken _ _ _ _);
      cbn [rto]; [by intros t' [= <-] | done]. }
  assert (before q2 = request q1) as Hb2.
  { unfold q2, Lib.prefixRequest. by destruct (Lib.prefixToken _ _ _ _). }
  rewrite Hb2 in Hlen2, Hkeep2.
  split; [lia|]. intros i [Hi1 Hi2]. rewrite Hkeep2 by done. by apply Hkeep1.
Qed.

Lemma valid_sameLines (d d' : Doc) (ss ss' : list Range) :
  (length d <= length d')%nat -> Forall2 sameLines ss ss' ->
  Forall (validRange d) ss -> Forall (validRange d') ss'.
Proof.
  intros Hd Hl. induction Hl as [|r r' rs rs' Hr _ IH]; [constructor|].
  intros [? ?]%Forall_cons. constructor; [by eapply validRange_mono | by apply IH].
Qed.

Lemma offLines_all_sameLines (i : nat) (ss ss' : list Range) :
  Forall2 sameLines ss ss' -> Forall (offLines i) ss -> Forall (offLines i) ss'.
Proof.
  intros Hl. induction Hl as [|r r' rs rs' Hr _ IH]; [constructor|].
  intros [? ?]%Forall_cons. constructor; [by eapply offLines_sameLines | by apply IH].
Qed.

Lemma Lib_toggleLoop_touches (n : nat) : forall ss d d' rs qs,
  length ss = n -> Forall wfRange ss -> Forall (validRange d) ss ->
  Lib.toggleLoop token alts n d ss = Some (d', rs, qs) ->
  length d' = length d
  /\ forall i : nat, Forall (offLines i) ss -> d' !! i = d !! i.
Proof.
  induction n as [|n IH]; intros ss d d' rs qs Hn Hwf Hvalid Hrun.
  - destruct ss; [|done]. cbn in Hrun. by injection Hrun as <- _ _.
  - destruct ss as [|s ss]; [done|]. cbn [Lib.toggleLoop] in Hrun.
    apply Forall_cons in Hwf as [Hs Hss]. apply Forall_cons in Hvalid as [Hvs Hvss].
    destruct (Lib.toggleStep token alts d s ss) as [[[[d1 s1] ss1] qs1]|] eqn:Hstep; [|done].
    cbn [mbind option_bind] in Hrun.
    destruct (Lib.toggleLoop token alts n d1 ss1) as [[[d2 rs2] qs2]|] eqn:Hloop; [|done].
    cbn [mbind option_bind] in Hrun. injection Hrun as <- _ _.
    destruct (Lib_toggleStep_lines d s ss d1 s1 ss1 qs1 Hvs Hstep) as [Hlen1 Hkeep1].
    destruct (Lib_toggleStep_returns token alts d s ss Hvs) as (d1' & qs1' & Heq & _).
    rewrite Hstep in Heq. injection Heq as _ _ Hss1 _.
    match type of Hss1 with
    | _ = Lib.adjustAll ?f ?t ?b ?a ss =>
        destruct (adjustAll_keeps f t b a ss Hss) as [Hwf' Hl']; rewrite <- Hss1 in Hwf', Hl'
    end.
    destruct (IH ss1 d1 d2 rs2 qs2) as [Hlen2 Hkeep2]; try done.
    + apply Forall2_length in Hl'. cbn [length] in Hn. lia.
    + apply (valid_sameLines d d1 ss ss1); [lia | done | done].
    + split; [lia|]. intros i Hi. apply Forall_cons in Hi as [Hi1 Hi2].
      rewrite Hkeep2; [by apply Hkeep1|].
      by apply (offLines_all_sameLines i ss ss1).
Qed.

End TouchedLines.

Lemma plainToken_noLF (t : Line) : plainToken t -> LF ∉ t.
Proof.
  unfold plainToken. induction t as [|c t IH]; [intros _; apply not_elem_of_nil|].
  cbn [forallb]. intros [Hc Ht]%andb_prop [Heq|Hin]%elem_of_cons; [|by apply IH].
  subst c. discriminate.
Qed.

(** An inline toggle of the library edition, for tokens the search takes by
    the letter and selections on lines of the document, returns, keeps the
    number of lines, and leaves every line as it is on which no selection
    starts or ends. *)
Theorem inline_toggle_touches_selection_lines
    (token : Line) (alts : list Line) (ed : Editor) :
  Forall plainToken (token :: alts) ->
  Forall wfRange (sels ed) ->
  Forall (validRange (doc ed)) (sels ed) ->
  exists ed',
    Lib.toggleInlineFormatting token alts ed = Some ed'
    /\ length (doc ed') = length (doc ed)
    /\ forall i : nat, Forall (offLines i) (sels ed) -> doc ed' !! i = doc ed !! i.
Proof.
  intros Htokens Hwf Hvalid.
  pose proof (plainToken_noLF token (Forall_inv Htokens)) as Htoken.
  destruct (Lib_toggleLoop_returns token alts (length (sels ed)) (sels ed) (doc ed)
              eq_refl Hwf Hvalid) as [[[d' rs] qs] Hrun].
  destruct (Lib_toggleLoop_touches token alts Htoken (length (sels ed)) (sels ed) (doc ed)
              d' rs qs eq_refl Hwf Hvalid Hrun) as [Hlen Hkeep].
  exists (setSelections d' rs). split; [|done].
  unfold Lib.toggleInlineFormatting, Lib.toggleInlineFormattingRun. by rewrite Hrun.
Qed.

Lemma inline_toggle_touches_selection_lines_witness :
  exists ed',
    Lib.toggleInlineFormatting (L "**") [L "__"]
      (mkEditor [L "ab"; L "cd"; L "ef"; L "gh"] [span 0 0 0 1; span 2 1 3 1]) = Some ed'
    /\ length (doc ed')
       = length (doc (mkEditor [L "ab"; L "cd"; L "ef"; L "gh"] [span 0 0 0 1; span 2 1 3 1]))
    /\ forall i : nat,
         Forall (offLines i)
           (sels (mkEditor [L "ab"; L "cd"; L "ef"; L "gh"] [span 0 0 0 1; span 2 1 3 1])) ->
         doc ed' !! i
         = doc (mkEditor [L "ab"; L "cd"; L "ef"; L "gh"] [span 0 0 0 1; span 2 1 3 1]) !! i.
Proof.
  apply (inline_toggle_touches_selection_lines (L "**") [L "__"]
           (mkEditor [L "ab"; L "cd"; L "ef"; L "gh"] [span 0 0 0 1; span 2 1 3 1])).
  - repeat constructor.
  - repeat constructor; by unfold wfRange.
  - repeat constructor; vm_compute; congruence.
Defined.

(** * Synchronising with the textarea *)

Section AutoSync.

Import FromTextarea.

Lemma setOptions_keeps (o : option bool) (s : State) :
  handlers s = (if saver s then 1 else 0)%nat ->
  handlers (setOptions o s) = (if saver (setOptions o s) then 1 else 0)%nat
  /\ saver (setOptions o s) = autoSync (setOptions o s)
  /\ autoSync (setOptions o s) = default (autoSync s) o.
Proof.
  intros Hs. unfold setOptions. destruct s as [a [|] h]; cbn [autoSync saver handlers] in *;
    subst h; destruct (default a o); done.
Qed.

Lemma calls_keep (cs : list (option bool)) : forall s : State,
  handlers s = (if saver s then 1 else 0)%nat ->
  handlers (calls cs s) = (if saver (calls cs s) then 1 else 0)%nat
  /\ (cs <> [] -> saver (calls cs s) = autoSync (calls cs s)).
Proof.
  induction cs as [|c cs IH]; intros s Hs; [done|].
  destruct (setOptions_keeps c s Hs) as (H1 & H2 & _).
  change (calls (c :: cs) s) with (calls cs (setOptions c s)).
  destruct (IH (setOptions c s) H1) as [IH1 IH2]. split; [done|]. intros _.
  destruct cs as [|c2 cs]; [done|]. by apply IH2.
Qed.

End AutoSync.

(** However [setOptions] is called on an editor made from a textarea, the
    editor has one handler registered for the changes of the buffer when its
    field [saver] is set and none otherwise, and after the first call
    [saver] is set exactly when [autoSync] is on; the constructor alone
    registers nothing, whatever [autoSync] is. *)
Theorem auto_sync_registers_once (autoSync0 : bool) (cs : list (option bool)) :
  FromTextarea.handlers (FromTextarea.calls cs (FromTextarea.construct autoSync0))
    = (if FromTextarea.saver (FromTextarea.calls cs (FromTextarea.construct autoSync0))
       then 1 else 0)%nat
  /\ (cs <> [] ->
      FromTextarea.saver (FromTextarea.calls cs (FromTextarea.construct autoSync0))
      = FromTextarea.autoSync (FromTextarea.calls cs (FromTextarea.construct autoSync0)))
  /\ FromTextarea.saver (FromTextarea.construct autoSync0) = false.
Proof.
  destruct (calls_keep cs (FromTextarea.construct autoSync0) eq_refl) as [H1 H2]. done.
Qed.

(** * The alternative tokens of the library edition *)

Section AlternativeTokens.

Variables (tok alt x body y : Line) (d1 d2 : Doc).
Hypothesis tok_alt : tok <> alt.
Hypothesis alt_nonempty : alt <> [].
Hypothesis same_length : length alt = length tok.

Let i := Z.of_nat (length d1).

Lemma findToken_second (test : Line -> bool) :
  test tok = false -> test alt = true -> Lib.findToken test [tok; alt] = Some alt.
Proof.
  intros H1 H2. unfold Lib.findToken. cbn [List.find]. rewrite H1, H2.
  by destruct alt.
Qed.

Lemma endsWith_other (s : Line) : endsWith (s ++ alt) tok = false.
Proof.
  unfold endsWith, line_eqb. rewrite length_app, same_length.
  replace (length s + length tok - length tok)%nat with (length s) by lia.
  rewrite drop_app_length. by apply bool_decide_eq_false_2.
Qed.

Lemma startsWith_other (s : Line) : startsWith (alt ++ s) tok = false.
Proof.
  unfold startsWith, line_eqb. rewrite <- same_length, take_app_length.
  by apply bool_decide_eq_false_2.
Qed.

Lemma Lib_toggleStep_unwrap_alt (r : Range) :
  from r = mkPos i (len x + len alt) ->
  to r = mkPos i (len x + len alt + len body) ->
  exists qs,
    Lib.toggleStep tok [alt] (d1 ++ (x ++ alt ++ body ++ alt ++ y) :: d2) r []
    = Some (d1 ++ (x ++ body ++ y) :: d2, Lib.adjustProcessed r (- len tok), [], qs).
Proof.
  intros Hfrom Hto. unfold Lib.toggleStep. cbv zeta.
  rewrite Hto, Hfrom. cbn [line].
  unfold i. rewrite getLine_middle. cbn [mbind option_bind].
  assert (Lib.prefixToken tok [alt] (d1 ++ (x ++ alt ++ body ++ alt ++ y) :: d2)
            (mkPos (Z.of_nat (length d1)) (len x + len alt)) = Some alt) as ->.
  { rewrite (app_assoc x alt), <- len_app.
    rewrite (Lib_prefixToken_at d1 d2 tok [alt] (x ++ alt) (body ++ alt ++ y)).
    apply findToken_second; [apply endsWith_other | apply endsWith_app]. }
  assert (Lib.suffixToken tok [alt] (d1 ++ (x ++ alt ++ body ++ alt ++ y) :: d2)
            (mkPos (Z.of_nat (length d1)) (len x + len alt + len body))
            (len (x ++ alt ++ body ++ alt ++ y)) = Some alt) as ->.
  { replace (x ++ alt ++ body ++ alt ++ y) with ((x ++ alt ++ body) ++ alt ++ y)
      by (by rewrite <- !app_assoc).
    replace (len x + len alt + len body) with (len (x ++ alt ++ body))
      by (rewrite !len_app; lia).
    rewrite (Lib_suffixToken_at d1 d2 tok [alt] (x ++ alt ++ body) (alt ++ y)).
    apply findToken_second; [apply startsWith_other | apply startsWith_app]. }
  unfold Lib.suffixRequest, Lib.prefixRequest, request, Lib.shiftOf.
  cbn [before text rfrom rto Lib.found Lib.adjustAll].
  unfold Lib.suffixEnd, Lib.prefixStart. cbn [line ch].
  pose proof (len_nonneg x). pose proof (len_nonneg body). pose proof (len_nonneg y).
  pose proof (len_nonneg alt).
  destruct (Z.leb_spec (len x + len alt + len body)
              (len (x ++ alt ++ body ++ alt ++ y) - len alt));
    [|rewrite !len_app in *; lia].
  destruct (Z.geb_spec (len x + len alt) (len alt)); [|lia].
  replace (-1 * len tok) with (- len tok) by lia.
  eexists. f_equal. f_equal. f_equal. f_equal.
  replace (x ++ alt ++ body ++ alt ++ y) with ((x ++ alt ++ body) ++ alt ++ y)
    by (by rewrite <- !app_assoc).
  replace (len x + len alt + len body) with (len (x ++ alt ++ body))
    by (rewrite !len_app; lia).
  rewrite remove_at. rewrite <- !app_assoc.
  replace (len (x ++ alt ++ body)) with (len x + len alt + len body)
    by (rewrite !len_app; lia).
  replace (len x + len alt - len alt) with (len x) by lia.
  by rewrite remove_at.
Qed.

Lemma Lib_unwrap_alt (r : Range) :
  wfRange r ->
  from r = mkPos i (len x + len alt) ->
  to r = mkPos i (len x + len alt + len body) ->
  body = [] \/ len alt < len body ->
  Lib.toggleInlineFormatting tok [alt]
    (mkEditor (d1 ++ (x ++ alt ++ body ++ alt ++ y) :: d2) [r])
  = Some (mkEditor (d1 ++ (x ++ body ++ y) :: d2)
            [shiftRange (- len alt) (caretShared r)]).
Proof.
  intros Hwf Hfrom Hto Hbody.
  assert (len tok = len alt) as Hlen by (unfold len; by rewrite same_length).
  assert (len body = 0 \/ len alt < len body) as Hb' by (destruct Hbody as [->|?]; auto).
  pose proof (len_pos alt alt_nonempty) as HL. pose proof (len_nonneg body) as Hb.
  pose proof (len_nonneg x) as Hx. pose proof (len_nonneg y) as Hy.
  unfold Lib.toggleInlineFormatting, Lib.toggleInlineFormattingRun.
  cbn [doc sels length Lib.toggleLoop].
  destruct (Lib_toggleStep_unwrap_alt r Hfrom Hto) as [qs Hstep].
  rewrite Hstep. cbn [mbind option_bind]. rewrite Hlen.
  rewrite (Lib_adjustProcessed_shift r _ _ (- len alt) Hwf Hfrom Hto);
    [|done | cbn [ch]; lia | cbn [ch]; lia].
  unfold setSelections. cbn [map normalizeSelection sortRanges insertRange mergeLoop].
  change (mkRange (add_ch (- len alt) (anchor r)) (add_ch (- len alt) (head r)) (empty r))
    with (shiftRange (- len alt) (caretShared r)).
  rewrite clipRange_ends; [done | |].
  - rewrite from_shiftRange, from_caretShared, Hfrom. unfold add_ch. cbn [line ch].
    apply (clipPos_inside _ _ (x ++ body ++ y)); [apply getLine_middle|].
    cbn [ch]. rewrite !len_app. lia.
  - rewrite to_shiftRange, to_caretShared, Hto. unfold add_ch. cbn [line ch].
    apply (clipPos_inside _ _ (x ++ body ++ y)); [apply getLine_middle|].
    cbn [ch]. rewrite !len_app. lia.
Qed.

End AlternativeTokens.

(** [toggleBold] and [toggleItalic] of the library edition take away the
    other token of their kind as well: with [**] preferred, a selection
    inside one line (a caret or a selection longer than the token) that has
    [__] on both sides loses these, and is installed moved back so that it
    selects the text it selected before; likewise with [__] preferred and
    [**] in the text, and for [*] and [_]. *)
Theorem other_token_unwrapped
    (o : Options) (op : Editor -> option Editor) (tok alt x body y : Line)
    (d1 d2 : Doc) (r : Range) :
  (op = Lib.toggleBold o /\ bold o = tok
   /\ ((tok = L "**" /\ alt = L "__") \/ (tok = L "__" /\ alt = L "**")))
  \/ (op = Lib.toggleItalic o /\ italic o = tok
      /\ ((tok = L "*" /\ alt = L "_") \/ (tok = L "_" /\ alt = L "*"))) ->
  wfRange r ->
  from r = mkPos (Z.of_nat (length d1)) (len x + len alt) ->
  to r = mkPos (Z.of_nat (length d1)) (len x + len alt + len body) ->
  body = [] \/ len alt < len body ->
  exists r',
    op (mkEditor (d1 ++ (x ++ alt ++ body ++ alt ++ y) :: d2) [r])
      = Some (mkEditor (d1 ++ (x ++ body ++ y) :: d2) [r'])
    /\ anchor r' = add_ch (- len alt) (anchor r)
    /\ head r' = add_ch (- len alt) (head r)
    /\ selected (d1 ++ (x ++ body ++ y) :: d2) r' = body.
Proof.
  intros Hop Hwf Hfrom Hto Hbody.
  exists (shiftRange (- len alt) (caretShared r)).
  assert (tok <> alt /\ alt <> [] /\ length alt = length tok
          /\ op = Lib.toggleInlineFormatting tok [alt]) as (Hne & Halt & Hlen & ->).
  { destruct Hop as [(-> & Ho & [[-> ->] | [-> ->]]) | (-> & Ho & [[-> ->] | [-> ->]])];
      (split; [done|]); (split; [done|]); (split; [done|]);
      unfold Lib.toggleBold, Lib.toggleItalic; by rewrite Ho. }
  split; [by apply (Lib_unwrap_alt tok alt x body y d1 d2)|].
  split; [done|]. split; [done|]. apply selected_middle.
  - rewrite from_shiftRange, from_caretShared, Hfrom. unfold add_ch. cbn [line ch].
    f_equal. lia.
  - rewrite to_shiftRange, to_caretShared, Hto. unfold add_ch. cbn [line ch].
    f_equal. lia.
Qed.

Lemma other_token_unwrapped_witness :
  exists r',
    Lib.toggleBold builtinOptions
      (mkEditor ([] ++ (L "a " ++ L "__" ++ L "bcd" ++ L "__" ++ L " e") :: []) [span 0 4 0 7])
      = Some (mkEditor ([] ++ (L "a " ++ L "bcd" ++ L " e") :: []) [r'])
    /\ anchor r' = add_ch (- len (L "__")) (anchor (span 0 4 0 7))
    /\ head r' = add_ch (- len (L "__")) (head (span 0 4 0 7))
    /\ selected ([] ++ (L "a " ++ L "bcd" ++ L " e") :: []) r' = L "bcd".
Proof.
  apply (other_token_unwrapped builtinOptions (Lib.toggleBold builtinOptions)
           (L "**") (L "__") (L "a ") (L "bcd") (L " e") [] [] (span 0 4 0 7)).
  - left. split; [done|]. split; [done|]. left. done.
  - by unfold wfRange.
  - reflexivity.
  - reflexivity.
  - right. vm_compute. reflexivity.
Defined.

(** * The lines a code block adds *)

Section AddedLines.

Lemma clipPos_valid (d : Doc) (p : Pos) :
  d <> [] -> 0 <= line (clipPos d p) < Z.of_nat (length d).
Proof.
  intros Hd. assert (0 < length d)%nat by (destruct d; [done | cbn [length]; lia]).
  unfold clipPos, lastLine.
  destruct (Z.ltb_spec (line p) 0); [cbn [line]; lia|].
  destruct (Z.gtb_spec (line p) (Z.of_nat (length d) - 1)); [cbn [line]; lia|].
  cbv zeta. destruct (Z.gtb_spec (ch p) (len (lineAt d (line p)))); [cbn [line]; lia|].
  destruct (Z.ltb_spec (ch p) 0); cbn [line]; lia.
Qed.

(** An insertion adds one line for every line feed of its text. *)
Lemma insertion_adds_lines (d : Doc) (text : Line) (p : Pos) :
  d <> [] ->
  Z.of_nat (length (replaceRange d text p None)) = Z.of_nat (length d) + Lib.countLF text.
Proof.
  intros Hd. pose proof (clipPos_valid d p Hd) as Hp.
  unfold replaceRange.
  assert ((cmp (clipPos d p) (clipPos d p) <? 0) = false) as ->.
  { unfold cmp. rewrite !Z.sub_diag. done. }
  unfold makeChange.
  rewrite !length_app, length_take, length_drop,
    (glue_same_length _ _ _ (splitLines_nonempty text)).
  pose proof (splitLines_length text). lia.
Qed.

Lemma countLF_fence (fence : Line) :
  LF ∉ fence ->
  Lib.countLF (LF :: fence ++ [LF]) = 2 /\ Lib.countLF (fence ++ [LF]) = 1.
Proof.
  intros Hf.
  pose proof (splitLines_length (LF :: fence ++ [LF])) as H1.
  pose proof (splitLines_length (fence ++ [LF])) as H2.
  rewrite splitLines_fence in H1 by done.
  change (fence ++ [LF]) with (fence ++ LF :: []) in H2.
  rewrite splitLines_LF in H2 by done. cbn [length splitLines] in *.
  split; [lia|]. change (fence ++ [LF]) with (fence ++ LF :: []). lia.
Qed.

Lemma codeBlockLoop_adds (fence : Line) (n : nat) : forall (d : Doc) (ss : list Range),
  LF ∉ fence -> d <> [] -> length ss = n ->
  3 * Z.of_nat n <= Z.of_nat (length (fst (Lib.codeBlockLoop fence n d ss)))
                    - Z.of_nat (length d) <= 4 * Z.of_nat n.
Proof.
  induction n as [|n IH]; intros d ss Hf Hd Hn.
  - cbn [Lib.codeBlockLoop fst]. lia.
  - destruct ss as [|s ss]; [done|]. cbn [Lib.codeBlockLoop].
    destruct (countLF_fence fence Hf) as [H2 H1].
    set (d1 := replaceRange d (LF :: fence ++ [LF]) (to s) None).
    pose proof (insertion_adds_lines d (LF :: fence ++ [LF]) (to s) Hd) as Hd1.
    fold d1 in Hd1. rewrite H2 in Hd1.
    assert (d1 <> []) as Hne1 by (intros E; rewrite E in Hd1; cbn [length] in Hd1; lia).
    set (startToken := if negb (ch (from s) >? 0) then fence ++ [LF]
                       else LF :: fence ++ [LF]).
    set (d2 := replaceRange d1 startToken (from s) None).
    pose proof (insertion_adds_lines d1 startToken (from s) Hne1) as Hd2. fold d2 in Hd2.
    assert (1 <= Lib.countLF startToken <= 2) as Hst
      by (unfold startToken; destruct (negb _); lia).
    assert (d2 <> []) as Hne2 by (intros E; rewrite E in Hd2; cbn [length] in Hd2; lia).
    specialize (IH d2 (map (Lib.rebase s (if negb (ch (from s) >? 0) then 3 else 4)) ss)
                  Hf Hne2).
    rewrite length_map in IH. cbn [length] in Hn. specialize (IH ltac:(lia)).
    destruct (Lib.codeBlockLoop fence n d2 _) as [d' rs]. cbn [fst] in *. lia.
Qed.

End AddedLines.

(** [insertCodeBlock] returns for every selection list and adds three or
    four lines to the document for every selection (four when the opening
    fence needs a line feed in front); in both editions. *)
Theorem code_block_adds_lines (o : Options) (ed : Editor) :
  LF ∉ codeBlock o ->
  doc ed <> [] ->
  (exists ed',
     Lib.insertCodeBlock o ed = Some ed'
     /\ 3 * Z.of_nat (length (sels ed))
        <= Z.of_nat (length (doc ed')) - Z.of_nat (length (doc ed))
        <= 4 * Z.of_nat (length (sels ed)))
  /\ (exists ed',
     Old.insertCodeBlock ed = Some ed'
     /\ 3 * Z.of_nat (length (sels ed))
        <= Z.of_nat (length (doc ed')) - Z.of_nat (length (doc ed))
        <= 4 * Z.of_nat (length (sels ed))).
Proof.
  assert (forall fence, LF ∉ fence -> doc ed <> [] ->
            exists ed',
              (let '(d, newSelections) :=
                 Lib.codeBlockLoop fence (length (sels ed)) (doc ed) (sels ed) in
               Some (setSelections d newSelections)) = Some ed'
              /\ 3 * Z.of_nat (length (sels ed))
                 <= Z.of_nat (length (doc ed')) - Z.of_nat (length (doc ed))
                 <= 4 * Z.of_nat (length (sels ed))) as Hgen.
  { intros fence Hf Hd.
    pose proof (codeBlockLoop_adds fence (length (sels ed)) (doc ed) (sels ed) Hf Hd eq_refl)
      as Hadd.
    destruct (Lib.codeBlockLoop fence (length (sels ed)) (doc ed) (sels ed)) as [d' rs].
    exists (setSelections d' rs). done. }
  intros Hf Hd. split.
  - unfold Lib.insertCodeBlock. by apply Hgen.
  - rewrite (insertCodeBlock_same builtinOptions) by done.
    unfold Lib.insertCodeBlock. apply Hgen; [noLF | done].
Qed.

Lemma code_block_adds_lines_witness :
  exists ed',
    Lib.insertCodeBlock builtinOptions (mkEditor [L "ab"; L "cd"] [caret 0 0; span 1 1 1 2])
      = Some ed'
    /\ 3 * Z.of_nat (length (sels (mkEditor [L "ab"; L "cd"] [caret 0 0; span 1 1 1 2])))
       <= Z.of_nat (length (doc ed'))
          - Z.of_nat (length (doc (mkEditor [L "ab"; L "cd"] [caret 0 0; span 1 1 1 2])))
       <= 4 * Z.of_nat (length (sels (mkEditor [L "ab"; L "cd"] [caret 0 0; span 1 1 1 2]))).
Proof.
  refine (proj1 (code_block_adds_lines builtinOptions
                   (mkEditor [L "ab"; L "cd"] [caret 0 0; span 1 1 1 2]) _ _)).
  - noLF.
  - discriminate.
Defined.

(** * Two selections on two lines *)


Section TwoLines.

Variables (tok : Line) (alts : list Line).
Hypothesis tok_nonempty : tok <> [].
Hypothesis tok_noLF : LF ∉ tok.


End TwoLines.



(** * The selections installed *)




(** Two selections on one line that stay apart, and one on the next line:
    the three are installed in their order. *)
Example selections_installed_in_order :
  Lib.toggleInlineFormatting (L "**") [L "__"]
    (mkEditor [L "ab cd"; L "ef"] [span 0 0 0 2; caret 0 4; span 1 2 1 0])
  = Some (mkEditor [L "**ab** c****d"; L "**ef**"]
            [span 0 2 0 4; caret 0 10; span 1 4 1 2]).
Proof. vm_compute. reflexivity. Qed.
